(** * Signed update manifests: canonical serialization, hashing and
      archive validation

    A shallow embedding of the Python tooling under [pythonsecret/]:
    [create_manifest.py], [build_manifest.py] and [validate_payload.py].

    Conventions of the embedding.
    - A Python [str] is a list of Unicode code points ([N]); a Python
      [bytes] value is a list of [Byte.byte].
    - A Python [dict] is an association list in insertion order whose keys
      are pairwise distinct; [dict_set] updates in place or appends.
    - A raised exception is the [Err] branch of [result]; each [raise] site
      of the scripts has its own constructor of [error].
    - Functions of the Python standard library and of [cryptography] that the
      scripts call but do not define (SHA-256, RSA verification and signing,
      base64 decoding, [str.lower]) are the fields of the class [Library]. *)

From Stdlib Require Import List Arith NArith Lia Bool String Ascii.
From Stdlib.Strings Require Import Byte.
From Stdlib Require Import Permutation Sorted.
From Equations Require Import Equations.
Import ListNotations.

Local Open Scope N_scope.
Local Open Scope list_scope.

(** ** Strings and bytes *)

Definition codepoint := N.
Definition str := list codepoint.
Definition bytes := list byte.

(** An ASCII literal of the scripts as a [str]. *)
Definition lit (s : string) : str :=
  List.map N_of_ascii (list_ascii_of_string s).

Fixpoint str_eqb (a b : str) : bool :=
  match a, b with
  | [], [] => true
  | x :: a', y :: b' => (x =? y) && str_eqb a' b'
  | _, _ => false
  end.

(** [a < b] on [str]: lexicographic over code points. *)
Fixpoint str_ltb (a b : str) : bool :=
  match a, b with
  | _, [] => false
  | [], _ :: _ => true
  | x :: a', y :: b' =>
      if x <? y then true
      else if y <? x then false
      else str_ltb a' b'
  end.

Definition SLASH : codepoint := 47.
Definition BACKSLASH : codepoint := 92.

(** [s.replace(old, new)] for one-character [old] and [new]. *)
Definition replace (old new : codepoint) (s : str) : str :=
  List.map (fun c => if c =? old then new else c) s.

(** [s.split(sep)] for a one-character separator: never returns the empty
    list, and [split sep [] = [[]]]. *)
Fixpoint split (sep : codepoint) (s : str) : list str :=
  match s with
  | [] => [[]]
  | c :: s' =>
      if c =? sep then [] :: split sep s'
      else match split sep s' with
           | seg :: rest => (c :: seg) :: rest
           | [] => [[c]]
           end
  end.

(** [sep.join(parts)]. *)
Fixpoint join (sep : str) (parts : list str) : str :=
  match parts with
  | [] => []
  | [p] => p
  | p :: rest => p ++ sep ++ join sep rest
  end.

(** ** Exceptions *)

Inductive error : Type :=
| PathSecurityError                       (* validate_payload.py:76 *)
| StructuralVersion                       (* :85 *)
| StructuralFiles                         (* :88 *)
| StructuralSignature                     (* :91 *)
| EncodingError                           (* :96 *)
| StructuralFileTypes                     (* :102 *)
| SignatureError                          (* :155 *)
| DuplicateEntryError (normalized : str)  (* :139 *)
| IntegrityMissing (missing : list str)   (* :177 *)
| IntegrityMismatch (mismatched : list str) (* :179 *)
| PolicyViolation (extra : list str)      (* :181 *)
| TypeError                               (* a non-mapping document *)
| UnicodeEncodeError                      (* [.encode("utf-8")] on a lone surrogate *)
| KeyLoadError.                           (* [load_public_key] fails *)

Inductive result (A : Type) : Type :=
| Ok (a : A)
| Err (e : error).
Arguments Ok {A} a.
Arguments Err {A} e.

Definition bind {A B} (r : result A) (k : A -> result B) : result B :=
  match r with
  | Ok a => k a
  | Err e => Err e
  end.

Notation "x <- r ;; k" := (bind r (fun x => k))
  (at level 61, r at next level, right associativity).

Definition is_ok {A} (r : result A) : bool :=
  match r with Ok _ => true | Err _ => false end.

(** ** Path normalizer ([validate_payload.py], [normalize_relative_path]) *)

(** The [for part in posix.split("/")] loop; [parts] is the accumulator. *)
Fixpoint normalize_loop (segs : list str) (parts : list str) : result (list str) :=
  match segs with
  | [] => Ok parts
  | part :: rest =>
      if str_eqb part [] || str_eqb part (lit ".") then
        normalize_loop rest parts
      else if str_eqb part (lit "..") then
        Err PathSecurityError
      else
        normalize_loop rest (parts ++ [part])
  end.

Definition normalize_relative_path (path : str) : result str :=
  let posix := replace BACKSLASH SLASH path in
  parts <- normalize_loop (split SLASH posix) [] ;;
  Ok (join (lit "/") parts).


(** The segments the loop keeps, and the segments of a path after the
    separator replacement. *)
Definition kept (part : str) : bool :=
  negb (str_eqb part [] || str_eqb part (lit ".")).

Definition segments (path : str) : list str :=
  filter kept (split SLASH (replace BACKSLASH SLASH path)).

(** ** Python [dict]: insertion-ordered association list *)

Definition dict (V : Type) := list (str * V).

Fixpoint dict_get {V} (d : dict V) (k : str) : option V :=
  match d with
  | [] => None
  | (k', v) :: d' => if str_eqb k' k then Some v else dict_get d' k
  end.

(** [k in d]. *)
Definition dict_mem {V} (d : dict V) (k : str) : bool :=
  match dict_get d k with Some _ => true | None => false end.

(** [d[k] = v]: an existing key keeps its position, a new key goes last. *)
Fixpoint dict_set {V} (d : dict V) (k : str) (v : V) : dict V :=
  match d with
  | [] => [(k, v)]
  | (k', v') :: d' =>
      if str_eqb k' k then (k', v) :: d' else (k', v') :: dict_set d' k v
  end.

Definition keys {V} (d : dict V) : list str := List.map fst d.

(** The dict built by the assignments [d[k] = v], one per entry, in the
    order of the entries. *)
Definition dict_of {V} (entries : list (str * V)) : dict V :=
  fold_left (fun d kv => dict_set d (fst kv) (snd kv)) entries [].

(** [sorted(...)] by a [str] key: a stable insertion sort. *)
Fixpoint insert_sorted {A} (key : A -> str) (x : A) (l : list A) : list A :=
  match l with
  | [] => [x]
  | y :: l' =>
      if str_ltb (key y) (key x) then y :: insert_sorted key x l' else x :: l
  end.

Definition sort_by {A} (key : A -> str) (l : list A) : list A :=
  fold_right (insert_sorted key) [] l.

Definition sorted (l : list str) : list str := sort_by (fun s => s) l.

(** ** Canonical serializer ([canonical_json] of all three scripts) *)

(** The values [json.loads] returns and [json.dumps] accepts; a number
    carries the text [json.dumps] prints for it. *)
#[local] Unset Elimination Schemes.
Inductive json : Type :=
| JNull
| JBool (b : bool)
| JNumber (text : str)
| JString (s : str)
| JArray (items : list json)
| JObject (members : dict json).
#[local] Set Elimination Schemes.

Definition hex_digit (n : N) : codepoint :=
  if n <? 10 then 48 + n else 87 + n.

(** [json.encoder.py_encode_basestring]: the double quote, the backslash
    and the control characters below U+0020 are replaced by their escape
    (the short form for BS, HT, LF, FF and CR, a u-escape otherwise); every
    other code point is copied. *)
Definition escape_char (c : codepoint) : str :=
  if c =? 34 then [92; 34]
  else if c =? 92 then [92; 92]
  else if c =? 10 then [92; 110]
  else if c =? 13 then [92; 114]
  else if c =? 9 then [92; 116]
  else if c =? 8 then [92; 98]
  else if c =? 12 then [92; 102]
  else if c <? 32 then [92; 117; 48; 48; hex_digit (c / 16); hex_digit (c mod 16)]
  else [c].

Definition encode_basestring (s : str) : str :=
  [34] ++ flat_map escape_char s ++ [34].

(** [json.dumps(obj, sort_keys=True, separators=(",", ":"),
    ensure_ascii=False)].  The members of a dict are sorted by key (the
    keys of a dict are distinct, so [sorted(dct.items())] never compares
    two values). *)
Fixpoint dumps (obj : json) : str :=
  match obj with
  | JNull => lit "null"
  | JBool true => lit "true"
  | JBool false => lit "false"
  | JNumber text => text
  | JString s => encode_basestring s
  | JArray items =>
      lit "[" ++ join (lit ",") (List.map dumps items) ++ lit "]"
  | JObject members =>
      let items := sort_by fst (List.map (fun kv => let '(k, v) := kv in (k, dumps v)) members) in
      lit "{"
      ++ join (lit ",")
           (List.map (fun kv => encode_basestring (fst kv) ++ lit ":" ++ snd kv) items)
      ++ lit "}"
  end.

Definition byte_of_N (n : N) : byte :=
  match Byte.of_N n with Some b => b | None => x00 end.

(** UTF-8 encoding of one code point; [None] for a surrogate (what
    [str.encode("utf-8")] refuses) and outside the Unicode range. *)
Definition utf8_char (c : codepoint) : option bytes :=
  if c <? 128 then Some [byte_of_N c]
  else if c <? 2048 then
    Some [byte_of_N (192 + c / 64); byte_of_N (128 + c mod 64)]
  else if c <? 65536 then
    if (55296 <=? c) && (c <=? 57343) then None
    else Some [byte_of_N (224 + c / 4096);
               byte_of_N (128 + (c / 64) mod 64);
               byte_of_N (128 + c mod 64)]
  else if c <? 1114112 then
    Some [byte_of_N (240 + c / 262144);
          byte_of_N (128 + (c / 4096) mod 64);
          byte_of_N (128 + (c / 64) mod 64);
          byte_of_N (128 + c mod 64)]
  else None.

(** [s.encode("utf-8")]. *)
Fixpoint encode_utf8 (s : str) : result bytes :=
  match s with
  | [] => Ok []
  | c :: s' =>
      match utf8_char c with
      | None => Err UnicodeEncodeError
      | Some bs => rest <- encode_utf8 s' ;; Ok (bs ++ rest)
      end
  end.

Definition canonical_json (obj : json) : result bytes :=
  encode_utf8 (dumps obj).

(** The dict [{"version": version, "files": files}] both scripts build. *)
Definition files_json (files : dict str) : json :=
  JObject (List.map (fun kv => (fst kv, JString (snd kv))) files).

Definition unsigned_members (version : str) (files : dict str) : dict json :=
  [(lit "version", JString version); (lit "files", files_json files)].

Definition unsigned_manifest (version : str) (files : dict str) : json :=
  JObject (unsigned_members version files).

(** One member of the canonical text of a files map: the quoted key, a
    colon, the quoted value. *)
Definition member_text (kv : str * str) : str :=
  encode_basestring (fst kv) ++ lit ":" ++ encode_basestring (snd kv).

(** ** Builder file system ([pathlib]) *)

(** What [payload_dir.rglob] can meet.  A symlink carries what it resolves
    to ([None] when dangling); [rglob] does not descend into it. *)
#[local] Unset Elimination Schemes.
Inductive fsnode : Type :=
| RegularFile (data : bytes)
| Directory (children : list (str * fsnode))
| Symlink (target : option fsnode)
| Special.
#[local] Set Elimination Schemes.

(** Follow symlinks, as [stat] does. *)
Fixpoint resolve (n : fsnode) : option fsnode :=
  match n with
  | Symlink None => None
  | Symlink (Some t) => resolve t
  | _ => Some n
  end.

(** [Path.is_file()]: a regular file, or a symlink pointing to one. *)
Definition is_file (n : fsnode) : bool :=
  match resolve n with
  | Some (RegularFile _) => true
  | _ => false
  end.

(** The bytes [path.open("rb")] reads. *)
Definition file_bytes (n : fsnode) : bytes :=
  match resolve n with
  | Some (RegularFile data) => data
  | _ => []
  end.

(** [root.rglob("*")]: every entry below [root], each with the components
    of its path relative to [root]; a directory lists its children, then
    its sub-directories are walked in turn. *)
Fixpoint rglob (rel : list str) (n : fsnode) : list (list str * fsnode) :=
  match n with
  | Directory children =>
      List.map (fun c => (rel ++ [fst c], snd c)) children
      ++ flat_map (fun c => let '(name, sub) := c in rglob (rel ++ [name]) sub) children
  | _ => []
  end.

(** [file_path.relative_to(payload_dir).as_posix()]. *)
Definition as_posix (rel : list str) : str := join (lit "/") rel.

(** ** ZIP archive ([zipfile]) *)

(** One [ZipInfo] of [archive.infolist()], with the bytes
    [archive.open(info)] yields. *)
Record ZipInfo : Type := mkZipInfo {
  filename : str;
  is_dir : bool;
  content : bytes
}.

(** The non-directory entries of an archive, and the path
    [normalize_relative_path] returns for an entry name when it returns. *)
Definition members_of (archive : list ZipInfo) : list ZipInfo :=
  filter (fun info => negb (is_dir info)) archive.

Definition normalized_name (info : ZipInfo) : str :=
  join (lit "/") (segments (filename info)).

Definition has_traversal (info : ZipInfo) : Prop :=
  In (lit "..") (segments (filename info)).

(** The entries of a parsed object when all its values are strings. *)
Fixpoint string_entries (items : dict json) : option (list (str * str)) :=
  match items with
  | [] => Some []
  | (key, JString value) :: rest =>
      match string_entries rest with
      | Some entries => Some ((key, value) :: entries)
      | None => None
      end
  | _ :: _ => None
  end.

(** ** Content hasher *)

Definition CHUNK : nat := N.to_nat 8192.

Definition hex_byte (b : byte) : str :=
  let n := Byte.to_N b in [hex_digit (n / 16); hex_digit (n mod 16)].

(** [bytes.hex()]. *)
Definition hex (bs : bytes) : str := flat_map hex_byte bs.

(** [str.isspace] on one code point; [s.strip()] is empty exactly when every
    character of [s] is one of these. *)
Definition is_space (c : codepoint) : bool :=
  ((9 <=? c) && (c <=? 13)) || ((28 <=? c) && (c <=? 32))
  || (c =? 133) || (c =? 160) || (c =? 5760)
  || ((8192 <=? c) && (c <=? 8202))
  || (c =? 8232) || (c =? 8233) || (c =? 8239) || (c =? 8287) || (c =? 12288).

(** [not s.strip()]. *)
Definition strip_is_empty (s : str) : bool := forallb is_space s.

Fixpoint is_prefix (p s : str) : bool :=
  match p, s with
  | [], _ => true
  | x :: p', y :: s' => (x =? y) && is_prefix p' s'
  | _ :: _, [] => false
  end.

(** [needle in hay] on two [str]. *)
Fixpoint contains (needle hay : str) : bool :=
  is_prefix needle hay
  || match hay with
     | [] => false
     | _ :: hay' => contains needle hay'
     end.

Definition is_str (s : str) (v : json) : bool :=
  match v with
  | JString t => str_eqb t s
  | _ => false
  end.

Definition nonempty {A} (l : list A) : bool :=
  match l with [] => false | _ :: _ => true end.

(** Keeps the equation of a scrutinee for a termination proof. *)
Definition inspect {A} (a : A) : {b : A | a = b} := exist _ a eq_refl.

(** What [validate_payload] prints. *)
Inductive output : Type :=
| Warning (extra_files : list str)   (* validate_payload.py:184 *)
| Valid (version : str).             (* :186 *)

(** *** Library functions the scripts call

    - [sha256]: [hashlib.sha256(data).digest()];
    - [b64decode]: [base64.b64decode(s, validate=True)], [None] when it raises;
    - [b64encode]: [base64.b64encode(b).decode()];
    - [str_lower]: [str.lower];
    - [pubkey], [privkey]: RSA keys as [load_pem_public_key] and
      [load_pem_private_key] return them;
    - [rsa_verify]: [public_key.verify(signature, payload, PKCS1v15, SHA256)],
      [false] when it raises [InvalidSignature];
    - [rsa_sign]: [private_key.sign(payload, PKCS1v15, SHA256)]. *)
Class Library : Type := {
  sha256 : bytes -> bytes;
  b64decode : str -> option bytes;
  b64encode : bytes -> str;
  str_lower : str -> str;
  pubkey : Type;
  privkey : Type;
  rsa_verify : pubkey -> bytes -> bytes -> bool;
  rsa_sign : privkey -> bytes -> bytes
}.

Section Scripts.

Context {L : Library}.

(** *** [hashlib.sha256()] objects

    The state of a hash object is the data fed to it so far: [update]
    appends, and [hexdigest] is the digest of the concatenation, in
    lowercase hexadecimal. *)
Definition sha256_state := bytes.
Definition sha256_new : sha256_state := [].
Definition update (h : sha256_state) (chunk : bytes) : sha256_state := h ++ chunk.
Definition hexdigest (h : sha256_state) : str := hex (sha256 h).

(** [f.read(n)] on a binary stream with [f] left to read: the bytes read
    and what is left. *)
Definition read (n : nat) (f : bytes) : bytes * bytes :=
  (firstn n f, skipn n f).

(** [build_manifest.py], [sha256_file]: one [update] with [f.read()]. *)
Definition sha256_file_whole (f : bytes) : str :=
  let h := sha256_new in
  let h := update h f in
  hexdigest h.

(** [create_manifest.py], [sha256_file]:
    [while chunk := f.read(size): hasher.update(chunk)], with [size] the
    8192 of the script. *)
Equations? sha256_file_loop (size : nat) (f : bytes) (hasher : sha256_state)
  : sha256_state by wf (List.length f) lt :=
  sha256_file_loop size f hasher with inspect (fst (read size f)) := {
    | exist _ [] _ => hasher
    | exist _ (b :: chunk) _ =>
        sha256_file_loop size (snd (read size f)) (update hasher (b :: chunk))
    }.
Proof.
  cbn [read fst snd] in *. rewrite length_skipn.
  destruct size, f; cbn in *; try discriminate; lia.
Qed.

Definition sha256_file (f : bytes) : str :=
  hexdigest (sha256_file_loop CHUNK f sha256_new).

(** [validate_payload.py:141-145]:
    [for chunk in iter(lambda: file_handle.read(size), empty):
       digest.update(chunk)], with [size] the 8192 of the script. *)
Equations? zip_read_loop (size : nat) (file_handle : bytes) (digest : sha256_state)
  : sha256_state by wf (List.length file_handle) lt :=
  zip_read_loop size file_handle digest with inspect (fst (read size file_handle)) := {
    | exist _ [] _ => digest
    | exist _ (b :: chunk) _ =>
        zip_read_loop size (snd (read size file_handle)) (update digest (b :: chunk))
    }.
Proof.
  cbn [read fst snd] in *. rewrite length_skipn.
  destruct size, file_handle; cbn in *; try discriminate; lia.
Qed.

Definition zip_member_digest (data : bytes) : str :=
  hexdigest (zip_read_loop CHUNK data sha256_new).

(** *** Manifest builder ([create_manifest.py]) *)

(** [collect_hashes]: the body of the [for file_path in
    payload_dir.rglob("*")] loop, then the loop itself. *)
Definition collect_step (files : dict str) (entry : list str * fsnode) : dict str :=
  let '(rel_parts, file_path) := entry in
  if is_file file_path then
    let rel := as_posix rel_parts in
    dict_set files rel (sha256_file (file_bytes file_path))
  else files.

Definition collect_hashes (payload_dir : fsnode) : dict str :=
  fold_left collect_step (rglob [] payload_dir) [].

(** [create_manifest.py:96-106]: serialize the unsigned manifest, sign the
    bytes, add the [signature] member.  Returns the signed manifest handed
    to [write_manifest] together with the bytes that were signed. *)
Definition sign_files (version : str) (files : dict str)
    (private_key : option privkey) : result (json * bytes) :=
  let unsigned := unsigned_members version files in
  manifest_bytes <- canonical_json (JObject unsigned) ;;
  match private_key with
  | None => Err KeyLoadError
  | Some key =>
      let signature := rsa_sign key manifest_bytes in
      let manifest := dict_set unsigned (lit "signature") (JString (b64encode signature)) in
      Ok (JObject manifest, manifest_bytes)
  end.

(** [main] of [create_manifest.py] after argument parsing. *)
Definition create_manifest (payload_dir : fsnode) (version : str)
    (private_key : option privkey) : result (json * bytes) :=
  let files := collect_hashes payload_dir in
  sign_files version files private_key.

(** *** Manifest validator ([validate_payload.py]) *)

(** The [for key, value in data["files"].items()] loop of [load_manifest];
    a key of a parsed JSON object is always a [str]. *)
Fixpoint load_files (items : dict json) (files : dict str) : result (dict str) :=
  match items with
  | [] => Ok files
  | (key, JString value) :: rest => load_files rest (dict_set files key value)
  | _ :: _ => Err StructuralFileTypes
  end.

(** [load_manifest] on a document that parsed to a dict. *)
Definition load_manifest_dict (data : dict json) : result (str * dict str * bytes) :=
  match dict_get data (lit "version") with
  | Some (JString version) =>
      if strip_is_empty version then Err StructuralVersion
      else
        match dict_get data (lit "files") with
        | Some (JObject items) =>
            match dict_get data (lit "signature") with
            | Some (JString text) =>
                match b64decode text with
                | None => Err EncodingError
                | Some signature =>
                    files <- load_files items [] ;;
                    Ok (version, files, signature)
                end
            | _ => Err StructuralSignature
            end
        | _ => Err StructuralFiles
        end
  | _ => Err StructuralVersion
  end.

(** [load_manifest] on [data = json.loads(...)].  On a list or a string
    the test ["version" not in data] still runs (membership, substring) and
    a positive answer makes the next subscript a [TypeError]; on the other
    values the test itself is a [TypeError]. *)
Definition load_manifest (data : json) : result (str * dict str * bytes) :=
  match data with
  | JObject members => load_manifest_dict members
  | JArray items =>
      if existsb (is_str (lit "version")) items then Err TypeError
      else Err StructuralVersion
  | JString s =>
      if contains (lit "version") s then Err TypeError
      else Err StructuralVersion
  | _ => Err TypeError
  end.

(** The bytes [verify_signature] hands to [public_key.verify]. *)
Definition signing_payload (version : str) (files : dict str) : result bytes :=
  canonical_json (unsigned_manifest version files).

(** [verify_signature]; [Ok false] stands for [InvalidSignature]. *)
Definition verify_signature (version : str) (files : dict str)
    (signature : bytes) (public_key_path : option pubkey) : result bool :=
  payload <- signing_payload version files ;;
  match public_key_path with
  | None => Err KeyLoadError
  | Some public_key => Ok (rsa_verify public_key signature payload)
  end.

(** The [for info in archive.infolist()] loop of [hash_zip_members]. *)
Fixpoint hash_zip_loop (infos : list ZipInfo) (hashes : dict str) : result (dict str) :=
  match infos with
  | [] => Ok hashes
  | info :: rest =>
      if is_dir info then hash_zip_loop rest hashes
      else
        normalized <- normalize_relative_path (filename info) ;;
        if dict_mem hashes normalized then Err (DuplicateEntryError normalized)
        else
          hash_zip_loop rest
            (dict_set hashes normalized (zip_member_digest (content info)))
  end.

Definition hash_zip_members (archive : list ZipInfo) : result (dict str) :=
  hash_zip_loop archive [].

(** [validate_payload.py:159-162]. *)
Fixpoint normalize_manifest_loop (items : dict str) (normalized_manifest_files : dict str)
  : result (dict str) :=
  match items with
  | [] => Ok normalized_manifest_files
  | (rel_path, expected_hash) :: rest =>
      normalized <- normalize_relative_path rel_path ;;
      normalize_manifest_loop rest
        (dict_set normalized_manifest_files normalized (str_lower expected_hash))
  end.

(** [validate_payload.py:164-172]: the lists [missing] and
    [hash_mismatches]. *)
Fixpoint compare_loop (items : dict str) (archive_hashes : dict str)
    (missing hash_mismatches : list str) : list str * list str :=
  match items with
  | [] => (missing, hash_mismatches)
  | (rel_path, expected_hash) :: rest =>
      match dict_get archive_hashes rel_path with
      | None =>
          compare_loop rest archive_hashes (missing ++ [rel_path]) hash_mismatches
      | Some actual =>
          if negb (str_eqb (str_lower actual) expected_hash) then
            compare_loop rest archive_hashes missing (hash_mismatches ++ [rel_path])
          else
            compare_loop rest archive_hashes missing hash_mismatches
      end
  end.

(** The two lists the loop leaves behind. *)
Definition missing_of (normalized_manifest_files archive_hashes : dict str) : list str :=
  fst (compare_loop normalized_manifest_files archive_hashes [] []).

Definition mismatched_of (normalized_manifest_files archive_hashes : dict str) : list str :=
  snd (compare_loop normalized_manifest_files archive_hashes [] []).

(** [sorted(set(archive_hashes) - set(normalized_manifest_files))]. *)
Definition extra_of (archive_hashes normalized_manifest_files : dict str) : list str :=
  sorted (filter (fun k => negb (dict_mem normalized_manifest_files k)) (keys archive_hashes)).

(** [validate_payload.py:164-186], from the two maps on. *)
Definition reconcile (version : str) (archive_hashes normalized_manifest_files : dict str)
    (fail_on_extra : bool) : result (list output) :=
  let '(missing, hash_mismatches) :=
    compare_loop normalized_manifest_files archive_hashes [] [] in
  let extra_files := extra_of archive_hashes normalized_manifest_files in
  if nonempty missing then Err (IntegrityMissing missing)
  else if nonempty hash_mismatches then Err (IntegrityMismatch hash_mismatches)
  else if fail_on_extra && nonempty extra_files then Err (PolicyViolation extra_files)
  else
    Ok ((if nonempty extra_files then [Warning extra_files] else [])
          ++ [Valid version]).

(** [validate_payload]: the ZIP as its [infolist], the manifest as the
    parsed document, the key as what [load_public_key] returns. *)
Definition validate_payload (zip_path : list ZipInfo) (manifest : json)
    (public_key_path : option pubkey) (fail_on_extra : bool) : result (list output) :=
  loaded <- load_manifest manifest ;;
  let '(version, files, signature) := loaded in
  verified <- verify_signature version files signature public_key_path ;;
  if negb verified then Err SignatureError
  else
    archive_hashes <- hash_zip_members zip_path ;;
    normalized_manifest_files <- normalize_manifest_loop files [] ;;
    reconcile version archive_hashes normalized_manifest_files fail_on_extra.

End Scripts.

(** ** A library instance for closed examples

    Real base64 and ASCII lower-casing; the digest and the signature scheme
    are small stand-ins (a position-weighted checksum, and a keyed checksum
    checked by recomputation).  Every theorem below holds for every
    [Library]; this instance only serves to evaluate the scripts on
    concrete inputs. *)

Definition ascii_lower (s : str) : str :=
  List.map (fun c => if (65 <=? c) && (c <=? 90) then c + 32 else c) s.

Definition b64_value (c : codepoint) : option N :=
  if (65 <=? c) && (c <=? 90) then Some (c - 65)
  else if (97 <=? c) && (c <=? 122) then Some (c - 71)
  else if (48 <=? c) && (c <=? 57) then Some (c + 4)
  else if c =? 43 then Some 62
  else if c =? 47 then Some 63
  else None.

Definition b64_digit (n : N) : codepoint :=
  if n <? 26 then n + 65
  else if n <? 52 then n + 71
  else if n <? 62 then n - 4
  else if n =? 62 then 43
  else 47.

(** Strict decoding: groups of four alphabet characters, padding only in
    the last group. *)
Fixpoint b64decode_strict (s : str) : option bytes :=
  match s with
  | [] => Some []
  | a :: b :: c :: d :: rest =>
      match b64_value a, b64_value b with
      | Some x, Some y =>
          let b1 := byte_of_N (x * 4 + y / 16) in
          match b64_value c, b64_value d, rest with
          | Some z, Some w, _ =>
              match b64decode_strict rest with
              | Some tail =>
                  Some (b1 :: byte_of_N ((y mod 16) * 16 + z / 4)
                           :: byte_of_N ((z mod 4) * 64 + w) :: tail)
              | None => None
              end
          | Some z, None, [] =>
              if d =? 61 then Some [b1; byte_of_N ((y mod 16) * 16 + z / 4)] else None
          | None, None, [] =>
              if (c =? 61) && (d =? 61) then Some [b1] else None
          | _, _, _ => None
          end
      | _, _ => None
      end
  | _ => None
  end.

Fixpoint b64encode_bytes (bs : bytes) : str :=
  match bs with
  | [] => []
  | [x] =>
      let x := Byte.to_N x in
      [b64_digit (x / 4); b64_digit ((x mod 4) * 16); 61; 61]
  | [x; y] =>
      let x := Byte.to_N x in
      let y := Byte.to_N y in
      [b64_digit (x / 4); b64_digit ((x mod 4) * 16 + y / 16);
       b64_digit ((y mod 16) * 4); 61]
  | x :: y :: z :: rest =>
      let x := Byte.to_N x in
      let y := Byte.to_N y in
      let z := Byte.to_N z in
      b64_digit (x / 4) :: b64_digit ((x mod 4) * 16 + y / 16)
        :: b64_digit ((y mod 16) * 4 + z / 64) :: b64_digit (z mod 64)
        :: b64encode_bytes rest
  end.

Definition toy_digest (data : bytes) : bytes :=
  let sum := fold_left (fun acc b => (acc * 31 + Byte.to_N b + 1) mod 65536) data 7 in
  [byte_of_N (sum / 256); byte_of_N (sum mod 256)].

Definition bytes_eqb (a b : bytes) : bool :=
  str_eqb (List.map Byte.to_N a) (List.map Byte.to_N b).

Definition toy_sign (key payload : bytes) : bytes := toy_digest (key ++ payload).

Definition toy_verify (key signature payload : bytes) : bool :=
  bytes_eqb signature (toy_sign key payload).

#[local] Instance example_library : Library := {|
  sha256 := toy_digest;
  b64decode := b64decode_strict;
  b64encode := b64encode_bytes;
  str_lower := ascii_lower;
  pubkey := bytes;
  privkey := bytes;
  rsa_verify := toy_verify;
  rsa_sign := toy_sign
|}.

(** ** A payload, its archive and its manifests, for closed examples *)

Definition example_key : bytes := [x6b; x65; x79].

Definition example_payload : fsnode :=
  Directory [(lit "app.exe", RegularFile [x4d; x5a; x90]);
             (lit "data", Directory [(lit "cfg.ini", RegularFile [x5b; x5d])]);
             (lit "empty", Directory [])].

Definition example_zip : list ZipInfo :=
  [mkZipInfo (lit "app.exe") false [x4d; x5a; x90];
   mkZipInfo (lit "data/") true [];
   mkZipInfo (lit "data\cfg.ini") false [x5b; x5d]].

(** The manifest document the builder writes for [example_payload]. *)
Definition example_manifest : json :=
  match create_manifest (L := example_library) example_payload (lit "1.0.0")
          (Some example_key) with
  | Ok (manifest, _) => manifest
  | Err _ => JNull
  end.

(** The bytes the builder signs for [example_payload]. *)
Definition example_signed_bytes : bytes :=
  match create_manifest (L := example_library) example_payload (lit "1.0.0")
          (Some example_key) with
  | Ok (_, manifest_bytes) => manifest_bytes
  | Err _ => []
  end.

(** A signed manifest that lists one file under two spellings, the first
    with a digest that is not the file's. *)
Definition twice_listed_manifest : json :=
  match sign_files (L := example_library) (lit "1.0.0")
          [(lit "data/cfg.ini", lit "0000");
           (lit "data\cfg.ini", hex (toy_digest [x5b; x5d]))]
          (Some example_key) with
  | Ok (manifest, _) => manifest
  | Err _ => JNull
  end.

Definition twice_listed_zip : list ZipInfo :=
  [mkZipInfo (lit "data/cfg.ini") false [x5b; x5d]].

(** ** Payload trees as a file system presents them *)

(** A name of a directory entry: not empty, not [.] or [..], without a
    slash; the absence of a backslash is a fact on Windows and a condition
    on a payload elsewhere. *)
Definition clean_name (name : str) : Prop :=
  name <> [] /\ name <> lit "." /\ name <> lit ".."
  /\ ~ In SLASH name /\ ~ In BACKSLASH name.

(** Every directory of the tree has clean, pairwise distinct names. *)
Fixpoint well_named (n : fsnode) : Prop :=
  match n with
  | Directory children =>
      NoDup (List.map fst children)
      /\ (fix all (l : list (str * fsnode)) : Prop :=
            match l with
            | [] => True
            | c :: l' => clean_name (fst c) /\ well_named (snd c) /\ all l'
            end) children
  | _ => True
  end.

(** The files [collect_hashes] reads, each with its relative path and its
    bytes. *)
Definition payload_files (payload_dir : fsnode) : list (str * bytes) :=
  List.map (fun e => (as_posix (fst e), file_bytes (snd e)))
    (filter (fun e => is_file (snd e)) (rglob [] payload_dir)).

(** ** The second builder ([build_manifest.py]) *)

(** [entry.is_dir()] as [os.walk] asks it: a directory, or a symlink to
    one. *)
Definition is_dir_node (n : fsnode) : bool :=
  match resolve n with
  | Some (Directory _) => true
  | _ => false
  end.

(** [os.walk(top)], top-down and without following links: one triple per
    directory, here its path as components and its entries that are not
    directories (the [filenames]); a symlink to a directory is among
    [dirs] but is not walked. *)
Fixpoint os_walk (root : list str) (n : fsnode)
  : list (list str * list (str * fsnode)) :=
  match n with
  | Directory children =>
      (root, filter (fun c => negb (is_dir_node (snd c))) children)
      :: flat_map (fun c => let '(name, sub) := c in os_walk (root ++ [name]) sub) children
  | _ => []
  end.

(** [os.path.relpath(full, temp_dir).replace(backslash, slash)], with
    [sep] the separator of the platform. *)
Definition relpath_key (sep : codepoint) (parts : list str) : str :=
  replace BACKSLASH SLASH (join [sep] parts).

(** The bytes [open(path, "rb")] gives for a regular file, through links;
    [None] otherwise (for a dangling link, opening raises). *)
Definition open_rb (n : fsnode) : option bytes :=
  match resolve n with
  | Some (RegularFile data) => Some data
  | _ => None
  end.

(** The locales [enforce_german_locale] tries, in its order. *)
Definition german_candidates : list str :=
  [lit "de_DE.UTF-8"; lit "de_DE"; lit "deu_deu"; lit "de-DE"; lit "German_Germany.1252"].

(** The [for candidate in german_candidates] loop of
    [enforce_german_locale].  [setlocale c] tells whether
    [locale.setlocale(locale.LC_ALL, c)] succeeds; the state is the active
    locale, which a successful call replaces. *)
Fixpoint try_locales (setlocale : str -> bool) (candidates : list str)
    (active : str) : option str * str :=
  match candidates with
  | [] => (None, active)
  | candidate :: rest =>
      if setlocale candidate then (Some candidate, candidate)
      else try_locales setlocale rest active
  end.

Definition enforce_german_locale (setlocale : str -> bool) (active : str)
  : option str * str :=
  try_locales setlocale german_candidates active.

Section SecondBuilder.

Context {L : Library}.

(** [build_manifest.py:70-74], the two nested loops: [None] when a file
    cannot be opened. *)
Fixpoint build_names (sep : codepoint) (root : list str)
    (filenames : list (str * fsnode)) (files : dict str) : option (dict str) :=
  match filenames with
  | [] => Some files
  | (name, node) :: rest =>
      match open_rb node with
      | None => None
      | Some data =>
          build_names sep root rest
            (dict_set files (relpath_key sep (root ++ [name])) (sha256_file_whole data))
      end
  end.

Fixpoint build_walk (sep : codepoint)
    (triples : list (list str * list (str * fsnode))) (files : dict str)
  : option (dict str) :=
  match triples with
  | [] => Some files
  | (root, filenames) :: rest =>
      match build_names sep root filenames files with
      | None => None
      | Some files' => build_walk sep rest files'
      end
  end.

Definition build_hashes (sep : codepoint) (temp_dir : fsnode) : option (dict str) :=
  build_walk sep (os_walk [] temp_dir) [].

(** [build_manifest.py:76-99] on the extracted tree: the manifest written,
    with the bytes that were signed; [None] when hashing raised. *)
Definition build_manifest (sep : codepoint) (temp_dir : fsnode) (version : str)
    (private_key : option privkey) : option (result (json * bytes)) :=
  match build_hashes sep temp_dir with
  | None => None
  | Some files =>
      Some (let manifest_unsigned := unsigned_members version files in
            manifest_bytes <- canonical_json (JObject manifest_unsigned) ;;
            match private_key with
            | None => Err KeyLoadError
            | Some key =>
                let signature := rsa_sign key manifest_bytes in
                let manifest :=
                  dict_set manifest_unsigned (lit "signature")
                    (JString (b64encode signature)) in
                Ok (JObject manifest, manifest_bytes)
            end)
  end.

End SecondBuilder.

(** * Properties *)

(** ** Strings *)

Lemma str_eqb_eq (a b : str) : str_eqb a b = true <-> a = b.
Proof.
  revert b; induction a as [|x a IH]; intros [|y b]; cbn; split;
    try congruence; try discriminate.
  - intros H. apply andb_true_iff in H as [Hx Hab].
    apply N.eqb_eq in Hx. apply IH in Hab. congruence.
  - intros H. inversion H; subst. rewrite N.eqb_refl. cbn. now apply IH.
Qed.

Lemma str_eqb_refl (a : str) : str_eqb a a = true.
Proof. now apply str_eqb_eq. Qed.

Lemma str_eqb_neq (a b : str) : str_eqb a b = false <-> a <> b.
Proof.
  split.
  - intros H Heq. apply str_eqb_eq in Heq. congruence.
  - intros H. destruct (str_eqb a b) eqn:E; [|reflexivity].
    apply str_eqb_eq in E. contradiction.
Qed.

Lemma str_eqb_sym (a b : str) : str_eqb a b = str_eqb b a.
Proof.
  destruct (str_eqb b a) eqn:E.
  - apply str_eqb_eq in E. subst. apply str_eqb_refl.
  - apply str_eqb_neq. apply str_eqb_neq in E. congruence.
Qed.

Lemma split_nonempty (sep : codepoint) (s : str) : split sep s <> [].
Proof.
  destruct s as [|c s]; cbn; [discriminate|].
  destruct (c =? sep); [discriminate|].
  destruct (split sep s); discriminate.
Qed.

(** Every character of a segment comes from the string, and is not the
    separator. *)
Lemma split_chars (sep : codepoint) (s seg : str) (c : codepoint) :
  In seg (split sep s) -> In c seg -> In c s /\ c <> sep.
Proof.
  revert seg; induction s as [|x s IH]; intros seg Hseg Hc; cbn in Hseg.
  - destruct Hseg as [<-|[]]. destruct Hc.
  - destruct (x =? sep) eqn:E.
    + destruct Hseg as [<-|Hseg]; [destruct Hc|].
      destruct (IH _ Hseg Hc). split; [now right|assumption].
    + apply N.eqb_neq in E.
      destruct (split sep s) as [|seg0 rest] eqn:Hs.
      * destruct Hseg as [<-|[]]. destruct Hc as [<-|[]]. split; [now left|assumption].
      * destruct Hseg as [<-|Hseg].
        -- destruct Hc as [<-|Hc]; [split; [now left|assumption]|].
           destruct (IH seg0 (or_introl eq_refl) Hc). split; [now right|assumption].
        -- destruct (IH seg (or_intror Hseg) Hc). split; [now right|assumption].
Qed.

Lemma split_app_sep (sep : codepoint) (p rest : str) :
  ~ In sep p -> split sep (p ++ sep :: rest) = p :: split sep rest.
Proof.
  induction p as [|x p IH]; intros Hp; cbn.
  - now rewrite N.eqb_refl.
  - destruct (x =? sep) eqn:E.
    + apply N.eqb_eq in E. exfalso. apply Hp. now left.
    + rewrite IH; [reflexivity|]. intros H. apply Hp. now right.
Qed.

Lemma split_no_sep (sep : codepoint) (p : str) :
  ~ In sep p -> split sep p = [p].
Proof.
  induction p as [|x p IH]; intros Hp; cbn; [reflexivity|].
  destruct (x =? sep) eqn:E.
  - apply N.eqb_eq in E. exfalso. apply Hp. now left.
  - rewrite IH; [reflexivity|]. intros H. apply Hp. now right.
Qed.

(** [split] undoes [join] on a non-empty list of separator-free parts. *)
Lemma split_join (sep : codepoint) (parts : list str) :
  parts <> [] -> Forall (fun p => ~ In sep p) parts ->
  split sep (join [sep] parts) = parts.
Proof.
  induction parts as [|p parts IH]; intros Hne Hall; [contradiction|].
  inversion Hall as [|? ? Hp Hrest]; subst.
  destruct parts as [|q parts].
  - cbn. now apply split_no_sep.
  - change (join [sep] (p :: q :: parts)) with (p ++ sep :: join [sep] (q :: parts)).
    rewrite split_app_sep by assumption.
    rewrite IH; [reflexivity|discriminate|assumption].
Qed.

Lemma replace_id (old new : codepoint) (s : str) :
  ~ In old s -> replace old new s = s.
Proof.
  induction s as [|c s IH]; intros H; cbn; [reflexivity|].
  destruct (c =? old) eqn:E.
  - apply N.eqb_eq in E. exfalso. apply H. now left.
  - f_equal. apply IH. intros Hin. apply H. now right.
Qed.

Lemma replace_removes (old new : codepoint) (s : str) :
  old <> new -> ~ In old (replace old new s).
Proof.
  intros Hne. induction s as [|c s IH]; cbn; [tauto|].
  intros [H|H]; [|now apply IH].
  destruct (c =? old) eqn:E; [congruence|].
  apply N.eqb_neq in E. congruence.
Qed.

Lemma nth_replace (old new : codepoint) (s : str) (i : nat) (d : codepoint) :
  (i < List.length s)%nat ->
  nth i (replace old new s) d = if nth i s d =? old then new else nth i s d.
Proof.
  revert i; induction s as [|c s IH]; intros i Hi; cbn in Hi; [lia|].
  destruct i as [|i]; cbn; [reflexivity|]. apply IH. lia.
Qed.

Lemma in_join (sep : str) (parts : list str) (c : codepoint) :
  In c (join sep parts) -> In c sep \/ exists p, In p parts /\ In c p.
Proof.
  induction parts as [|p parts IH]; cbn; [tauto|].
  destruct parts as [|q parts].
  - intros H. right. exists p. split; [now left|assumption].
  - intros H. apply in_app_or in H as [H|H].
    + right. exists p. split; [now left|assumption].
    + apply in_app_or in H as [H|H]; [now left|].
      destruct (IH H) as [Hs|[p' [Hp' Hc]]]; [now left|].
      right. exists p'. split; [now right|assumption].
Qed.

(** ** Path normalizer *)

Lemma normalize_loop_spec (segs parts : list str) :
  normalize_loop segs parts =
  if existsb (fun s => str_eqb s (lit "..")) (filter kept segs)
  then Err PathSecurityError
  else Ok (parts ++ filter kept segs).
Proof.
  revert parts; induction segs as [|s segs IH]; intros parts; cbn [normalize_loop filter].
  - cbn. now rewrite app_nil_r.
  - assert (Hk : kept s = negb (str_eqb s [] || str_eqb s (lit "."))) by reflexivity.
    destruct (str_eqb s [] || str_eqb s (lit ".")) eqn:E; rewrite Hk; cbn [negb].
    + apply IH.
    + cbn [existsb]. destruct (str_eqb s (lit "..")) eqn:E2; cbn [orb]; [reflexivity|].
      rewrite IH. rewrite <- app_assoc. reflexivity.
Qed.

Lemma normalize_relative_path_unfold (path : str) :
  normalize_relative_path path =
  if existsb (fun s => str_eqb s (lit "..")) (segments path)
  then Err PathSecurityError
  else Ok (join (lit "/") (segments path)).
Proof.
  unfold normalize_relative_path, segments. rewrite normalize_loop_spec.
  destruct (existsb _ _); reflexivity.
Qed.

Lemma existsb_dotdot (l : list str) :
  existsb (fun s => str_eqb s (lit "..")) l = true <-> In (lit "..") l.
Proof.
  rewrite existsb_exists. split.
  - intros [s [Hin Hs]]. apply str_eqb_eq in Hs. now subst.
  - intros H. exists (lit ".."). split; [assumption|apply str_eqb_refl].
Qed.

(** C4. [normalize_relative_path] replaces every backslash by a slash,
    splits on the slash, drops the empty and the [.] segments, raises the
    path-security error exactly when one of the segments left is [..], and
    otherwise returns the segments left joined by slashes; [a/./b], [a\b]
    and [a//b] give [a/b], and [../../evil.bin] is refused. *)
Theorem normalize_relative_path_correct (path : str) :
  let posix := replace BACKSLASH SLASH path in
  let remaining :=
    filter (fun part => negb (str_eqb part [] || str_eqb part (lit ".")))
           (split SLASH posix) in
  ~ In BACKSLASH posix
  /\ List.length posix = List.length path
  /\ (forall i, nth i path 0 <> BACKSLASH -> nth i posix 0 = nth i path 0)
  /\ (forall i, (i < List.length path)%nat -> nth i path 0 = BACKSLASH -> nth i posix 0 = SLASH)
  /\ ((exists e, normalize_relative_path path = Err e) <-> In (lit "..") remaining)
  /\ (In (lit "..") remaining -> normalize_relative_path path = Err PathSecurityError)
  /\ (~ In (lit "..") remaining ->
      normalize_relative_path path = Ok (join (lit "/") remaining))
  /\ normalize_relative_path (lit "a/./b") = Ok (lit "a/b")
  /\ normalize_relative_path (lit "a\b") = Ok (lit "a/b")
  /\ normalize_relative_path (lit "a//b") = Ok (lit "a/b")
  /\ normalize_relative_path (lit "../../evil.bin") = Err PathSecurityError.
Proof.
  cbv zeta. fold kept. fold (segments path).
  pose proof (normalize_relative_path_unfold path) as Hn.
  pose proof (existsb_dotdot (segments path)) as Hd.
  repeat split; try reflexivity.
  - apply replace_removes. discriminate.
  - unfold replace. apply length_map.
  - intros i Hi.
    destruct (Nat.lt_ge_cases i (List.length path)) as [Hlt|Hge].
    + rewrite nth_replace by assumption. apply N.eqb_neq in Hi. now rewrite Hi.
    + rewrite !nth_overflow; [reflexivity|assumption|unfold replace; now rewrite length_map].
  - intros i Hlt Hi. rewrite nth_replace by assumption. now rewrite Hi.
  - intros [e He]. rewrite Hn in He.
    destruct (existsb _ (segments path)); [now apply Hd|discriminate].
  - intros Hin. apply Hd in Hin. rewrite Hn, Hin. now exists PathSecurityError.
  - intros Hin. apply Hd in Hin. now rewrite Hn, Hin.
  - intros Hnot. rewrite Hn.
    destruct (existsb _ (segments path)); [exfalso; apply Hnot; now apply Hd|reflexivity].
Qed.

Lemma filter_all {A} (f : A -> bool) (l : list A) :
  Forall (fun x => f x = true) l -> filter f l = l.
Proof.
  induction 1 as [|x l Hx _ IH]; cbn; [reflexivity|]. now rewrite Hx, IH.
Qed.

(** What the loop keeps is neither empty nor [.], and has no separator
    left in it. *)
Lemma segments_clean (path seg : str) :
  In seg (segments path) ->
  seg <> [] /\ seg <> lit "." /\ ~ In SLASH seg /\ ~ In BACKSLASH seg.
Proof.
  unfold segments. intros H. apply filter_In in H as [Hin Hk].
  unfold kept in Hk. apply negb_true_iff, orb_false_iff in Hk as [H1 H2].
  apply str_eqb_neq in H1, H2.
  repeat split; try assumption.
  - intros Hc. now destruct (split_chars _ _ _ _ Hin Hc).
  - intros Hc. destruct (split_chars _ _ _ _ Hin Hc) as [Hc' _].
    revert Hc'. apply replace_removes. discriminate.
Qed.

Lemma segments_of_clean (parts : list str) :
  Forall (fun seg => seg <> [] /\ seg <> lit "." /\ ~ In SLASH seg /\ ~ In BACKSLASH seg) parts ->
  segments (join (lit "/") parts) = parts.
Proof.
  intros Hall. unfold segments.
  rewrite replace_id.
  - destruct parts as [|p parts]; [reflexivity|].
    change (lit "/") with [SLASH]. rewrite split_join.
    + apply filter_all. eapply Forall_impl; [|exact Hall].
      cbn beta. intros seg (H1 & H2 & _). unfold kept.
      apply str_eqb_neq in H1, H2. now rewrite H1, H2.
    + discriminate.
    + eapply Forall_impl; [|exact Hall]. cbn beta. tauto.
  - intros Hin. apply in_join in Hin as [Hin|[p [Hp Hc]]].
    + destruct Hin as [Hin|[]]. discriminate.
    + rewrite Forall_forall in Hall. now apply (Hall p Hp).
Qed.

(** C10. On a path with no [..] segment [normalize_relative_path] returns
    a result that it maps to itself, and that result has no backslash, no
    empty segment and no [.] segment: it is the slash-join of segments that
    are neither empty nor [.] nor contain a separator, which are the pieces
    [split] finds in it. *)
Theorem normalize_relative_path_idempotent (path : str) :
  ~ In (lit "..") (segments path) ->
  exists result,
    normalize_relative_path path = Ok result
    /\ normalize_relative_path result = Ok result
    /\ ~ In BACKSLASH result
    /\ exists parts,
         result = join (lit "/") parts
         /\ Forall (fun seg => seg <> [] /\ seg <> lit "." /\ ~ In SLASH seg) parts
         /\ (result <> [] -> split SLASH result = parts).
Proof.
  intros Hno.
  assert (Hclean : Forall (fun seg => seg <> [] /\ seg <> lit "."
                                      /\ ~ In SLASH seg /\ ~ In BACKSLASH seg)
                          (segments path)).
  { apply Forall_forall. intros seg. apply segments_clean. }
  exists (join (lit "/") (segments path)).
  assert (Hex : existsb (fun s => str_eqb s (lit "..")) (segments path) = false).
  { destruct (existsb _ _) eqn:E; [|reflexivity]. apply existsb_dotdot in E. contradiction. }
  repeat split.
  - rewrite normalize_relative_path_unfold. now rewrite Hex.
  - rewrite normalize_relative_path_unfold.
    rewrite segments_of_clean by assumption. now rewrite Hex.
  - intros Hin. apply in_join in Hin as [Hin|[p [Hp Hc]]].
    + destruct Hin as [Hin|[]]. discriminate.
    + rewrite Forall_forall in Hclean. now apply (Hclean p Hp).
  - exists (segments path). repeat split.
    + eapply Forall_impl; [|exact Hclean]. cbn beta. tauto.
    + intros Hne. change (lit "/") with [SLASH]. apply split_join.
      * intros Hnil. apply Hne. now rewrite Hnil.
      * eapply Forall_impl; [|exact Hclean]. cbn beta. tauto.
Qed.

Lemma normalize_relative_path_idempotent_witness :
  exists result,
    normalize_relative_path (lit "docs\.\\api//v1/") = Ok result
    /\ normalize_relative_path result = Ok result
    /\ ~ In BACKSLASH result
    /\ exists parts,
         result = join (lit "/") parts
         /\ Forall (fun seg => seg <> [] /\ seg <> lit "." /\ ~ In SLASH seg) parts
         /\ (result <> [] -> split SLASH result = parts).
Proof.
  apply (normalize_relative_path_idempotent (lit "docs\.\\api//v1/")).
  vm_compute. intuition discriminate.
Defined.

(** ** The order on [str] *)

Lemma str_ltb_irrefl (a : str) : str_ltb a a = false.
Proof.
  induction a as [|x a IH]; cbn; [reflexivity|].
  now rewrite N.ltb_irrefl.
Qed.

Lemma str_ltb_asym (a b : str) : str_ltb a b = true -> str_ltb b a = false.
Proof.
  revert b; induction a as [|x a IH]; intros [|y b]; cbn; try congruence.
  destruct (N.ltb_spec x y), (N.ltb_spec y x); try congruence; try lia.
  apply IH.
Qed.

Lemma str_ltb_trans (a b c : str) :
  str_ltb a b = true -> str_ltb b c = true -> str_ltb a c = true.
Proof.
  revert b c; induction a as [|x a IH]; intros [|y b] [|z c]; cbn; try congruence.
  destruct (N.ltb_spec x y), (N.ltb_spec y x), (N.ltb_spec y z), (N.ltb_spec z y),
    (N.ltb_spec x z), (N.ltb_spec z x); try congruence; try lia.
  apply IH.
Qed.

Lemma str_ltb_total (a b : str) :
  str_ltb a b = false -> str_ltb b a = false -> a = b.
Proof.
  revert b; induction a as [|x a IH]; intros [|y b]; cbn; try congruence.
  destruct (N.ltb_spec x y), (N.ltb_spec y x); try congruence; try lia.
  intros H1 H2. f_equal; [lia|now apply IH].
Qed.

Lemma str_leb_trans (a b c : str) :
  str_ltb b a = false -> str_ltb c b = false -> str_ltb c a = false.
Proof.
  intros Hab Hbc. destruct (str_ltb c a) eqn:Hca; [|reflexivity].
  destruct (str_ltb a b) eqn:E.
  - rewrite (str_ltb_trans c a b Hca E) in Hbc. discriminate.
  - rewrite (str_ltb_total a b E Hab) in Hca. congruence.
Qed.

(** ** [sorted] *)

Section Sorting.

Context {A : Type} (key : A -> str).

(** [x] may stand before [y]. *)
Let before (x y : A) : Prop := str_ltb (key y) (key x) = false.

Lemma insert_sorted_perm (x : A) (l : list A) :
  Permutation (insert_sorted key x l) (x :: l).
Proof.
  induction l as [|y l IH]; cbn; [reflexivity|].
  destruct (str_ltb (key y) (key x)); [|reflexivity].
  rewrite IH. apply perm_swap.
Qed.

Lemma sort_by_perm (l : list A) : Permutation (sort_by key l) l.
Proof.
  induction l as [|x l IH]; cbn; [reflexivity|].
  rewrite insert_sorted_perm. now constructor.
Qed.

Lemma insert_sorted_sorted (x : A) (l : list A) :
  StronglySorted before l -> StronglySorted before (insert_sorted key x l).
Proof.
  induction 1 as [|y l Hl IH Hy]; cbn.
  - repeat constructor.
  - destruct (str_ltb (key y) (key x)) eqn:E.
    + constructor; [assumption|].
      rewrite Forall_forall. intros z Hz.
      apply (Permutation_in _ (insert_sorted_perm x l)) in Hz as [<-|Hz].
      * unfold before. now apply str_ltb_asym.
      * rewrite Forall_forall in Hy. now apply Hy.
    + constructor; [now constructor|].
      constructor; [exact E|].
      eapply Forall_impl; [|exact Hy]. intros z Hz. unfold before in *.
      eapply str_leb_trans; eassumption.
Qed.

Lemma sort_by_sorted (l : list A) : StronglySorted before (sort_by key l).
Proof.
  induction l as [|x l IH]; cbn; [constructor|]. now apply insert_sorted_sorted.
Qed.

(** Two sorted arrangements of the same entries with distinct keys are
    the same list. *)
Lemma sorted_unique (l1 l2 : list A) :
  NoDup (List.map key l1) -> Permutation l1 l2 ->
  StronglySorted before l1 -> StronglySorted before l2 -> l1 = l2.
Proof.
  revert l2; induction l1 as [|a l1 IH]; intros l2 Hnd Hperm Hs1 Hs2.
  - apply Permutation_nil in Hperm. now subst.
  - destruct l2 as [|b l2].
    { apply Permutation_sym, Permutation_nil in Hperm. discriminate. }
    inversion Hs1 as [|? ? Hs1' Ha]; subst.
    inversion Hs2 as [|? ? Hs2' Hb]; subst.
    inversion Hnd as [|? ? Hnotin Hnd']; subst.
    assert (Hab : a = b).
    { assert (Hina : In a (b :: l2)) by (eapply Permutation_in; [exact Hperm|now left]).
      assert (Hinb : In b (a :: l1))
        by (eapply Permutation_in; [apply Permutation_sym; exact Hperm|now left]).
      destruct Hina as [->|Hina]; [reflexivity|].
      destruct Hinb as [->|Hinb]; [reflexivity|].
      rewrite Forall_forall in Ha, Hb.
      pose proof (Ha _ Hinb) as H1. pose proof (Hb _ Hina) as H2.
      unfold before in H1, H2.
      exfalso. apply Hnotin.
      rewrite (str_ltb_total _ _ H2 H1). now apply in_map. }
    subst b. f_equal. apply IH; try assumption.
    eapply Permutation_cons_inv. exact Hperm.
Qed.

Lemma sort_by_perm_eq (l1 l2 : list A) :
  NoDup (List.map key l1) -> Permutation l1 l2 ->
  sort_by key l1 = sort_by key l2.
Proof.
  intros Hnd Hperm. apply sorted_unique; try apply sort_by_sorted.
  - eapply Permutation_NoDup; [|exact Hnd].
    apply Permutation_map, Permutation_sym, sort_by_perm.
  - rewrite sort_by_perm, Hperm. symmetry. apply sort_by_perm.
Qed.

(** With distinct keys the sorted list is strictly increasing. *)
Lemma sort_by_strict (l : list A) :
  NoDup (List.map key l) ->
  StronglySorted (fun x y => str_ltb (key x) (key y) = true) (sort_by key l).
Proof.
  intros Hnd.
  assert (Hnd' : NoDup (List.map key (sort_by key l))).
  { eapply Permutation_NoDup; [|exact Hnd].
    apply Permutation_map, Permutation_sym, sort_by_perm. }
  pose proof (sort_by_sorted l) as Hs.
  induction Hs as [|x l' Hl IH Hx]; [constructor|].
  cbn in Hnd'. inversion Hnd' as [|? ? Hnotin Hnd'']; subst.
  constructor; [now apply IH|].
  rewrite Forall_forall in *. intros y Hy. pose proof (Hx y Hy) as Hle.
  destruct (str_ltb (key x) (key y)) eqn:E; [reflexivity|].
  exfalso. apply Hnotin. rewrite (str_ltb_total _ _ E Hle). now apply in_map.
Qed.

End Sorting.

Lemma sort_by_map {A B} (keyA : A -> str) (keyB : B -> str) (g : A -> B) (l : list A) :
  (forall x, keyB (g x) = keyA x) ->
  sort_by keyB (List.map g l) = List.map g (sort_by keyA l).
Proof.
  intros Hk. unfold sort_by. induction l as [|x l IH]; cbn [List.map fold_right]; [reflexivity|].
  rewrite IH. generalize (fold_right (insert_sorted keyA) [] l) as s.
  induction s as [|y s IHs]; cbn [List.map insert_sorted]; [reflexivity|].
  rewrite !Hk. destruct (str_ltb (keyA y) (keyA x)); cbn [List.map]; [now rewrite IHs|reflexivity].
Qed.

(** ** Dicts *)

Lemma dict_get_app_none {V} (d d' : dict V) (k : str) :
  dict_get d k = None -> dict_get (d ++ d') k = dict_get d' k.
Proof.
  induction d as [|[k' v'] d IH]; cbn; [reflexivity|].
  destruct (str_eqb k' k); [discriminate|exact IH].
Qed.

Lemma dict_get_none {V} (d : dict V) (k : str) :
  dict_get d k = None <-> ~ In k (keys d).
Proof.
  induction d as [|[k' v'] d IH]; cbn; [tauto|].
  destruct (str_eqb k' k) eqn:E.
  - apply str_eqb_eq in E. split; [discriminate|]. intros H. exfalso. apply H. now left.
  - apply str_eqb_neq in E. rewrite IH. tauto.
Qed.

Lemma dict_mem_in {V} (d : dict V) (k : str) :
  dict_mem d k = true <-> In k (keys d).
Proof.
  unfold dict_mem. pose proof (dict_get_none d k) as H.
  destruct (dict_get d k).
  - split; [|reflexivity]. intros _.
    destruct (in_dec (list_eq_dec N.eq_dec) k (keys d)) as [Hin|Hout]; [assumption|].
    apply H in Hout. discriminate.
  - split; [discriminate|]. intros Hin. now apply H in Hin.
Qed.

Lemma dict_set_new {V} (d : dict V) (k : str) (v : V) :
  ~ In k (keys d) -> dict_set d k v = d ++ [(k, v)].
Proof.
  induction d as [|[k' v'] d IH]; cbn; intros H; [reflexivity|].
  destruct (str_eqb k' k) eqn:E.
  - apply str_eqb_eq in E. exfalso. apply H. now left.
  - f_equal. apply IH. tauto.
Qed.

Lemma keys_dict_set {V} (d : dict V) (k : str) (v : V) :
  keys (dict_set d k v) = if dict_mem d k then keys d else keys d ++ [k].
Proof.
  unfold dict_mem. induction d as [|[k' v'] d IH]; cbn [dict_set dict_get]; [reflexivity|].
  destruct (str_eqb k' k) eqn:E; [reflexivity|].
  change (keys ((k', v') :: dict_set d k v)) with (k' :: keys (dict_set d k v)).
  rewrite IH. now destruct (dict_get d k).
Qed.

Lemma dict_get_set {V} (d : dict V) (k k' : str) (v : V) :
  dict_get (dict_set d k v) k' = if str_eqb k k' then Some v else dict_get d k'.
Proof.
  induction d as [|[k0 v0] d IH]; cbn.
  - reflexivity.
  - destruct (str_eqb k0 k) eqn:E; cbn.
    + apply str_eqb_eq in E. subst k0.
      now destruct (str_eqb k k').
    + destruct (str_eqb k0 k') eqn:E'; [|exact IH].
      apply str_eqb_eq in E'. subst k0. now rewrite <- str_eqb_sym, E.
Qed.

Lemma dict_set_nodup {V} (d : dict V) (k : str) (v : V) :
  NoDup (keys d) -> NoDup (keys (dict_set d k v)).
Proof.
  intros H. rewrite keys_dict_set. destruct (dict_mem d k) eqn:E; [assumption|].
  apply NoDup_app; [assumption|repeat constructor; tauto|].
  intros x Hx [<-|[]]. apply dict_mem_in in Hx. congruence.
Qed.

Lemma fold_dict_set_fresh {V} (entries : list (str * V)) (d : dict V) :
  NoDup (keys d ++ List.map fst entries) ->
  fold_left (fun d kv => dict_set d (fst kv) (snd kv)) entries d = d ++ entries.
Proof.
  revert d; induction entries as [|[k v] entries IH]; intros d Hnd; cbn.
  - now rewrite app_nil_r.
  - cbn in Hnd. rewrite dict_set_new.
    + rewrite IH; [now rewrite <- app_assoc|].
      unfold keys. rewrite map_app. cbn. now rewrite <- app_assoc.
    + apply NoDup_remove_2 in Hnd. intros Hin. apply Hnd. apply in_or_app. now left.
Qed.

(** Distinct keys: the dict lists the entries as they were inserted. *)
Lemma dict_of_nodup {V} (entries : list (str * V)) :
  NoDup (List.map fst entries) -> dict_of entries = entries.
Proof.
  intros H. unfold dict_of. now rewrite fold_dict_set_fresh.
Qed.

(** ** Canonical serializer *)

Lemma dumps_files_json (files : dict str) :
  dumps (files_json files) =
  lit "{" ++ join (lit ",") (List.map member_text (sort_by fst files)) ++ lit "}".
Proof.
  unfold files_json. cbn [dumps]. rewrite map_map. cbn [fst snd dumps].
  rewrite (sort_by_map fst fst (fun kv : str * str => (fst kv, encode_basestring (snd kv))))
    by reflexivity.
  rewrite map_map. reflexivity.
Qed.

(** The text of an unsigned manifest: the [files] member stands before the
    [version] member. *)
Lemma dumps_unsigned_manifest (version : str) (files : dict str) :
  dumps (unsigned_manifest version files) =
  lit "{" ++ encode_basestring (lit "files") ++ lit ":" ++ dumps (files_json files)
  ++ lit "," ++ encode_basestring (lit "version") ++ lit ":"
  ++ encode_basestring version ++ lit "}".
Proof.
  unfold unsigned_manifest, unsigned_members.
  cbn [dumps List.map].
  change (sort_by fst [(lit "version", encode_basestring version);
                       (lit "files", dumps (files_json files))])
    with [(lit "files", dumps (files_json files));
          (lit "version", encode_basestring version)].
  cbn [List.map join fst snd].
  rewrite <- !app_assoc. reflexivity.
Qed.

Lemma escape_char_literal (c : codepoint) :
  32 <= c -> c <> 34 -> c <> 92 -> escape_char c = [c].
Proof.
  intros H32 H34 H92. unfold escape_char.
  repeat match goal with
         | |- context [?a =? ?b] =>
             destruct (N.eqb_spec a b); [lia|]
         end.
  destruct (N.ltb_spec c 32); [lia|reflexivity].
Qed.

Lemma encode_basestring_literal (s : str) :
  Forall (fun c => 128 <= c) s -> encode_basestring s = [34] ++ s ++ [34].
Proof.
  intros H. unfold encode_basestring. do 2 f_equal.
  induction H as [|c s Hc _ IH]; cbn [flat_map]; [reflexivity|].
  rewrite IH, escape_char_literal by lia. reflexivity.
Qed.

(** C1. The canonical serialization of [{version, files}] does not depend
    on the order in which the entries of [files] were inserted; its text is
    the members of [files] sorted by key in code-point order,
    written with no whitespace between the tokens, followed by the
    version; characters from U+0080 on are copied, not escaped, and the
    bytes are the UTF-8 encoding of that text. *)
Theorem canonical_json_deterministic (version : str) (entries entries' : list (str * str)) :
  NoDup (List.map fst entries) ->
  Permutation entries entries' ->
  let files := dict_of entries in
  let files' := dict_of entries' in
  let members := sort_by fst files in
  canonical_json (unsigned_manifest version files)
  = canonical_json (unsigned_manifest version files')
  /\ Permutation members files
  /\ StronglySorted (fun a b => str_ltb (fst a) (fst b) = true) members
  /\ canonical_json (unsigned_manifest version files)
     = encode_utf8
         (lit "{" ++ encode_basestring (lit "files") ++ lit ":"
          ++ (lit "{" ++ join (lit ",") (List.map member_text members) ++ lit "}")
          ++ lit "," ++ encode_basestring (lit "version") ++ lit ":"
          ++ encode_basestring version ++ lit "}")
  /\ (forall c, 128 <= c -> escape_char c = [c])
  /\ (forall s, Forall (fun c => 128 <= c) s ->
      dumps (JString s) = [34] ++ s ++ [34])
  /\ canonical_json (JString [252; 8364; 128512])
     = Ok [x22; xc3; xbc; xe2; x82; xac; xf0; x9f; x98; x80; x22].
Proof.
  intros Hnd Hperm files files' members.
  assert (Hnd' : NoDup (List.map fst entries')).
  { eapply Permutation_NoDup; [|exact Hnd]. now apply Permutation_map. }
  assert (Hf : files = entries) by (now apply dict_of_nodup).
  assert (Hf' : files' = entries') by (now apply dict_of_nodup).
  assert (Hsort : sort_by fst files = sort_by fst files').
  { rewrite Hf, Hf'. now apply sort_by_perm_eq. }
  repeat split.
  - unfold canonical_json. rewrite !dumps_unsigned_manifest, !dumps_files_json.
    now rewrite Hsort.
  - apply sort_by_perm.
  - apply sort_by_strict. now rewrite Hf.
  - unfold canonical_json. now rewrite dumps_unsigned_manifest, dumps_files_json.
  - intros c Hc. apply escape_char_literal; lia.
  - intros s Hs. cbn [dumps]. now apply encode_basestring_literal.
Qed.

Lemma canonical_json_deterministic_witness :
  canonical_json
    (unsigned_manifest (lit "1.0.0")
       (dict_of [(lit "b.txt", lit "00ff"); (lit "a/b.txt", lit "beef")]))
  = canonical_json
      (unsigned_manifest (lit "1.0.0")
         (dict_of [(lit "a/b.txt", lit "beef"); (lit "b.txt", lit "00ff")])).
Proof.
  apply (canonical_json_deterministic (lit "1.0.0")
           [(lit "b.txt", lit "00ff"); (lit "a/b.txt", lit "beef")]
           [(lit "a/b.txt", lit "beef"); (lit "b.txt", lit "00ff")]).
  - repeat constructor; cbn; intuition discriminate.
  - apply perm_swap.
Defined.

(** ** Content hasher *)

Section Hashing.

Context {L : Library}.

Lemma firstn_nil_inv {A} (n : nat) (l : list A) :
  (0 < n)%nat -> firstn n l = [] -> l = [].
Proof. destruct n, l; cbn; intros; try lia; try reflexivity; discriminate. Qed.

(** The [while] loop of [sha256_file] feeds the whole stream, in order. *)
Lemma sha256_file_loop_all (size : nat) (f : bytes) (h : sha256_state) :
  (0 < size)%nat -> sha256_file_loop size f h = h ++ f.
Proof.
  funelim (sha256_file_loop size f h); intros Hsize; clear Heqcall;
    repeat match goal with Hx : _ = {| pr1 := _; pr2 := _ |} |- _ => clear Hx end.
  - rewrite (firstn_nil_inv _ _ Hsize e). now rewrite app_nil_r.
  - match goal with IH : _ -> _ = _ |- _ => rewrite (IH Hsize) end.
    unfold update, read in *. cbn [fst snd] in *.
    rewrite <- e, <- app_assoc. now rewrite firstn_skipn.
Qed.

(** So does the [for chunk in iter(...)] loop of [hash_zip_members]. *)
Lemma zip_read_loop_all (size : nat) (f : bytes) (h : sha256_state) :
  (0 < size)%nat -> zip_read_loop size f h = h ++ f.
Proof.
  funelim (zip_read_loop size f h); intros Hsize; clear Heqcall;
    repeat match goal with Hx : _ = {| pr1 := _; pr2 := _ |} |- _ => clear Hx end.
  - rewrite (firstn_nil_inv _ _ Hsize e). now rewrite app_nil_r.
  - match goal with IH : _ -> _ = _ |- _ => rewrite (IH Hsize) end.
    unfold update, read in *. cbn [fst snd] in *.
    rewrite <- e, <- app_assoc. now rewrite firstn_skipn.
Qed.

Lemma CHUNK_pos : (0 < CHUNK)%nat.
Proof. unfold CHUNK. lia. Qed.

Lemma hex_digit_lower (n : N) :
  n < 16 -> In (hex_digit n) (lit "0123456789abcdef").
Proof.
  intros H. unfold hex_digit.
  assert (Hn : In n [0;1;2;3;4;5;6;7;8;9;10;11;12;13;14;15]).
  { cbn. lia. }
  cbn in Hn. decompose [or] Hn; subst; cbn; tauto.
Qed.

Lemma hex_lower (bs : bytes) :
  Forall (fun c => In c (lit "0123456789abcdef")) (hex bs).
Proof.
  induction bs as [|b bs IH]; cbn [hex flat_map]; [constructor|].
  unfold hex_byte. cbn [app].
  pose proof (Byte.to_N_bounded b) as Hb.
  constructor; [|constructor; [|exact IH]]; apply hex_digit_lower.
  - apply N.Div0.div_lt_upper_bound. lia.
  - apply N.mod_lt. lia.
Qed.

Lemma hex_length (bs : bytes) : List.length (hex bs) = (2 * List.length bs)%nat.
Proof.
  induction bs as [|b bs IH]; cbn [hex flat_map]; [reflexivity|].
  rewrite length_app. fold (hex bs). rewrite IH. cbn. lia.
Qed.

Lemma sha256_file_hex (data : bytes) : sha256_file data = hex (sha256 data).
Proof.
  unfold sha256_file, hexdigest, sha256_new.
  now rewrite sha256_file_loop_all by apply CHUNK_pos.
Qed.

Lemma zip_member_digest_hex (data : bytes) : zip_member_digest data = hex (sha256 data).
Proof.
  unfold zip_member_digest, hexdigest, sha256_new.
  now rewrite zip_read_loop_all by apply CHUNK_pos.
Qed.

(** C8. On every byte sequence the whole-file [sha256_file] of
    [build_manifest.py], the chunked [sha256_file] of [create_manifest.py]
    and the chunked loop of [hash_zip_members] return the same string: the
    lowercase hexadecimal form of the SHA-256 digest of the full
    content. *)
Theorem content_hashers_agree (data : bytes) :
  sha256_file data = sha256_file_whole data
  /\ zip_member_digest data = sha256_file_whole data
  /\ sha256_file_whole data = hex (sha256 data)
  /\ Forall (fun c => In c (lit "0123456789abcdef")) (sha256_file_whole data)
  /\ List.length (sha256_file_whole data) = (2 * List.length (sha256 data))%nat.
Proof.
  rewrite sha256_file_hex, zip_member_digest_hex.
  unfold sha256_file_whole, hexdigest, update, sha256_new.
  cbn [app]. repeat split.
  - apply hex_lower.
  - apply hex_length.
Qed.

End Hashing.

(** ** Manifest builder *)

Lemma in_dict_set {V} (d : dict V) (k : str) (v : V) (kv : str * V) :
  In kv (dict_set d k v) -> kv = (k, v) \/ In kv d.
Proof.
  induction d as [|[k0 v0] d IH]; cbn.
  - intros [<-|[]]. now left.
  - destruct (str_eqb k0 k) eqn:E; cbn.
    + apply str_eqb_eq in E. subst k0. intros [<-|H]; [now left|right; now right].
    + intros [<-|H]; [right; now left|].
      destruct (IH H) as [->|H']; [now left|right; now right].
Qed.

Lemma keys_dict_set_in {V} (d : dict V) (k k' : str) (v : V) :
  In k' (keys (dict_set d k v)) <-> k' = k \/ In k' (keys d).
Proof.
  rewrite keys_dict_set. destruct (dict_mem d k) eqn:E.
  - apply dict_mem_in in E. split; [tauto|]. intros [->|H]; assumption.
  - rewrite in_app_iff. cbn. intuition congruence.
Qed.

Section Builder.

Context {L : Library}.

Lemma collect_step_nodup (files : dict str) (entry : list str * fsnode) :
  NoDup (keys files) -> NoDup (keys (collect_step files entry)).
Proof.
  destruct entry as [rel n]. unfold collect_step.
  destruct (is_file n); [apply dict_set_nodup|trivial].
Qed.

Lemma collect_fold_nodup (entries : list (list str * fsnode)) (files : dict str) :
  NoDup (keys files) -> NoDup (keys (fold_left collect_step entries files)).
Proof.
  revert files; induction entries as [|e entries IH]; intros files H; cbn; [assumption|].
  apply IH. now apply collect_step_nodup.
Qed.

Lemma collect_fold_keys (entries : list (list str * fsnode)) (files : dict str) (p : str) :
  In p (keys (fold_left collect_step entries files)) <->
  In p (keys files)
  \/ exists rel n, In (rel, n) entries /\ is_file n = true /\ p = as_posix rel.
Proof.
  revert files; induction entries as [|[rel n] entries IH]; intros files; cbn [fold_left].
  - split; [now left|]. intros [H|(rel & n & [] & _)]. assumption.
  - rewrite IH. unfold collect_step at 1. destruct (is_file n) eqn:E.
    + rewrite keys_dict_set_in. split.
      * intros [[->|H]|(rel' & n' & Hin & Hf & ->)].
        -- right. exists rel, n. repeat split; [now left|assumption].
        -- now left.
        -- right. exists rel', n'. repeat split; [now right|assumption].
      * intros [H|(rel' & n' & [Heq|Hin] & Hf & ->)].
        -- left. now right.
        -- inversion Heq; subst. left. now left.
        -- right. exists rel', n'. now repeat split.
    + split.
      * intros [H|(rel' & n' & Hin & Hf & ->)]; [now left|].
        right. exists rel', n'. repeat split; [now right|assumption].
      * intros [H|(rel' & n' & [Heq|Hin] & Hf & ->)]; [now left| |].
        -- inversion Heq; subst. congruence.
        -- right. exists rel', n'. now repeat split.
Qed.

Lemma collect_fold_values (entries : list (list str * fsnode)) (files : dict str)
    (p d : str) :
  In (p, d) (fold_left collect_step entries files) ->
  In (p, d) files
  \/ exists rel n, In (rel, n) entries /\ is_file n = true
                   /\ p = as_posix rel /\ d = sha256_file (file_bytes n).
Proof.
  revert files; induction entries as [|[rel n] entries IH]; intros files; cbn [fold_left].
  - now left.
  - intros H. apply IH in H as [H|(rel' & n' & Hin & Hf & Hp & Hd)].
    + unfold collect_step in H. destruct (is_file n) eqn:E; [|now left].
      apply in_dict_set in H as [H|H]; [|now left].
      inversion H; subst. right. exists rel, n. repeat split; [now left|assumption].
    + right. exists rel', n'. repeat split; [now right|assumption..].
Qed.

(** C7, as the code has it.  [collect_hashes] inserts exactly the entries
    of [rglob] for which [is_file] holds, that is the regular files and the
    symlinks that resolve to a regular file: each of them has its
    slash-separated relative path as a key, no key occurs twice, and every
    pair of the map is the path and the digest of such an entry (of that
    very entry when no other entry has its path).  A directory, a dangling
    symlink and a symlink to a directory fail [is_file]. *)
Theorem collect_hashes_is_file_entries (payload_dir : fsnode) :
  let files := collect_hashes payload_dir in
  let entries := rglob [] payload_dir in
  NoDup (keys files)
  /\ (forall p, In p (keys files) <->
        exists rel n, In (rel, n) entries /\ is_file n = true /\ p = as_posix rel)
  /\ (forall p d, In (p, d) files ->
        exists rel n, In (rel, n) entries /\ is_file n = true
                      /\ p = as_posix rel /\ d = sha256_file (file_bytes n))
  /\ (forall rel n, In (rel, n) entries -> is_file n = true ->
        (forall rel' n', In (rel', n') entries -> as_posix rel' = as_posix rel -> n' = n) ->
        dict_get files (as_posix rel) = Some (sha256_file (file_bytes n)))
  /\ (forall data, is_file (RegularFile data) = true)
  /\ (forall children, is_file (Directory children) = false)
  /\ is_file (Symlink None) = false
  /\ (forall target, is_file (Symlink (Some target)) = is_file target).
Proof.
  cbv zeta. unfold collect_hashes.
  assert (Hk : forall p, In p (keys (fold_left collect_step (rglob [] payload_dir) [])) <->
        exists rel n, In (rel, n) (rglob [] payload_dir) /\ is_file n = true /\ p = as_posix rel).
  { intros p. rewrite collect_fold_keys. cbn. tauto. }
  assert (Hv : forall p d, In (p, d) (fold_left collect_step (rglob [] payload_dir) []) ->
        exists rel n, In (rel, n) (rglob [] payload_dir) /\ is_file n = true
                      /\ p = as_posix rel /\ d = sha256_file (file_bytes n)).
  { intros p d H. apply collect_fold_values in H as [[]|H]. exact H. }
  repeat split; try reflexivity.
  - apply collect_fold_nodup. constructor.
  - apply Hk.
  - apply Hk.
  - apply Hv.
  - intros rel n Hin Hf Huniq.
    destruct (dict_get _ (as_posix rel)) as [d|] eqn:Hget.
    + assert (Hd : In (as_posix rel, d) (fold_left collect_step (rglob [] payload_dir) [])).
      { clear -Hget. induction (fold_left _ _ _) as [|[k v] l IH]; cbn in *; [discriminate|].
        destruct (str_eqb k (as_posix rel)) eqn:E.
        - apply str_eqb_eq in E. inversion Hget; subst. now left.
        - right. now apply IH. }
      apply Hv in Hd as (rel' & n' & Hin' & _ & Hp & ->).
      now rewrite (Huniq rel' n' Hin' (eq_sym Hp)).
    + apply dict_get_none in Hget. exfalso. apply Hget. apply Hk. now exists rel, n.
Qed.

End Builder.

(** C7, as the specification states it, fails on a symlink to a regular file:
    [is_file] follows the link, so the link's path is inserted. *)
Lemma collect_hashes_symlink_inserted :
  ~ (forall (L : Library) (payload_dir : fsnode) rel n,
       In (rel, n) (rglob [] payload_dir) ->
       (exists children, n = Directory children) \/ (exists target, n = Symlink target) ->
       ~ In (as_posix rel) (keys (collect_hashes payload_dir))).
Proof.
  intros H.
  apply (H example_library
           (Directory [(lit "app.exe", RegularFile [x4d; x5a]);
                       (lit "latest", Symlink (Some (RegularFile [x4d; x5a])))])
           [lit "latest"] (Symlink (Some (RegularFile [x4d; x5a])))).
  - cbn. right. now left.
  - right. now eexists.
  - vm_compute. right. now left.
Qed.

(** ** Archive hashing *)

Lemma normalize_ok (path : str) :
  ~ In (lit "..") (segments path) ->
  normalize_relative_path path = Ok (join (lit "/") (segments path)).
Proof.
  intros H. rewrite normalize_relative_path_unfold.
  destruct (existsb _ _) eqn:E; [|reflexivity].
  apply existsb_dotdot in E. contradiction.
Qed.

Lemma normalize_err (path : str) :
  In (lit "..") (segments path) ->
  normalize_relative_path path = Err PathSecurityError.
Proof.
  intros H. rewrite normalize_relative_path_unfold.
  apply existsb_dotdot in H. now rewrite H.
Qed.

Lemma normalize_cases (path : str) :
  normalize_relative_path path = Err PathSecurityError
  \/ normalize_relative_path path = Ok (join (lit "/") (segments path)).
Proof.
  rewrite normalize_relative_path_unfold. destruct (existsb _ _); tauto.
Qed.

Section Archive.

Context {L : Library}.

(** The pair [hash_zip_members] stores for an entry. *)
Let entry_of (info : ZipInfo) : str * str :=
  (normalized_name info, zip_member_digest (content info)).

Lemma hash_zip_loop_members (infos : list ZipInfo) (hashes : dict str) :
  hash_zip_loop infos hashes = hash_zip_loop (members_of infos) hashes.
Proof.
  revert hashes; induction infos as [|info infos IH]; intros hashes; [reflexivity|].
  cbn [members_of filter hash_zip_loop]. fold (members_of infos).
  destruct (is_dir info) eqn:E; cbn [negb hash_zip_loop]; [apply IH|].
  rewrite E. destruct (normalize_relative_path (filename info)); cbn [bind]; [|reflexivity].
  destruct (dict_mem hashes a); [reflexivity|apply IH].
Qed.

Lemma hash_zip_loop_ok (infos : list ZipInfo) (hashes : dict str) :
  (forall info, In info (members_of infos) -> ~ has_traversal info) ->
  NoDup (keys hashes ++ List.map normalized_name (members_of infos)) ->
  hash_zip_loop infos hashes = Ok (hashes ++ List.map entry_of (members_of infos)).
Proof.
  revert hashes; induction infos as [|info infos IH]; intros hashes Hclean Hnd.
  - cbn. now rewrite app_nil_r.
  - cbn [members_of filter hash_zip_loop] in *. fold (members_of infos) in *.
    destruct (is_dir info) eqn:E; cbn [negb] in *; [now apply IH|].
    rewrite normalize_ok by (apply Hclean; now left). cbn [bind].
    fold (normalized_name info). cbn [List.map] in Hnd.
    assert (Hfresh : ~ In (normalized_name info) (keys hashes)).
    { apply NoDup_remove_2 in Hnd. intros Hin. apply Hnd, in_or_app. now left. }
    destruct (dict_mem hashes (normalized_name info)) eqn:Hm.
    { apply dict_mem_in in Hm. contradiction. }
    rewrite dict_set_new by assumption.
    rewrite IH.
    + cbn [List.map]. now rewrite <- app_assoc.
    + intros i Hi. apply Hclean. now right.
    + unfold keys. rewrite map_app. cbn [List.map fst]. now rewrite <- app_assoc.
Qed.

Lemma hash_zip_loop_dup (infos : list ZipInfo) (hashes : dict str) :
  (forall info, In info (members_of infos) -> ~ has_traversal info) ->
  ~ NoDup (keys hashes ++ List.map normalized_name (members_of infos)) ->
  NoDup (keys hashes) ->
  exists p, hash_zip_loop infos hashes = Err (DuplicateEntryError p)
            /\ In p (List.map normalized_name (members_of infos)).
Proof.
  revert hashes; induction infos as [|info infos IH]; intros hashes Hclean Hdup Hnd.
  - cbn in Hdup. rewrite app_nil_r in Hdup. contradiction.
  - cbn [members_of filter hash_zip_loop] in *. fold (members_of infos) in *.
    destruct (is_dir info) eqn:E; cbn [negb] in *; [now apply IH|].
    rewrite normalize_ok by (apply Hclean; now left). cbn [bind].
    fold (normalized_name info). cbn [List.map] in *.
    destruct (dict_mem hashes (normalized_name info)) eqn:Hm.
    { exists (normalized_name info). split; [reflexivity|now left]. }
    destruct (IH (dict_set hashes (normalized_name info) (zip_member_digest (content info))))
      as (p & Hp & Hin).
    + intros i Hi. apply Hclean. now right.
    + rewrite keys_dict_set, Hm, <- app_assoc. exact Hdup.
    + now apply dict_set_nodup.
    + exists p. split; [assumption|now right].
Qed.

Lemma hash_zip_loop_traversal (infos : list ZipInfo) (hashes : dict str) :
  (exists info, In info (members_of infos) /\ has_traversal info) ->
  hash_zip_loop infos hashes = Err PathSecurityError
  \/ exists p, hash_zip_loop infos hashes = Err (DuplicateEntryError p).
Proof.
  revert hashes; induction infos as [|info infos IH]; intros hashes (bad & Hin & Hbad).
  - destruct Hin.
  - cbn [members_of filter hash_zip_loop] in *. fold (members_of infos) in *.
    destruct (is_dir info) eqn:E; cbn [negb] in *.
    + apply IH. now exists bad.
    + destruct (normalize_cases (filename info)) as [Hn|Hn]; rewrite Hn; cbn [bind];
        [now left|].
      destruct (dict_mem hashes _); [right; now eexists|].
      destruct Hin as [<-|Hin].
      * rewrite (normalize_err _ Hbad) in Hn. discriminate.
      * apply IH. now exists bad.
Qed.

Lemma has_traversal_dec (info : ZipInfo) : {has_traversal info} + {~ has_traversal info}.
Proof. apply in_dec, list_eq_dec, N.eq_dec. Qed.

(** The loop stops at the first entry whose name has a [..] segment or
    normalizes to a key that is already there, and that entry decides the
    error. *)
Lemma hash_zip_loop_first (before : list ZipInfo) (bad : ZipInfo) (after : list ZipInfo)
    (hashes : dict str) :
  (forall info, In info (before ++ [bad]) -> is_dir info = false) ->
  (forall info, In info before -> ~ has_traversal info) ->
  NoDup (keys hashes ++ List.map normalized_name before) ->
  (has_traversal bad ->
   hash_zip_loop (before ++ bad :: after) hashes = Err PathSecurityError)
  /\ (~ has_traversal bad ->
      In (normalized_name bad) (keys hashes ++ List.map normalized_name before) ->
      hash_zip_loop (before ++ bad :: after) hashes
      = Err (DuplicateEntryError (normalized_name bad))).
Proof.
  revert hashes; induction before as [|info before IH]; intros hashes Hfile Hclean Hnd.
  - cbn [app hash_zip_loop List.map] in *. rewrite app_nil_r in *.
    rewrite (Hfile bad) by now left. split.
    + intros Hbad. now rewrite (normalize_err _ Hbad).
    + intros Hok Hin. rewrite (normalize_ok _ Hok). cbn [bind].
      fold (normalized_name bad). apply dict_mem_in in Hin. now rewrite Hin.
  - cbn [app hash_zip_loop List.map] in *.
    rewrite (Hfile info) by now left.
    rewrite normalize_ok by (apply Hclean; now left). cbn [bind].
    fold (normalized_name info).
    assert (Hfresh : ~ In (normalized_name info) (keys hashes)).
    { apply NoDup_remove_2 in Hnd. intros Hin. apply Hnd, in_or_app. now left. }
    destruct (dict_mem hashes (normalized_name info)) eqn:Hm.
    { apply dict_mem_in in Hm. contradiction. }
    rewrite dict_set_new by assumption.
    assert (Hkeys : keys (hashes ++ [(normalized_name info,
                                      zip_member_digest (content info))])
                    ++ List.map normalized_name before
                    = keys hashes ++ normalized_name info :: List.map normalized_name before).
    { unfold keys. rewrite map_app. cbn [List.map fst]. now rewrite <- app_assoc. }
    destruct (IH (hashes ++ [(normalized_name info, zip_member_digest (content info))]))
      as [IHbad IHdup].
    + intros i Hi. apply Hfile. now right.
    + intros i Hi. apply Hclean. now right.
    + now rewrite Hkeys.
    + split; [exact IHbad|]. intros Hok Hin. apply IHdup; [exact Hok|].
      now rewrite Hkeys.
Qed.

(** An archive with a [..] entry name has a first entry at which the loop
    stops: the first one with a [..] segment or with the normalized name of
    an earlier entry. *)
Lemma first_offender (before members : list ZipInfo) :
  (forall info, In info before -> ~ has_traversal info) ->
  NoDup (List.map normalized_name before) ->
  (exists info, In info members /\ has_traversal info) ->
  exists before' bad after,
    before ++ members = before' ++ bad :: after
    /\ (forall info, In info before' -> ~ has_traversal info)
    /\ NoDup (List.map normalized_name before')
    /\ (has_traversal bad
        \/ (~ has_traversal bad
            /\ In (normalized_name bad) (List.map normalized_name before'))).
Proof.
  revert before; induction members as [|info members IH];
    intros before Hclean Hnd (bad & Hin & Hbad); [destruct Hin|].
  destruct (has_traversal_dec info) as [Ht|Ht].
  { exists before, info, members. repeat split; try assumption. now left. }
  destruct (in_dec (list_eq_dec N.eq_dec) (normalized_name info)
              (List.map normalized_name before)) as [Hd|Hd].
  { exists before, info, members. repeat split; try assumption. right. now split. }
  destruct (IH (before ++ [info])) as (before' & bad' & after & Heq & H1 & H2 & H3).
  - intros i Hi. apply in_app_or in Hi as [Hi|[<-|[]]]; [now apply Hclean|exact Ht].
  - rewrite map_app. cbn [List.map]. apply NoDup_app; [assumption|repeat constructor; tauto|].
    intros x Hx [<-|[]]. contradiction.
  - destruct Hin as [<-|Hin]; [contradiction|]. now exists bad.
  - exists before', bad', after. rewrite <- app_assoc in Heq. now repeat split.
Qed.

(** C5, as the code has it.  [hash_zip_members] never looks at a directory
    entry.  When no non-directory entry name has a [..] segment, it raises
    the duplicate-entry error if two of these entries normalize to the same
    path, and otherwise returns the map from each normalized name to the
    SHA-256 digest of the entry's bytes, in archive order.  When some
    non-directory entry name has a [..] segment no map is returned, and the
    error is that of the first non-directory entry, in archive order, that
    has a [..] segment or normalizes to the path of an earlier one: the
    path-security error in the first case, the duplicate-entry error for
    that path in the second.  Such a first entry exists, and whatever
    follows it has no effect. *)
Theorem hash_zip_members_correct (archive : list ZipInfo) :
  let members := members_of archive in
  let names := List.map normalized_name members in
  hash_zip_members archive = hash_zip_members members
  /\ ((forall info, In info members -> ~ has_traversal info) ->
      (NoDup names ->
       hash_zip_members archive
       = Ok (List.map (fun info => (normalized_name info,
                                    hex (sha256 (content info)))) members))
      /\ (~ NoDup names ->
          exists p, hash_zip_members archive = Err (DuplicateEntryError p) /\ In p names)
      /\ (forall l1 a l2 b l3,
            members = l1 ++ a :: l2 ++ b :: l3 ->
            normalized_name a = normalized_name b ->
            exists p, hash_zip_members archive = Err (DuplicateEntryError p)))
  /\ ((exists info, In info members /\ has_traversal info) ->
      hash_zip_members archive = Err PathSecurityError
      \/ exists p, hash_zip_members archive = Err (DuplicateEntryError p))
  /\ (forall before bad after,
        members = before ++ bad :: after ->
        (forall info, In info before -> ~ has_traversal info) ->
        NoDup (List.map normalized_name before) ->
        (has_traversal bad -> hash_zip_members archive = Err PathSecurityError)
        /\ (~ has_traversal bad ->
            In (normalized_name bad) (List.map normalized_name before) ->
            hash_zip_members archive = Err (DuplicateEntryError (normalized_name bad))))
  /\ ((exists info, In info members /\ has_traversal info) ->
      exists before bad after,
        members = before ++ bad :: after
        /\ (forall info, In info before -> ~ has_traversal info)
        /\ NoDup (List.map normalized_name before)
        /\ ((has_traversal bad /\ hash_zip_members archive = Err PathSecurityError)
            \/ (~ has_traversal bad
                /\ In (normalized_name bad) (List.map normalized_name before)
                /\ hash_zip_members archive
                   = Err (DuplicateEntryError (normalized_name bad))))).
Proof.
  cbv zeta. unfold hash_zip_members.
  assert (Hfirst : forall before bad after,
            members_of archive = before ++ bad :: after ->
            (forall info, In info before -> ~ has_traversal info) ->
            NoDup (List.map normalized_name before) ->
            (has_traversal bad -> hash_zip_loop archive [] = Err PathSecurityError)
            /\ (~ has_traversal bad ->
                In (normalized_name bad) (List.map normalized_name before) ->
                hash_zip_loop archive []
                = Err (DuplicateEntryError (normalized_name bad)))).
  { intros before bad after Hm Hclean Hnd.
    rewrite hash_zip_loop_members, Hm.
    apply hash_zip_loop_first; [|exact Hclean|exact Hnd].
    intros info Hin.
    assert (Hmem : In info (members_of archive)).
    { rewrite Hm. apply in_app_or in Hin as [Hin|[<-|[]]]; apply in_or_app;
        [now left|right; now left]. }
    apply filter_In in Hmem as [_ Hd]. now destruct (is_dir info). }
  split; [apply hash_zip_loop_members|]. split; [|split; [|split]].
  - intros Hclean.
    assert (Hdup : ~ NoDup (List.map normalized_name (members_of archive)) ->
          exists p, hash_zip_loop archive [] = Err (DuplicateEntryError p)
                    /\ In p (List.map normalized_name (members_of archive))).
    { intros Hd. apply hash_zip_loop_dup; [assumption|exact Hd|constructor]. }
    split; [|split].
    + intros Hnd. rewrite hash_zip_loop_ok by assumption. cbn [app]. f_equal.
      apply map_ext. intros info. unfold entry_of. f_equal.
      apply zip_member_digest_hex.
    + exact Hdup.
    + intros l1 a l2 b l3 Hm Hab.
      destruct Hdup as (p & Hp & _); [|now exists p].
      rewrite Hm, map_app. cbn [List.map]. intros Hnd.
      apply NoDup_remove_2 in Hnd. apply Hnd.
      apply in_or_app. right. rewrite map_app. apply in_or_app. right.
      cbn [List.map]. left. now symmetry.
  - apply hash_zip_loop_traversal.
  - exact Hfirst.
  - intros Hbad.
    destruct (first_offender [] (members_of archive)) as (before & bad & after & Hm & H1 & H2 & H3);
      [intros ? []|constructor|exact Hbad|].
    cbn [app] in Hm. exists before, bad, after.
    destruct (Hfirst before bad after Hm H1 H2) as [Ha Hb].
    split; [exact Hm|]. split; [exact H1|]. split; [exact H2|].
    destruct H3 as [Ht|[Ht Hd]]; [left|right]; auto.
Qed.

End Archive.

(** C5, as the specification states it, fails on an archive whose only entry has a
    [..] segment: no two entries collide, and no map is returned. *)
Lemma hash_zip_members_traversal_no_map :
  ~ (forall (L : Library) (archive : list ZipInfo),
       (forall i j a b p,
           i <> j ->
           nth_error archive i = Some a -> nth_error archive j = Some b ->
           is_dir a = false -> is_dir b = false ->
           normalize_relative_path (filename a) = Ok p ->
           normalize_relative_path (filename b) = Ok p -> False) ->
       exists hashes, hash_zip_members archive = Ok hashes).
Proof.
  intros H.
  destruct (H example_library [mkZipInfo (lit "../../evil.bin") false [x00]]) as [hashes Hh].
  - intros [|[|i]] [|[|j]] a b p Hij Ha Hb; cbn in Ha, Hb; try congruence; discriminate.
  - vm_compute in Hh. discriminate.
Qed.

Lemma hash_zip_members_correct_witness :
  hash_zip_members (L := example_library)
    [mkZipInfo (lit "a/") true [];
     mkZipInfo (lit "a/b.txt") false [x68; x69];
     mkZipInfo (lit "a\.\c.txt") false []]
  = Ok [(lit "a/b.txt", hex (toy_digest [x68; x69]));
        (lit "a/c.txt", hex (toy_digest []))]
  /\ hash_zip_members (L := example_library)
       [mkZipInfo (lit "a/b.txt") false [x68];
        mkZipInfo (lit "a\b.txt") false [x69];
        mkZipInfo (lit "../x") false []]
     = Err (DuplicateEntryError (lit "a/b.txt"))
  /\ hash_zip_members (L := example_library)
       [mkZipInfo (lit "../x") false [];
        mkZipInfo (lit "a/b.txt") false [x68];
        mkZipInfo (lit "a\b.txt") false [x69]]
     = Err PathSecurityError.
Proof.
  split; [|split].
  - destruct (hash_zip_members_correct (L := example_library)
                [mkZipInfo (lit "a/") true [];
                 mkZipInfo (lit "a/b.txt") false [x68; x69];
                 mkZipInfo (lit "a\.\c.txt") false []]) as (_ & Hclean & _).
    destruct Hclean as (Hok & _).
    + intros info [<-|[<-|[]]]; vm_compute; intuition discriminate.
    + apply Hok. repeat constructor; vm_compute; intuition discriminate.
  - destruct (hash_zip_members_correct (L := example_library)
                [mkZipInfo (lit "a/b.txt") false [x68];
                 mkZipInfo (lit "a\b.txt") false [x69];
                 mkZipInfo (lit "../x") false []]) as (_ & _ & _ & Hfirst & _).
    destruct (Hfirst [mkZipInfo (lit "a/b.txt") false [x68]]
                (mkZipInfo (lit "a\b.txt") false [x69])
                [mkZipInfo (lit "../x") false []]) as [_ Hdup].
    + reflexivity.
    + intros info [<-|[]]; vm_compute; intuition discriminate.
    + repeat constructor; vm_compute; intuition discriminate.
    + apply Hdup; [vm_compute; intuition discriminate|vm_compute; now left].
  - destruct (hash_zip_members_correct (L := example_library)
                [mkZipInfo (lit "../x") false [];
                 mkZipInfo (lit "a/b.txt") false [x68];
                 mkZipInfo (lit "a\b.txt") false [x69]]) as (_ & _ & _ & Hfirst & _).
    destruct (Hfirst [] (mkZipInfo (lit "../x") false [])
                [mkZipInfo (lit "a/b.txt") false [x68];
                 mkZipInfo (lit "a\b.txt") false [x69]]) as [Hbad _].
    + reflexivity.
    + intros info [].
    + constructor.
    + apply Hbad. vm_compute. now left.
Defined.

(** ** Manifest loading *)

Lemma string_entries_some (items : dict json) (entries : list (str * str)) :
  string_entries items = Some entries <->
  items = List.map (fun kv => (fst kv, JString (snd kv))) entries.
Proof.
  revert entries; induction items as [|[k v] items IH]; intros entries; cbn.
  - split.
    + intros H. inversion H. reflexivity.
    + destruct entries; [reflexivity|discriminate].
  - destruct v; try (split; [discriminate|destruct entries as [|[] ?]; discriminate]).
    destruct (string_entries items) as [es|] eqn:E.
    + split.
      * intros H. inversion H; subst. cbn. f_equal. now apply IH.
      * destruct entries as [|[k' v'] entries]; [discriminate|]. cbn.
        intros H. injection H as -> -> Hrest. apply IH in Hrest. congruence.
    + split; [discriminate|].
      destruct entries as [|[k' v'] entries]; [discriminate|]. cbn.
      intros H. injection H as -> -> Hrest. apply IH in Hrest. discriminate.
Qed.


Section Loading.

Context {L : Library}.

Lemma load_files_spec (items : dict json) (files : dict str) :
  load_files items files =
  match string_entries items with
  | Some entries =>
      Ok (fold_left (fun d kv => dict_set d (fst kv) (snd kv)) entries files)
  | None => Err StructuralFileTypes
  end.
Proof.
  revert files; induction items as [|[k v] items IH]; intros files; cbn; [reflexivity|].
  destruct v; try reflexivity.
  rewrite IH. now destruct (string_entries items).
Qed.

End Loading.

Section LoadManifest.

Context {L : Library}.




Lemma load_manifest_dict_errors (members : dict json) (e : error) :
  load_manifest_dict members = Err e ->
  In e [StructuralVersion; StructuralFiles; StructuralSignature;
        EncodingError; StructuralFileTypes].
Proof.
  unfold load_manifest_dict.
  destruct (dict_get members (lit "version")) as [[| | |v| |]|];
    try (intros H; injection H as <-; cbn; tauto).
  destruct (strip_is_empty v); [intros H; injection H as <-; cbn; tauto|].
  destruct (dict_get members (lit "files")) as [[| | | | |items]|];
    try (intros H; injection H as <-; cbn; tauto).
  destruct (dict_get members (lit "signature")) as [[| | |text| |]|];
    try (intros H; injection H as <-; cbn; tauto).
  destruct (b64decode text); [|intros H; injection H as <-; cbn; tauto].
  rewrite load_files_spec.
  destruct (string_entries items); cbn [bind]; [discriminate|].
  intros H; injection H as <-; cbn; tauto.
Qed.


End LoadManifest.


(** ** Reconciliation *)

Lemma in_dict_get {V} (d : dict V) (k : str) (v : V) :
  NoDup (keys d) -> (In (k, v) d <-> dict_get d k = Some v).
Proof.
  induction d as [|[k0 v0] d IH]; cbn; intros Hnd.
  - split; [tauto|discriminate].
  - inversion Hnd as [|? ? Hnotin Hnd']; subst.
    destruct (str_eqb k0 k) eqn:E.
    + apply str_eqb_eq in E. subst k0. split.
      * intros [H|H]; [congruence|]. exfalso. apply Hnotin.
        change k with (fst (k, v)). now apply in_map.
      * intros H. left. congruence.
    + apply str_eqb_neq in E. rewrite <- IH by assumption. split.
      * intros [H|H]; [congruence|assumption].
      * intros H. now right.
Qed.

Lemma dict_get_in {V} (d : dict V) (k : str) (v : V) :
  dict_get d k = Some v -> In (k, v) d.
Proof.
  induction d as [|[k0 v0] d IH]; cbn; [discriminate|].
  destruct (str_eqb k0 k) eqn:E.
  - apply str_eqb_eq in E. intros H. left. congruence.
  - intros H. right. now apply IH.
Qed.

Section Reconcile.

Context {L : Library}.

(** An entry of the normalized manifest is missing from the archive. *)
Let is_missing (archive_hashes : dict str) (kv : str * str) : bool :=
  negb (dict_mem archive_hashes (fst kv)).

(** An entry of the normalized manifest has another digest in the archive. *)
Let is_mismatch (archive_hashes : dict str) (kv : str * str) : bool :=
  match dict_get archive_hashes (fst kv) with
  | Some actual => negb (str_eqb (str_lower actual) (snd kv))
  | None => false
  end.

Lemma compare_loop_spec (items archive_hashes : dict str) (missing mismatches : list str) :
  compare_loop items archive_hashes missing mismatches =
  (missing ++ List.map fst (filter (is_missing archive_hashes) items),
   mismatches ++ List.map fst (filter (is_mismatch archive_hashes) items)).
Proof.
  revert missing mismatches; induction items as [|[p e] items IH]; intros m h.
  - cbn. now rewrite !app_nil_r.
  - cbn [compare_loop filter]. unfold is_missing at 1, is_mismatch at 1, dict_mem.
    cbn [fst snd].
    destruct (dict_get archive_hashes p) as [a|]; cbn [negb].
    + destruct (negb (str_eqb (str_lower a) e)); rewrite IH; cbn [List.map fst];
        now rewrite <- ?app_assoc.
    + rewrite IH. cbn [List.map fst]. now rewrite <- app_assoc.
Qed.

Lemma missing_of_in (nm ah : dict str) (p : str) :
  In p (missing_of nm ah) <-> In p (keys nm) /\ ~ In p (keys ah).
Proof.
  unfold missing_of. rewrite compare_loop_spec. cbn [fst app].
  rewrite in_map_iff. split.
  - intros ([k e] & <- & Hin). apply filter_In in Hin as [Hin Hm].
    unfold is_missing in Hm. cbn [fst] in *. split.
    + change k with (fst (k, e)). now apply in_map.
    + intros Hk. apply dict_mem_in in Hk. rewrite Hk in Hm. discriminate.
  - intros [Hin Hout]. unfold keys in Hin. apply in_map_iff in Hin as ([k e] & <- & Hin).
    exists (k, e). split; [reflexivity|]. apply filter_In. split; [assumption|].
    unfold is_missing. cbn [fst] in *.
    destruct (dict_mem ah k) eqn:E; [|reflexivity].
    apply dict_mem_in in E. contradiction.
Qed.

Lemma mismatched_of_in (nm ah : dict str) (p : str) :
  In p (mismatched_of nm ah) <->
  exists expected actual,
    In (p, expected) nm /\ dict_get ah p = Some actual /\ str_lower actual <> expected.
Proof.
  unfold mismatched_of. rewrite compare_loop_spec. cbn [snd app].
  rewrite in_map_iff. split.
  - intros ([k e] & <- & Hin). apply filter_In in Hin as [Hin Hm].
    unfold is_mismatch in Hm. cbn [fst snd] in *.
    destruct (dict_get ah k) as [a|] eqn:Ha; [|discriminate].
    exists e, a. repeat split; [assumption|].
    apply negb_true_iff, str_eqb_neq in Hm. assumption.
  - intros (e & a & Hin & Ha & Hne). exists (p, e). split; [reflexivity|].
    apply filter_In. split; [assumption|].
    unfold is_mismatch. cbn [fst snd]. rewrite Ha.
    apply negb_true_iff, str_eqb_neq. assumption.
Qed.

Lemma extra_of_in (ah nm : dict str) (p : str) :
  In p (extra_of ah nm) <-> In p (keys ah) /\ ~ In p (keys nm).
Proof.
  unfold extra_of, sorted. split.
  - intros H. apply (Permutation_in _ (sort_by_perm _ _)) in H.
    apply filter_In in H as [Hin Hm]. split; [assumption|].
    intros Hk. apply dict_mem_in in Hk. rewrite Hk in Hm. discriminate.
  - intros [Hin Hout].
    apply (Permutation_in _ (Permutation_sym (sort_by_perm _ _))).
    apply filter_In. split; [assumption|].
    destruct (dict_mem nm p) eqn:E; [|reflexivity].
    apply dict_mem_in in E. contradiction.
Qed.

Lemma nonempty_false {A} (l : list A) : nonempty l = false <-> l = [].
Proof. destruct l; cbn; split; congruence. Qed.

Lemma nonempty_true {A} (l : list A) : nonempty l = true <-> l <> [].
Proof. destruct l; cbn; split; congruence. Qed.

(** [reconcile] by cases on the three lists. *)
Lemma reconcile_cases (version : str) (ah nm : dict str) (fail_on_extra : bool) :
  reconcile version ah nm fail_on_extra =
  if nonempty (missing_of nm ah) then Err (IntegrityMissing (missing_of nm ah))
  else if nonempty (mismatched_of nm ah) then Err (IntegrityMismatch (mismatched_of nm ah))
  else if fail_on_extra && nonempty (extra_of ah nm) then Err (PolicyViolation (extra_of ah nm))
  else Ok ((if nonempty (extra_of ah nm) then [Warning (extra_of ah nm)] else [])
             ++ [Valid version]).
Proof.
  unfold reconcile, missing_of, mismatched_of.
  now destruct (compare_loop nm ah [] []).
Qed.

(** The normalized manifest keeps distinct keys, and each of its entries
    is the normalized path and the lower-cased digest of a manifest
    entry. *)
Lemma normalize_manifest_loop_spec (items acc nm : dict str) :
  normalize_manifest_loop items acc = Ok nm ->
  (NoDup (keys acc) -> NoDup (keys nm))
  /\ (forall p e, In (p, e) nm ->
        In (p, e) acc
        \/ exists rel_path digest,
             In (rel_path, digest) items
             /\ normalize_relative_path rel_path = Ok p
             /\ e = str_lower digest)
  /\ (forall rel_path digest, In (rel_path, digest) items ->
        exists p, normalize_relative_path rel_path = Ok p /\ In p (keys nm))
  /\ (forall p, In p (keys acc) -> In p (keys nm)).
Proof.
  revert acc; induction items as [|[k d] items IH]; intros acc; cbn [normalize_manifest_loop].
  - intros H. injection H as <-. repeat split; try tauto.
    intros ? ? [].
  - destruct (normalize_relative_path k) as [p0|] eqn:Hn; cbn [bind]; [|discriminate].
    intros H. apply IH in H as (Hnd & Hval & Hkeys & Hacc). repeat split.
    + intros Ha. apply Hnd. now apply dict_set_nodup.
    + intros p e Hin. apply Hval in Hin as [Hin|(k' & d' & Hin & Hp & He)].
      * apply in_dict_set in Hin as [Heq|Hin]; [|now left].
        injection Heq as -> ->. right. exists k, d. repeat split; [now left|assumption].
      * right. exists k', d'. repeat split; [now right|assumption..].
    + intros k' d' [Heq|Hin].
      * injection Heq as <- <-. exists p0. split; [assumption|].
        apply Hacc. apply keys_dict_set_in. now left.
      * exact (Hkeys k' d' Hin).
    + intros p Hp. apply Hacc. apply keys_dict_set_in. now right.
Qed.

End Reconcile.

(** ** Validation *)

Section Validation.

Context {L : Library}.

(** Once the four stages before it have passed, [validate_payload] is
    [reconcile]. *)
Lemma validate_payload_stages zip_path manifest public_key_path fail_on_extra
    version files signature archive_hashes nm :
  load_manifest manifest = Ok (version, files, signature) ->
  verify_signature version files signature public_key_path = Ok true ->
  hash_zip_members zip_path = Ok archive_hashes ->
  normalize_manifest_loop files [] = Ok nm ->
  validate_payload zip_path manifest public_key_path fail_on_extra
  = reconcile version archive_hashes nm fail_on_extra.
Proof.
  intros Hl Hv Hh Hn. unfold validate_payload.
  rewrite Hl. cbn [bind]. rewrite Hv. cbn [bind negb]. rewrite Hh. cbn [bind].
  rewrite Hn. reflexivity.
Qed.

(** A run that returns went through the four stages. *)
Lemma validate_payload_ok_inv zip_path manifest public_key_path fail_on_extra printed :
  validate_payload zip_path manifest public_key_path fail_on_extra = Ok printed ->
  exists version files signature archive_hashes nm,
    load_manifest manifest = Ok (version, files, signature)
    /\ verify_signature version files signature public_key_path = Ok true
    /\ hash_zip_members zip_path = Ok archive_hashes
    /\ normalize_manifest_loop files [] = Ok nm
    /\ reconcile version archive_hashes nm fail_on_extra = Ok printed.
Proof.
  unfold validate_payload.
  destruct (load_manifest manifest) as [[[version files] signature]|] eqn:Hl;
    cbn [bind]; [|discriminate].
  destruct (verify_signature version files signature public_key_path) as [[|]|] eqn:Hv;
    cbn [bind negb]; try discriminate.
  destruct (hash_zip_members zip_path) as [ah|] eqn:Hh; cbn [bind]; [|discriminate].
  destruct (normalize_manifest_loop files []) as [nm|] eqn:Hn; cbn [bind]; [|discriminate].
  intros H. exists version, files, signature, ah, nm. now repeat split.
Qed.

(** C2. [validate_payload] reports success exactly when the manifest
    loads, the signature verifies, both maps are built, [missing] and
    [mismatched] are empty and [extra] is empty or [fail_on_extra] is off.
    After the maps are built: a non-empty [missing] or [mismatched] raises
    the integrity error whatever the flag; a non-empty [extra] raises the
    policy error under the flag and is printed as a warning without it.
    [missing] holds the manifest paths absent from the archive map,
    [mismatched] the paths whose lower-cased manifest digest differs from
    the archive digest, [extra] the archive paths absent from the
    manifest. *)
Theorem validate_payload_success_iff (zip_path : list ZipInfo) (manifest : json)
    (public_key_path : option pubkey) (fail_on_extra : bool) :
  let run := validate_payload zip_path manifest public_key_path fail_on_extra in
  (forall printed,
      run = Ok printed <->
      exists version files signature archive_hashes nm,
        load_manifest manifest = Ok (version, files, signature)
        /\ verify_signature version files signature public_key_path = Ok true
        /\ hash_zip_members zip_path = Ok archive_hashes
        /\ normalize_manifest_loop files [] = Ok nm
        /\ missing_of nm archive_hashes = []
        /\ mismatched_of nm archive_hashes = []
        /\ (extra_of archive_hashes nm = [] \/ fail_on_extra = false)
        /\ printed = (if nonempty (extra_of archive_hashes nm)
                      then [Warning (extra_of archive_hashes nm)] else [])
                     ++ [Valid version])
  /\ (forall version files signature archive_hashes nm,
        load_manifest manifest = Ok (version, files, signature) ->
        verify_signature version files signature public_key_path = Ok true ->
        hash_zip_members zip_path = Ok archive_hashes ->
        normalize_manifest_loop files [] = Ok nm ->
        let missing := missing_of nm archive_hashes in
        let mismatched := mismatched_of nm archive_hashes in
        let extra := extra_of archive_hashes nm in
        (missing <> [] -> run = Err (IntegrityMissing missing))
        /\ (missing = [] -> mismatched <> [] -> run = Err (IntegrityMismatch mismatched))
        /\ (missing = [] -> mismatched = [] -> extra <> [] -> fail_on_extra = true ->
            run = Err (PolicyViolation extra))
        /\ (missing = [] -> mismatched = [] -> extra <> [] -> fail_on_extra = false ->
            run = Ok [Warning extra; Valid version])
        /\ (missing = [] -> mismatched = [] -> extra = [] -> run = Ok [Valid version])
        /\ (forall p, In p missing <-> In p (keys nm) /\ ~ In p (keys archive_hashes))
        /\ (forall p, In p mismatched <->
              exists expected actual,
                dict_get nm p = Some expected /\ dict_get archive_hashes p = Some actual
                /\ str_lower actual <> expected)
        /\ (forall p, In p extra <-> In p (keys archive_hashes) /\ ~ In p (keys nm))
        /\ (forall p expected, dict_get nm p = Some expected ->
              exists rel_path digest,
                In (rel_path, digest) files
                /\ normalize_relative_path rel_path = Ok p
                /\ expected = str_lower digest)).
Proof.
  cbv zeta. split.
  - intros printed. split.
    + intros H. apply validate_payload_ok_inv in H
        as (version & files & signature & ah & nm & Hl & Hv & Hh & Hn & Hr).
      exists version, files, signature, ah, nm.
      rewrite reconcile_cases in Hr.
      destruct (nonempty (missing_of nm ah)) eqn:E1; [discriminate|].
      destruct (nonempty (mismatched_of nm ah)) eqn:E2; [discriminate|].
      destruct (fail_on_extra && nonempty (extra_of ah nm)) eqn:E3; [discriminate|].
      apply nonempty_false in E1, E2. injection Hr as <-.
      repeat split; try assumption.
      apply andb_false_iff in E3 as [E3|E3]; [now right|left; now apply nonempty_false].
    + intros (version & files & signature & ah & nm
              & Hl & Hv & Hh & Hn & Hm & Hmm & Hx & ->).
      rewrite (validate_payload_stages _ _ _ _ _ _ _ _ _ Hl Hv Hh Hn).
      rewrite reconcile_cases, Hm, Hmm. cbn [nonempty].
      destruct Hx as [Hx|Hx]; rewrite Hx; [|reflexivity].
      cbn [nonempty]. now rewrite andb_false_r.
  - intros version files signature ah nm Hl Hv Hh Hn.
    rewrite (validate_payload_stages _ _ _ _ _ _ _ _ _ Hl Hv Hh Hn).
    rewrite reconcile_cases.
    destruct (normalize_manifest_loop_spec _ _ _ Hn) as (Hnd & Hval & _ & _).
    specialize (Hnd (NoDup_nil _)).
    repeat apply conj.
    + intros H. apply nonempty_true in H. now rewrite H.
    + intros -> H. apply nonempty_true in H. cbn [nonempty]. now rewrite H.
    + intros -> -> H ->. apply nonempty_true in H. cbn [nonempty andb]. now rewrite H.
    + intros -> -> H ->. apply nonempty_true in H. cbn [nonempty andb]. now rewrite H.
    + intros -> -> ->. cbn [nonempty]. now rewrite andb_false_r.
    + apply missing_of_in.
    + intros p. rewrite mismatched_of_in. split.
      * intros (e & a & Hin & Ha & Hne). exists e, a.
        repeat split; try assumption. now apply in_dict_get.
      * intros (e & a & Hin & Ha & Hne). exists e, a.
        repeat split; try assumption. now apply dict_get_in.
    + apply extra_of_in.
    + intros p e Hget. apply dict_get_in in Hget.
      apply Hval in Hget as [[]|H]. exact H.
Qed.

End Validation.

(** ** What is signed *)

Section Signing.

Context {L : Library}.

(** C3. For a manifest that loads, the bytes [verify_signature] gives to
    the RSA check are the canonical serialization of the mapping with the
    two members [version] and [files], and nothing else: the text is fixed
    by the version and the sorted entries of [files], the verdict of
    [validate_payload] on the signature is the verdict of the RSA check on
    those bytes, and the builder signs the same serialization before it
    adds the [signature] member. *)
Theorem signing_input_is_canonical (manifest : json) (version : str)
    (files : dict str) (signature : bytes) :
  load_manifest manifest = Ok (version, files, signature) ->
  keys (unsigned_members version files) = [lit "version"; lit "files"]
  /\ signing_payload version files
     = canonical_json (JObject [(lit "version", JString version);
                                (lit "files", files_json files)])
  /\ signing_payload version files
     = encode_utf8
         (lit "{" ++ encode_basestring (lit "files") ++ lit ":"
          ++ (lit "{" ++ join (lit ",") (List.map member_text (sort_by fst files))
              ++ lit "}")
          ++ lit "," ++ encode_basestring (lit "version") ++ lit ":"
          ++ encode_basestring version ++ lit "}")
  /\ (forall key payload,
        signing_payload version files = Ok payload ->
        verify_signature version files signature (Some key)
        = Ok (rsa_verify key signature payload)
        /\ forall zip_path fail_on_extra,
            (rsa_verify key signature payload = false ->
             validate_payload zip_path manifest (Some key) fail_on_extra
             = Err SignatureError)
            /\ (rsa_verify key signature payload = true ->
                validate_payload zip_path manifest (Some key) fail_on_extra
                = (archive_hashes <- hash_zip_members zip_path ;;
                   nm <- normalize_manifest_loop files [] ;;
                   reconcile version archive_hashes nm fail_on_extra)))
  /\ (forall payload_dir builder_version key signed_manifest manifest_bytes,
        create_manifest payload_dir builder_version (Some key)
        = Ok (signed_manifest, manifest_bytes) ->
        signing_payload builder_version (collect_hashes payload_dir) = Ok manifest_bytes
        /\ signed_manifest
           = JObject (unsigned_members builder_version (collect_hashes payload_dir)
                      ++ [(lit "signature",
                           JString (b64encode (rsa_sign key manifest_bytes)))])).
Proof.
  intros Hload. repeat apply conj.
  - reflexivity.
  - reflexivity.
  - unfold signing_payload, canonical_json.
    now rewrite dumps_unsigned_manifest, dumps_files_json.
  - intros key payload Hp.
    assert (Hv : verify_signature version files signature (Some key)
                 = Ok (rsa_verify key signature payload)).
    { unfold verify_signature. now rewrite Hp. }
    split; [exact Hv|]. intros zip_path fail_on_extra.
    unfold validate_payload. rewrite Hload. cbn [bind]. rewrite Hv. cbn [bind].
    split; intros ->; reflexivity.
  - intros payload_dir builder_version key signed_manifest manifest_bytes.
    unfold create_manifest, sign_files, signing_payload, unsigned_manifest.
    destruct (canonical_json _) as [bs|]; cbn [bind]; [|discriminate].
    intros H. injection H as <- <-. split; reflexivity.
Qed.

End Signing.

(** ** Paths listed twice in a manifest *)

Lemma dict_set_app {V} (pre rest : dict V) (k : str) (v : V) :
  dict_set (pre ++ rest) k v =
  if dict_mem pre k then dict_set pre k v ++ rest else pre ++ dict_set rest k v.
Proof.
  unfold dict_mem. induction pre as [|[k0 v0] pre IH]; cbn [app dict_set dict_get].
  - reflexivity.
  - destruct (str_eqb k0 k); [reflexivity|].
    rewrite IH. now destruct (dict_get pre k).
Qed.

(** An assignment to [k] leaves one entry for [k], after a prefix without
    [k]; prefix and suffix do not depend on the value assigned. *)
Lemma dict_set_split {V} (d : dict V) (k : str) :
  exists pre post,
    ~ In k (keys pre) /\ forall v, dict_set d k v = pre ++ (k, v) :: post.
Proof.
  induction d as [|[k0 v0] d (pre & post & Hpre & Hset)].
  - exists [], []. split; [cbn; tauto|reflexivity].
  - destruct (str_eqb k0 k) eqn:E.
    + exists [], d. split; [cbn; tauto|].
      intros v. cbn. rewrite E. apply str_eqb_eq in E. now subst.
    + exists ((k0, v0) :: pre), post. split.
      * cbn. apply str_eqb_neq in E. intros [H|H]; [congruence|contradiction].
      * intros v. cbn. rewrite E. now rewrite Hset.
Qed.

Lemma encode_utf8_errors (s : str) (e : error) :
  encode_utf8 s = Err e -> e = UnicodeEncodeError.
Proof.
  induction s as [|c s IH]; cbn; [discriminate|].
  destruct (utf8_char c); [|congruence].
  destruct (encode_utf8 s); cbn; [discriminate|].
  intros H. injection H as <-. now apply IH.
Qed.

Section TwiceListed.

Context {L : Library}.

Lemma load_manifest_errors (data : json) (e : error) :
  load_manifest data = Err e ->
  In e [StructuralVersion; StructuralFiles; StructuralSignature;
        EncodingError; StructuralFileTypes; TypeError].
Proof.
  destruct data; cbn [load_manifest];
    try (intros H; injection H as <-; cbn; tauto);
    try (destruct (existsb _ _); intros H; injection H as <-; cbn; tauto);
    try (destruct (contains _ _); intros H; injection H as <-; cbn; tauto).
  intros H. apply load_manifest_dict_errors in H. cbn in *. tauto.
Qed.

Lemma verify_signature_errors version files signature key (e : error) :
  verify_signature version files signature key = Err e ->
  e = UnicodeEncodeError \/ e = KeyLoadError.
Proof.
  unfold verify_signature, signing_payload, canonical_json.
  destruct (encode_utf8 _) as [payload|e0] eqn:E; cbn [bind].
  - destruct key; [discriminate|]. intros H. injection H as <-. now right.
  - intros H. injection H as <-. left. eapply encode_utf8_errors. exact E.
Qed.

Lemma normalize_manifest_loop_errors (items acc : dict str) (e : error) :
  normalize_manifest_loop items acc = Err e -> e = PathSecurityError.
Proof.
  revert acc; induction items as [|[k d] items IH]; intros acc;
    cbn [normalize_manifest_loop]; [discriminate|].
  destruct (normalize_cases k) as [Hn|Hn]; rewrite Hn; cbn [bind].
  - congruence.
  - apply IH.
Qed.

Lemma reconcile_errors version ah nm fail_on_extra (e : error) :
  reconcile version ah nm fail_on_extra = Err e ->
  (exists l, e = IntegrityMissing l) \/ (exists l, e = IntegrityMismatch l)
  \/ (exists l, e = PolicyViolation l).
Proof.
  rewrite reconcile_cases.
  destruct (nonempty (missing_of nm ah)).
  { intros H. injection H as <-. left. now eexists. }
  destruct (nonempty (mismatched_of nm ah)).
  { intros H. injection H as <-. right. left. now eexists. }
  destruct (fail_on_extra && nonempty (extra_of ah nm)); [|discriminate].
  intros H. injection H as <-. right. right. now eexists.
Qed.

Lemma normalize_manifest_loop_app (l r acc : dict str) :
  normalize_manifest_loop (l ++ r) acc =
  (acc1 <- normalize_manifest_loop l acc ;; normalize_manifest_loop r acc1).
Proof.
  revert acc; induction l as [|[k d] l IH]; intros acc; cbn [app normalize_manifest_loop bind].
  - reflexivity.
  - destruct (normalize_relative_path k); cbn [bind]; [apply IH|reflexivity].
Qed.

(** Entries that do not normalize to [p] leave the value at [p] alone. *)
Lemma normalize_manifest_loop_untouched (items acc nm : dict str) (p : str) :
  (forall k d, In (k, d) items -> normalize_relative_path k <> Ok p) ->
  normalize_manifest_loop items acc = Ok nm ->
  dict_get nm p = dict_get acc p.
Proof.
  revert acc; induction items as [|[k d] items IH]; intros acc Hother;
    cbn [normalize_manifest_loop].
  - intros H. now injection H as <-.
  - destruct (normalize_relative_path k) as [q|] eqn:Hn; cbn [bind]; [|discriminate].
    intros H. rewrite (IH _ (fun k' d' Hin => Hother k' d' (or_intror Hin)) H).
    rewrite dict_get_set.
    destruct (str_eqb q p) eqn:E; [|reflexivity].
    apply str_eqb_eq in E. subst q. exfalso. apply (Hother k d); [now left|assumption].
Qed.

(** A value at [p] that a later entry assigns again does not reach the
    result. *)
Lemma normalize_manifest_loop_overwritten (items pre post : dict str) (p x x' : str) :
  ~ In p (keys pre) ->
  (exists k d, In (k, d) items /\ normalize_relative_path k = Ok p) ->
  normalize_manifest_loop items (pre ++ (p, x) :: post)
  = normalize_manifest_loop items (pre ++ (p, x') :: post).
Proof.
  revert pre post; induction items as [|[k d] items IH]; intros pre post Hpre (k2 & d2 & Hin & Hk2).
  - destruct Hin.
  - cbn [normalize_manifest_loop].
    destruct (normalize_relative_path k) as [q|] eqn:Hn; cbn [bind]; [|reflexivity].
    rewrite !dict_set_app.
    destruct (dict_mem pre q) eqn:Hm.
    + assert (Hqp : q <> p).
      { intros ->. apply dict_mem_in in Hm. contradiction. }
      destruct Hin as [Heq|Hin]; [injection Heq as -> ->; congruence|].
      apply IH; [|now exists k2, d2].
      rewrite keys_dict_set, Hm. assumption.
    + cbn [dict_set]. destruct (str_eqb p q) eqn:E; [reflexivity|].
      destruct Hin as [Heq|Hin].
      { injection Heq as -> ->. apply str_eqb_neq in E. congruence. }
      apply IH; [assumption|now exists k2, d2].
Qed.

Lemma normalize_manifest_loop_first_digest (l1 l2 l3 : dict str)
    (k1 d1 d1' k2 d2 p : str) :
  normalize_relative_path k1 = Ok p ->
  normalize_relative_path k2 = Ok p ->
  normalize_manifest_loop (l1 ++ (k1, d1) :: l2 ++ (k2, d2) :: l3) []
  = normalize_manifest_loop (l1 ++ (k1, d1') :: l2 ++ (k2, d2) :: l3) [].
Proof.
  intros H1 H2. rewrite !normalize_manifest_loop_app.
  destruct (normalize_manifest_loop l1 []) as [acc|]; cbn [bind]; [|reflexivity].
  cbn [normalize_manifest_loop]. rewrite H1. cbn [bind].
  destruct (dict_set_split acc p) as (pre & post & Hpre & Hset).
  rewrite !Hset. apply normalize_manifest_loop_overwritten; [assumption|].
  exists k2, d2. split; [|assumption]. apply in_or_app. right. now left.
Qed.

(** C9. The manifest side has no duplicate check.  Normalizing the
    manifest paths can only raise the path-security error, and
    [validate_payload] raises the duplicate-entry error only for the
    archive.  When two keys of [files] normalize to the same path, the
    normalized manifest holds the digest of the one listed last, the digest
    of the earlier one has no effect on the run, and a manifest whose
    earlier digest is wrong is accepted. *)
Theorem manifest_duplicates_not_detected :
  (forall files acc e,
      normalize_manifest_loop files acc = Err e -> e = PathSecurityError)
  /\ (forall zip_path manifest key fail_on_extra archive_hashes,
        hash_zip_members zip_path = Ok archive_hashes ->
        forall p, validate_payload zip_path manifest key fail_on_extra
                  <> Err (DuplicateEntryError p))
  /\ (forall l1 k1 d1 l2 k2 d2 l3 p nm,
        k1 <> k2 ->
        normalize_relative_path k1 = Ok p ->
        normalize_relative_path k2 = Ok p ->
        (forall k d, In (k, d) l3 -> normalize_relative_path k <> Ok p) ->
        normalize_manifest_loop (l1 ++ (k1, d1) :: l2 ++ (k2, d2) :: l3) [] = Ok nm ->
        dict_get nm p = Some (str_lower d2))
  /\ (forall zip_path manifest key fail_on_extra version signature
             l1 k1 d1 l2 k2 d2 l3 p,
        k1 <> k2 ->
        normalize_relative_path k1 = Ok p ->
        normalize_relative_path k2 = Ok p ->
        load_manifest manifest
        = Ok (version, l1 ++ (k1, d1) :: l2 ++ (k2, d2) :: l3, signature) ->
        verify_signature version (l1 ++ (k1, d1) :: l2 ++ (k2, d2) :: l3) signature key
        = Ok true ->
        forall d1',
          validate_payload zip_path manifest key fail_on_extra
          = (archive_hashes <- hash_zip_members zip_path ;;
             nm <- normalize_manifest_loop (l1 ++ (k1, d1') :: l2 ++ (k2, d2) :: l3) [] ;;
             reconcile version archive_hashes nm fail_on_extra))
  /\ (load_manifest (L := example_library) twice_listed_manifest
      = Ok (lit "1.0.0",
            [(lit "data/cfg.ini", lit "0000");
             (lit "data\cfg.ini", hex (toy_digest [x5b; x5d]))],
            toy_sign example_key
              [x7b; x22; x66; x69; x6c; x65; x73; x22; x3a; x7b;
               x22; x64; x61; x74; x61; x2f; x63; x66; x67; x2e; x69; x6e; x69; x22;
               x3a; x22; x30; x30; x30; x30; x22; x2c;
               x22; x64; x61; x74; x61; x5c; x5c; x63; x66; x67; x2e; x69; x6e; x69; x22;
               x3a; x22; x32; x35; x63; x39; x22; x7d; x2c;
               x22; x76; x65; x72; x73; x69; x6f; x6e; x22; x3a;
               x22; x31; x2e; x30; x2e; x30; x22; x7d])
      /\ hash_zip_members (L := example_library) twice_listed_zip
         = Ok [(lit "data/cfg.ini", hex (toy_digest [x5b; x5d]))]
      /\ lit "0000" <> hex (toy_digest [x5b; x5d])
      /\ validate_payload (L := example_library) twice_listed_zip twice_listed_manifest
           (Some example_key) true
         = Ok [Valid (lit "1.0.0")]).
Proof.
  repeat apply conj.
  - apply normalize_manifest_loop_errors.
  - intros zip_path manifest key fail_on_extra ah Hh p. unfold validate_payload.
    destruct (load_manifest manifest) as [[[version files] signature]|e] eqn:Hl; cbn [bind].
    2:{ intros H. injection H as ->. apply load_manifest_errors in Hl.
        cbn in Hl. intuition discriminate. }
    destruct (verify_signature version files signature key) as [[|]|e] eqn:Hv;
      cbn [bind negb]; try discriminate.
    2:{ intros H. injection H as ->. apply verify_signature_errors in Hv.
        intuition discriminate. }
    rewrite Hh. cbn [bind].
    destruct (normalize_manifest_loop files []) as [nm|e] eqn:Hn; cbn [bind].
    2:{ intros H. injection H as ->. apply normalize_manifest_loop_errors in Hn.
        discriminate. }
    intros H. apply reconcile_errors in H as [[l H]|[[l H]|[l H]]]; discriminate.
  - intros l1 k1 d1 l2 k2 d2 l3 p nm _ H1 H2 Hl3 Hn.
    change (l1 ++ (k1, d1) :: l2 ++ (k2, d2) :: l3)
      with (l1 ++ ((k1, d1) :: l2) ++ (k2, d2) :: l3) in Hn.
    rewrite app_assoc, normalize_manifest_loop_app in Hn.
    destruct (normalize_manifest_loop (l1 ++ (k1, d1) :: l2) []) as [acc|];
      cbn [bind] in Hn; [|discriminate].
    cbn [normalize_manifest_loop] in Hn. rewrite H2 in Hn. cbn [bind] in Hn.
    rewrite (normalize_manifest_loop_untouched _ _ _ p Hl3 Hn).
    rewrite dict_get_set. now rewrite str_eqb_refl.
  - intros zip_path manifest key fail_on_extra version signature
           l1 k1 d1 l2 k2 d2 l3 p _ H1 H2 Hl Hv d1'.
    unfold validate_payload. rewrite Hl. cbn [bind]. rewrite Hv. cbn [bind negb].
    now rewrite (normalize_manifest_loop_first_digest l1 l2 l3 k1 d1 d1' k2 d2 p H1 H2).
  - vm_compute. reflexivity.
  - vm_compute. reflexivity.
  - vm_compute. discriminate.
  - vm_compute. reflexivity.
Qed.

End TwiceListed.

(** ** Closed instances *)

Lemma signing_input_is_canonical_witness :
  signing_payload (lit "1.0.0") (collect_hashes (L := example_library) example_payload)
  = encode_utf8
      (lit "{" ++ encode_basestring (lit "files") ++ lit ":"
       ++ (lit "{"
           ++ join (lit ",")
                (List.map member_text
                   (sort_by fst (collect_hashes (L := example_library) example_payload)))
           ++ lit "}")
       ++ lit "," ++ encode_basestring (lit "version") ++ lit ":"
       ++ encode_basestring (lit "1.0.0") ++ lit "}").
Proof.
  edestruct (signing_input_is_canonical (L := example_library) example_manifest
               (lit "1.0.0") (collect_hashes (L := example_library) example_payload))
    as (_ & _ & H & _).
  - vm_compute. reflexivity.
  - exact H.
Defined.

Lemma validate_payload_success_iff_witness :
  validate_payload (L := example_library)
    (mkZipInfo (lit "notes.txt") false [] :: example_zip)
    example_manifest (Some example_key) false
  = Ok [Warning [lit "notes.txt"]; Valid (lit "1.0.0")].
Proof.
  edestruct (validate_payload_success_iff (L := example_library)
               (mkZipInfo (lit "notes.txt") false [] :: example_zip)
               example_manifest (Some example_key) false) as [_ H].
  edestruct H as (_ & _ & _ & Hwarn & _).
  - vm_compute. reflexivity.
  - vm_compute. reflexivity.
  - vm_compute. reflexivity.
  - vm_compute. reflexivity.
  - rewrite Hwarn; try (vm_compute; reflexivity); try reflexivity.
    vm_compute. discriminate.
Defined.

(** ** Worked examples *)

(** Round trip: the manifest built from a payload validates against the
    archive of that payload, also in strict mode. *)
Example round_trip :
  validate_payload (L := example_library) example_zip example_manifest
    (Some example_key) true
  = Ok [Valid (lit "1.0.0")].
Proof. vm_compute. reflexivity. Qed.

(** One changed byte in an archived file is a digest mismatch. *)
Example tampered_content :
  validate_payload (L := example_library)
    [mkZipInfo (lit "app.exe") false [x4d; x5a; x91];
     mkZipInfo (lit "data/cfg.ini") false [x5b; x5d]]
    example_manifest (Some example_key) false
  = Err (IntegrityMismatch [lit "app.exe"]).
Proof. vm_compute. reflexivity. Qed.

(** A file of the manifest that the archive lacks is reported by name. *)
Example missing_file :
  validate_payload (L := example_library)
    [mkZipInfo (lit "app.exe") false [x4d; x5a; x90]]
    example_manifest (Some example_key) false
  = Err (IntegrityMissing [lit "data/cfg.ini"]).
Proof. vm_compute. reflexivity. Qed.

(** An unlisted archive file: refused in strict mode. *)
Example extra_file_strict :
  validate_payload (L := example_library)
    (mkZipInfo (lit "notes.txt") false [] :: example_zip)
    example_manifest (Some example_key) true
  = Err (PolicyViolation [lit "notes.txt"]).
Proof. vm_compute. reflexivity. Qed.

(** Another key does not verify the signature. *)
Example wrong_key :
  validate_payload (L := example_library) example_zip example_manifest
    (Some [x6b; x65; x7a]) false
  = Err SignatureError.
Proof. vm_compute. reflexivity. Qed.

(** Two archive entries with one normalized name. *)
Example duplicate_archive_entry :
  hash_zip_members (L := example_library)
    [mkZipInfo (lit "a/b.txt") false [x01];
     mkZipInfo (lit "a\b.txt") false [x02]]
  = Err (DuplicateEntryError (lit "a/b.txt")).
Proof. vm_compute. reflexivity. Qed.

(** A stream longer than one chunk is read in three pieces. *)
Example three_chunks :
  sha256_file_loop 2 [x01; x02; x03; x04; x05] sha256_new
  = [x01; x02; x03; x04; x05].
Proof. reflexivity. Qed.

(** A control character is escaped, a non-ASCII letter is not. *)
Example escapes :
  dumps (JString [9; 34; 1; 233]) = [34; 92; 116; 92; 34; 92; 117; 48; 48; 48; 49; 233; 34].
Proof. reflexivity. Qed.

(** A lone surrogate cannot be encoded. *)
Example lone_surrogate :
  canonical_json (JString [55296]) = Err UnicodeEncodeError.
Proof. reflexivity. Qed.

(** * Further properties of the scripts *)

(** ** Path normalizer: what a result looks like, and composition *)

Lemma split_app (sep : codepoint) (a b : str) :
  split sep (a ++ sep :: b) = removelast (split sep a) ++
                              [last (split sep a) []] ++ split sep b.
Proof.
  induction a as [|x a IH]; cbn [app split].
  - now rewrite N.eqb_refl.
  - destruct (x =? sep) eqn:E.
    + rewrite IH. pose proof (split_nonempty sep a) as Hne.
      destruct (split sep a) as [|s0 rest]; [contradiction|]. reflexivity.
    + rewrite IH. pose proof (split_nonempty sep a) as Hne.
      destruct (split sep a) as [|s0 rest]; [contradiction|].
      destruct rest; reflexivity.
Qed.

Lemma split_app_segments (sep : codepoint) (a b : str) :
  split sep (a ++ sep :: b) = split sep a ++ split sep b.
Proof.
  rewrite split_app. pose proof (split_nonempty sep a) as Hne.
  rewrite app_assoc. now rewrite <- app_removelast_last.
Qed.

Lemma segments_app (a b : str) (sep : codepoint) :
  sep = SLASH \/ sep = BACKSLASH ->
  segments (a ++ sep :: b) = segments a ++ segments b.
Proof.
  intros Hsep. unfold segments, replace. rewrite map_app. cbn [List.map].
  replace (if sep =? BACKSLASH then SLASH else sep) with SLASH
    by (destruct Hsep; subst; reflexivity).
  rewrite split_app_segments. apply filter_app.
Qed.

Lemma join_app (sep : str) (l1 l2 : list str) :
  join sep (l1 ++ l2) =
  match l1, l2 with
  | [], _ => join sep l2
  | _, [] => join sep l1
  | _, _ => join sep l1 ++ sep ++ join sep l2
  end.
Proof.
  induction l1 as [|p l1 IH].
  - reflexivity.
  - destruct l2 as [|q l2]; [now rewrite app_nil_r|].
    destruct l1 as [|p' l1].
    + reflexivity.
    + change (join sep ((p :: p' :: l1) ++ q :: l2))
        with (p ++ sep ++ join sep ((p' :: l1) ++ q :: l2)).
      rewrite IH.
      change (join sep (p :: p' :: l1)) with (p ++ sep ++ join sep (p' :: l1)).
      now rewrite <- !app_assoc.
Qed.

Lemma join_segments_nil (path : str) :
  join (lit "/") (segments path) = [] <-> segments path = [].
Proof.
  split; [|now intros ->].
  destruct (segments path) as [|s rest] eqn:E; [reflexivity|].
  assert (Hs : s <> []).
  { apply (segments_clean path). rewrite E. now left. }
  destruct rest; cbn; destruct s; try contradiction; discriminate.
Qed.

(** X1. The shape of a path that [normalize_relative_path] returns: none
    of its segments is [..], it does not begin and does not end with a
    slash, and it has no doubled slash.  This is all the function checks: a
    drive prefix is a segment like any other, so a path with a drive letter
    is returned with it, only its separators changed. *)
Theorem normalize_result_shape (path result : str) :
  normalize_relative_path path = Ok result ->
  (~ In (lit "..") (split SLASH result)
   /\ hd_error result <> Some SLASH
   /\ last result 0 <> SLASH
   /\ (forall a b, result <> a ++ SLASH :: SLASH :: b))
  /\ normalize_relative_path (lit "C:\Windows\System32\evil.dll")
     = Ok (lit "C:/Windows/System32/evil.dll").
Proof.
  intros Hn. split; [|vm_compute; reflexivity].
  rewrite normalize_relative_path_unfold in Hn.
  destruct (existsb _ (segments path)) eqn:Hex; [discriminate|].
  injection Hn as <-.
  assert (Hno : ~ In (lit "..") (segments path)).
  { intros H. apply existsb_dotdot in H. congruence. }
  assert (Hclean : Forall (fun seg => ~ In SLASH seg) (segments path)).
  { apply Forall_forall. intros seg Hs. now apply (segments_clean path). }
  assert (Hsplit : segments path <> [] ->
                   split SLASH (join (lit "/") (segments path)) = segments path).
  { intros Hne. change (lit "/") with [SLASH]. now apply split_join. }
  destruct (segments path) as [|s rest] eqn:E.
  { cbn. repeat split; try discriminate; try (intuition discriminate).
    intros [|? ?] b; discriminate. }
  rewrite <- E in *. specialize (Hsplit ltac:(rewrite E; discriminate)).
  assert (Hseg : forall seg, In seg (split SLASH (join (lit "/") (segments path))) ->
                             seg <> []).
  { rewrite Hsplit. intros seg Hs. now apply (segments_clean path). }
  repeat split.
  - now rewrite Hsplit.
  - destruct (join (lit "/") (segments path)) as [|c r] eqn:Ej; [discriminate|].
    intros Hc. injection Hc as ->. apply (Hseg []); [|reflexivity].
    change (split SLASH (SLASH :: r)) with ([] :: split SLASH r). now left.
  - intros Hlast. destruct (join (lit "/") (segments path)) as [|c r] eqn:Ej.
    { cbn in Hlast. discriminate. }
    rewrite <- Ej in *. clear Ej.
    assert (Hdec : exists pre, join (lit "/") (segments path) = pre ++ [SLASH]).
    { exists (removelast (join (lit "/") (segments path))).
      rewrite <- Hlast. apply app_removelast_last.
      intros Hnil. rewrite Hnil in Hlast. discriminate. }
    destruct Hdec as [pre Hpre]. apply (Hseg []); [|reflexivity].
    rewrite Hpre. rewrite split_app_segments. apply in_or_app. right. now left.
  - intros a b Hab. apply (Hseg []); [|reflexivity].
    rewrite Hab, split_app_segments. apply in_or_app. right.
    change (split SLASH (SLASH :: b)) with ([] :: split SLASH b). now left.
Qed.

Lemma normalize_result_shape_witness :
  ~ In (lit "..") (split SLASH (lit "etc/app/cfg.ini"))
  /\ hd_error (lit "etc/app/cfg.ini") <> Some SLASH
  /\ last (lit "etc/app/cfg.ini") 0 <> SLASH
  /\ (forall a b, lit "etc/app/cfg.ini" <> a ++ SLASH :: SLASH :: b).
Proof.
  apply (normalize_result_shape (lit "/etc\.\app//cfg.ini/")).
  vm_compute. reflexivity.
Defined.

(** X2. Normalizing [a], a separator and [b] is normalizing [a] and [b]
    and putting their results together: it fails when either part fails,
    and otherwise the two results are joined by one slash, an empty result
    on either side leaving the other one alone.  Both separators do. *)
Theorem normalize_relative_path_app (a b : str) (sep : codepoint) :
  sep = SLASH \/ sep = BACKSLASH ->
  normalize_relative_path (a ++ sep :: b) =
  match normalize_relative_path a, normalize_relative_path b with
  | Ok pa, Ok pb =>
      Ok (match pa, pb with
          | [], _ => pb
          | _, [] => pa
          | _, _ => pa ++ SLASH :: pb
          end)
  | _, _ => Err PathSecurityError
  end.
Proof.
  intros Hsep. rewrite !normalize_relative_path_unfold.
  rewrite (segments_app a b sep Hsep), existsb_app.
  destruct (existsb _ (segments a)); cbn [orb]; [reflexivity|].
  destruct (existsb _ (segments b)); [reflexivity|].
  rewrite join_app. f_equal.
  pose proof (join_segments_nil a) as Ha. pose proof (join_segments_nil b) as Hb.
  destruct (segments a) as [|sa ra] eqn:Ea.
  { cbn [join]. reflexivity. }
  destruct (segments b) as [|sb rb] eqn:Eb.
  { change (join (lit "/") []) with (@nil codepoint).
    now destruct (join (lit "/") (sa :: ra)). }
  destruct (join (lit "/") (sa :: ra)) eqn:Eja.
  { destruct Ha as [Ha _]. now discriminate Ha. }
  destruct (join (lit "/") (sb :: rb)) eqn:Ejb.
  { destruct Hb as [Hb _]. now discriminate Hb. }
  reflexivity.
Qed.

Lemma normalize_relative_path_app_witness :
  normalize_relative_path (lit "bin\.\" ++ BACKSLASH :: lit "tools//run.exe")
  = Ok (lit "bin/tools/run.exe").
Proof.
  rewrite (normalize_relative_path_app (lit "bin\.\") (lit "tools//run.exe") BACKSLASH).
  - vm_compute. reflexivity.
  - now right.
Defined.

(** ** Canonical serializer: the characters of the text, and when encoding fails *)

Lemma hex_digit_range (n : N) : n < 16 -> 32 <= hex_digit n < 128.
Proof. intros H. unfold hex_digit. destruct (N.ltb_spec n 10); lia. Qed.

Lemma escape_char_chars (c x : codepoint) :
  In x (escape_char c) -> 32 <= x /\ (x < 128 \/ x = c).
Proof.
  unfold escape_char.
  repeat match goal with
         | |- context [?a =? ?b] => destruct (N.eqb_spec a b)
         end;
    try (cbn; intros Hin; decompose [or] Hin; subst; try contradiction; lia).
  destruct (N.ltb_spec c 32) as [Hlt|Hge].
  - assert (H1 : c / 16 < 16) by (apply N.Div0.div_lt_upper_bound; lia).
    assert (H2 : c mod 16 < 16) by (apply N.mod_lt; lia).
    pose proof (hex_digit_range _ H1) as R1. pose proof (hex_digit_range _ H2) as R2.
    cbn. intros Hin. decompose [or] Hin; subst; try contradiction; lia.
  - cbn. intros [<-|[]]. lia.
Qed.

Lemma encode_basestring_chars (s : str) (x : codepoint) :
  In x (encode_basestring s) -> 32 <= x /\ (x < 128 \/ In x s).
Proof.
  unfold encode_basestring. cbn [app]. intros [<-|H]; [lia|].
  apply in_app_or in H as [H|[<-|[]]]; [|lia].
  apply in_flat_map in H as (c & Hc & Hx).
  apply escape_char_chars in Hx as [H32 [Hlt | ->]]; [tauto|].
  split; [assumption|now right].
Qed.

Lemma encode_basestring_keeps (s : str) (x : codepoint) :
  128 <= x -> In x s -> In x (encode_basestring s).
Proof.
  intros Hx Hin. unfold encode_basestring. cbn [app]. right.
  apply in_or_app. left. apply in_flat_map. exists x. split; [assumption|].
  rewrite escape_char_literal by lia. now left.
Qed.

Lemma in_join_part (sep : str) (parts : list str) (p : str) (x : codepoint) :
  In p parts -> In x p -> In x (join sep parts).
Proof.
  induction parts as [|q parts IH]; [intros []|].
  intros [->|Hin] Hx.
  - destruct parts; cbn [join]; [assumption|]. apply in_or_app. now left.
  - destruct parts as [|q' parts]; [destruct Hin|].
    change (join sep (q :: q' :: parts)) with (q ++ sep ++ join sep (q' :: parts)).
    apply in_or_app. right. apply in_or_app. right. now apply IH.
Qed.

Lemma lit_ascii_chars (x : codepoint) :
  In x (lit "{}:,") -> 32 <= x < 128.
Proof. cbn. intros H. decompose [or] H; subst; try contradiction; lia. Qed.

(** The code points of the text of an unsigned manifest. *)
Lemma unsigned_manifest_chars (version : str) (files : dict str) (x : codepoint) :
  In x (dumps (unsigned_manifest version files)) ->
  32 <= x
  /\ (x < 128 \/ In x version
      \/ exists k d, In (k, d) files /\ (In x k \/ In x d)).
Proof.
  rewrite dumps_unsigned_manifest, dumps_files_json.
  assert (Hp : In x (lit "{}:,") -> 32 <= x /\ (x < 128 \/
              In x version \/ exists k d, In (k, d) files /\ (In x k \/ In x d))).
  { intros H. apply lit_ascii_chars in H. lia. }
  assert (He : forall s, (forall y, In y s -> 128 <= y -> In y version \/
                 exists k d, In (k, d) files /\ (In y k \/ In y d)) ->
              In x (encode_basestring s) -> 32 <= x /\ (x < 128 \/
              In x version \/ exists k d, In (k, d) files /\ (In x k \/ In x d))).
  { intros s Hs H. apply encode_basestring_chars in H as [H32 [Hlt|Hin]]; [lia|].
    split; [assumption|]. destruct (N.lt_ge_cases x 128); [now left|right; now apply Hs]. }
  assert (Hm : forall k d, In (k, d) files -> In x (member_text (k, d)) ->
              32 <= x /\ (x < 128 \/
              In x version \/ exists k d, In (k, d) files /\ (In x k \/ In x d))).
  { intros k d Hkd Hx. unfold member_text in Hx. cbn [fst snd] in Hx.
    rewrite !in_app_iff in Hx. destruct Hx as [Hx|[Hx|Hx]].
    - apply (He k); [|assumption]. intros y Hy _. right. exists k, d. tauto.
    - apply Hp. cbn in *. tauto.
    - apply (He d); [|assumption]. intros y Hy _. right. exists k, d. tauto. }
  rewrite !in_app_iff. intros H.
  destruct H as [H|[H|[H|[[H|[H|H]]|[H|[H|[H|[H|H]]]]]]]].
  - apply Hp. cbn in *. tauto.
  - apply (He (lit "files")); [|assumption]. cbn. intros y Hy Hge. lia.
  - apply Hp. cbn in *. tauto.
  - apply Hp. cbn in *. tauto.
  - apply in_join in H as [H|(p & Hpin & Hx)].
    { apply Hp. cbn in *. tauto. }
    apply in_map_iff in Hpin as ([k d] & <- & Hkd).
    apply (Permutation_in _ (sort_by_perm fst files)) in Hkd.
    now apply (Hm k d).
  - apply Hp. cbn in *. tauto.
  - apply Hp. cbn in *. tauto.
  - apply (He (lit "version")); [|assumption]. cbn. intros y Hy Hge. lia.
  - apply Hp. cbn in *. tauto.
  - apply (He version); [|assumption]. intros y Hy _. now left.
  - apply Hp. cbn in *. tauto.
Qed.

Lemma unsigned_manifest_keeps (version : str) (files : dict str) (x : codepoint) :
  128 <= x ->
  In x version \/ (exists k d, In (k, d) files /\ (In x k \/ In x d)) ->
  In x (dumps (unsigned_manifest version files)).
Proof.
  intros Hx H. rewrite dumps_unsigned_manifest, dumps_files_json.
  rewrite !in_app_iff.
  destruct H as [H|(k & d & Hkd & H)].
  - do 7 right. left. now apply encode_basestring_keeps.
  - do 3 right. left. right. left.
    apply (in_join_part _ _ (member_text (k, d))).
    + apply in_map. apply (Permutation_in _ (Permutation_sym (sort_by_perm fst files))).
      assumption.
    + unfold member_text. cbn [fst snd]. rewrite !in_app_iff. destruct H as [H|H].
      * left. now apply encode_basestring_keeps.
      * right. right. now apply encode_basestring_keeps.
Qed.

Lemma encode_utf8_ok_iff (s : str) :
  (exists bs, encode_utf8 s = Ok bs) <-> Forall (fun c => utf8_char c <> None) s.
Proof.
  induction s as [|c s IH]; cbn [encode_utf8].
  - split; [constructor|now eexists].
  - destruct (utf8_char c) as [bs|] eqn:E.
    + split.
      * intros [out H]. constructor; [congruence|]. apply IH.
        destruct (encode_utf8 s); [now eexists|discriminate].
      * intros H. inversion H as [|? ? _ Hs]; subst. apply IH in Hs as [out ->].
        cbn. now eexists.
    + split; [intros [out H]; discriminate|].
      intros H. inversion H; subst. congruence.
Qed.

Lemma utf8_char_ascii (c : codepoint) : c < 128 -> utf8_char c <> None.
Proof. intros H. unfold utf8_char. destruct (N.ltb_spec c 128); [discriminate|lia]. Qed.

(** X3. The code points of the canonical text of an unsigned manifest.
    None of them is below U+0020, whatever the version, the paths and the
    digests contain: the serializer escapes these.  A code point from
    U+0080 on occurs in the text exactly when it occurs in the version, in
    a path or in a digest: none is escaped and none is added, the line
    separators U+0085, U+2028 and U+2029 included. *)
Theorem canonical_text_characters (version : str) (files : dict str) :
  Forall (fun c => 32 <= c) (dumps (unsigned_manifest version files))
  /\ (forall c, 128 <= c ->
        (In c (dumps (unsigned_manifest version files)) <->
         In c version \/ exists k d, In (k, d) files /\ (In c k \/ In c d))).
Proof.
  split.
  - apply Forall_forall. intros x Hx. now apply unsigned_manifest_chars in Hx.
  - intros c Hc. split.
    + intros H. apply unsigned_manifest_chars in H as [_ [H|H]]; [lia|exact H].
    + now apply unsigned_manifest_keeps.
Qed.

Lemma encode_utf8_err_inv (s : str) (e : error) :
  encode_utf8 s = Err e -> exists c, In c s /\ utf8_char c = None.
Proof.
  induction s as [|c s IH]; cbn [encode_utf8]; [discriminate|].
  destruct (utf8_char c) as [bs|] eqn:E.
  - destruct (encode_utf8 s) as [out|e0]; cbn [bind]; [discriminate|].
    intros He. destruct (IH He) as (c' & Hin & Hc').
    exists c'. split; [now right|assumption].
  - intros _. exists c. split; [now left|assumption].
Qed.

(** X4. [canonical_json] of an unsigned manifest raises exactly when the
    version, a path or a digest holds a code point that UTF-8 cannot
    encode (a surrogate); the error is then the encoding error, and
    otherwise bytes are returned. *)
Theorem canonical_json_fails_iff (version : str) (files : dict str) :
  let unencodable :=
    exists c, utf8_char c = None
              /\ (In c version \/ exists k d, In (k, d) files /\ (In c k \/ In c d)) in
  (canonical_json (unsigned_manifest version files) = Err UnicodeEncodeError
   <-> unencodable)
  /\ ((exists bs, canonical_json (unsigned_manifest version files) = Ok bs)
      <-> ~ unencodable).
Proof.
  cbv zeta. unfold canonical_json.
  pose proof (unsigned_manifest_chars version files) as Hchars.
  pose proof (unsigned_manifest_keeps version files) as Hkeeps.
  set (text := dumps (unsigned_manifest version files)) in *. clearbody text.
  set (content := fun c => In c version
                           \/ exists k d, In (k, d) files /\ (In c k \/ In c d)) in *.
  assert (Hfail : forall e, encode_utf8 text = Err e ->
                            exists c, utf8_char c = None /\ content c).
  { intros e He. apply encode_utf8_err_inv in He as (c & Hin & Hc).
    exists c. split; [assumption|].
    destruct (Hchars c Hin) as [_ [Hlt|Hcont]]; [|exact Hcont].
    exfalso. exact (utf8_char_ascii c Hlt Hc). }
  assert (Hsucc : forall bs, encode_utf8 text = Ok bs ->
                             ~ exists c, utf8_char c = None /\ content c).
  { intros bs Hbs (c & Hc & Hcont).
    assert (Hall : Forall (fun c => utf8_char c <> None) text).
    { apply encode_utf8_ok_iff. now exists bs. }
    rewrite Forall_forall in Hall.
    destruct (N.lt_ge_cases c 128) as [Hlt|Hge].
    - exact (utf8_char_ascii c Hlt Hc).
    - exact (Hall c (Hkeeps c Hge Hcont) Hc). }
  destruct (encode_utf8 text) as [bs|e] eqn:E.
  - split; split.
    + discriminate.
    + intros Hun. exfalso. exact (Hsucc bs eq_refl Hun).
    + intros _. exact (Hsucc bs eq_refl).
    + intros _. now exists bs.
  - pose proof (encode_utf8_errors text e E) as ->.
    split; split.
    + intros _. exact (Hfail _ eq_refl).
    + reflexivity.
    + intros [bs Hbs]. discriminate.
    + intros Hno. exfalso. exact (Hno (Hfail _ eq_refl)).
Qed.

(** ** Manifest loading: other members, and manifests the builder wrote *)

Section LoadingMore.

Context {L : Library}.

Lemma load_manifest_dict_other (members : dict json) (k : str) (v : json) :
  k <> lit "version" -> k <> lit "files" -> k <> lit "signature" ->
  load_manifest_dict (dict_set members k v) = load_manifest_dict members.
Proof.
  intros H1 H2 H3. unfold load_manifest_dict. rewrite !dict_get_set.
  apply str_eqb_neq in H1, H2, H3. now rewrite H1, H2, H3.
Qed.

(** X5. A member of the manifest document other than [version], [files]
    and [signature] is never read: adding one, or changing its value,
    changes neither what [load_manifest] returns nor the outcome of
    [validate_payload]. *)
Theorem load_manifest_ignores_other_members (members : dict json) (k : str) (v : json) :
  k <> lit "version" -> k <> lit "files" -> k <> lit "signature" ->
  load_manifest (JObject (dict_set members k v)) = load_manifest (JObject members)
  /\ forall zip_path key fail_on_extra,
       validate_payload zip_path (JObject (dict_set members k v)) key fail_on_extra
       = validate_payload zip_path (JObject members) key fail_on_extra.
Proof.
  intros H1 H2 H3.
  assert (Hl : load_manifest (JObject (dict_set members k v))
               = load_manifest (JObject members)).
  { cbn [load_manifest]. now apply load_manifest_dict_other. }
  split; [exact Hl|]. intros zip_path key fail_on_extra.
  unfold validate_payload. now rewrite Hl.
Qed.

(** The three members of a manifest the builder wrote. *)
Lemma sign_files_members (version : str) (files : dict str) (key : privkey)
    (manifest : json) (manifest_bytes : bytes) :
  sign_files version files (Some key) = Ok (manifest, manifest_bytes) ->
  canonical_json (unsigned_manifest version files) = Ok manifest_bytes
  /\ manifest = JObject [(lit "version", JString version);
                         (lit "files", files_json files);
                         (lit "signature",
                          JString (b64encode (rsa_sign key manifest_bytes)))].
Proof.
  unfold sign_files, unsigned_manifest.
  destruct (canonical_json _) as [bs|]; cbn [bind]; [|discriminate].
  intros H. injection H as <- <-. split; reflexivity.
Qed.

Lemma load_files_of_files_json (files : dict str) :
  NoDup (keys files) ->
  load_files (List.map (fun kv => (fst kv, JString (snd kv))) files) [] = Ok files.
Proof.
  intros Hnd. rewrite load_files_spec.
  assert (Hs : string_entries (List.map (fun kv => (fst kv, JString (snd kv))) files)
               = Some files) by (now apply string_entries_some).
  rewrite Hs. f_equal. now apply (dict_of_nodup files).
Qed.

Lemma load_manifest_signed (version : str) (files : dict str) (signature_text : str) :
  load_manifest (JObject [(lit "version", JString version);
                          (lit "files", files_json files);
                          (lit "signature", JString signature_text)])
  = if strip_is_empty version then Err StructuralVersion
    else match b64decode signature_text with
         | None => Err EncodingError
         | Some signature =>
             files' <- load_files (List.map (fun kv => (fst kv, JString (snd kv))) files) [] ;;
             Ok (version, files', signature)
         end.
Proof. reflexivity. Qed.

(** X6. What the builder writes and what the loader accepts.  A manifest
    signed for a version with a character that is not whitespace loads back
    to the same version, the same files map and the signature that was
    computed, provided base64 decoding undoes the base64 encoding of that
    signature.  A manifest
    signed for an empty or all-whitespace version is written all the same,
    and the loader refuses it. *)
Theorem load_manifest_of_sign_files (version : str) (files : dict str) (key : privkey)
    (manifest : json) (manifest_bytes : bytes) :
  sign_files version files (Some key) = Ok (manifest, manifest_bytes) ->
  (strip_is_empty version = true -> load_manifest manifest = Err StructuralVersion)
  /\ (strip_is_empty version = false ->
      NoDup (keys files) ->
      b64decode (b64encode (rsa_sign key manifest_bytes))
      = Some (rsa_sign key manifest_bytes) ->
      load_manifest manifest = Ok (version, files, rsa_sign key manifest_bytes)).
Proof.
  intros Hs. apply sign_files_members in Hs as [_ ->].
  rewrite load_manifest_signed. split.
  - now intros ->.
  - intros -> Hnd Hb64. now rewrite Hb64, load_files_of_files_json.
Qed.

(** X7. A manifest the builder wrote, given to [validate_payload].  When
    the version it was signed for is empty or all whitespace, the run ends
    with the version error for every archive and every key.  When the
    version has a character that is not whitespace, the keys of the files
    map are distinct, base64 decoding undoes the base64 encoding of the
    signature and the public key accepts what the private key signed, the
    manifest passes the first two stages for every archive: what is left is
    the comparison of the archive with the files map that was signed. *)
Theorem validate_payload_of_sign_files (version : str) (files : dict str)
    (private_key : privkey) (public_key : pubkey)
    (manifest : json) (manifest_bytes : bytes)
    (zip_path : list ZipInfo) (fail_on_extra : bool) :
  sign_files version files (Some private_key) = Ok (manifest, manifest_bytes) ->
  (strip_is_empty version = true ->
   forall public_key_path,
     validate_payload zip_path manifest public_key_path fail_on_extra
     = Err StructuralVersion)
  /\ (strip_is_empty version = false ->
      NoDup (keys files) ->
      b64decode (b64encode (rsa_sign private_key manifest_bytes))
      = Some (rsa_sign private_key manifest_bytes) ->
      rsa_verify public_key (rsa_sign private_key manifest_bytes) manifest_bytes = true ->
      validate_payload zip_path manifest (Some public_key) fail_on_extra
      = (archive_hashes <- hash_zip_members zip_path ;;
         nm <- normalize_manifest_loop files [] ;;
         reconcile version archive_hashes nm fail_on_extra)).
Proof.
  intros Hs. apply sign_files_members in Hs as [Hbytes ->]. split.
  - intros Hv public_key_path.
    unfold validate_payload. now rewrite load_manifest_signed, Hv.
  - intros Hv Hnd Hb64 Hkey.
    unfold validate_payload. rewrite load_manifest_signed, Hv, Hb64.
    rewrite load_files_of_files_json by assumption. cbn [bind].
    unfold verify_signature, signing_payload. rewrite Hbytes. cbn [bind].
    now rewrite Hkey.
Qed.

End LoadingMore.

(** ** Archive map and reconciliation: invariants and consequences *)

Lemma normalize_fixed (path result : str) :
  normalize_relative_path path = Ok result ->
  normalize_relative_path result = Ok result.
Proof.
  intros Hn. rewrite normalize_relative_path_unfold in Hn.
  destruct (existsb _ (segments path)) eqn:Hex; [discriminate|].
  injection Hn as <-.
  rewrite normalize_relative_path_unfold, segments_of_clean.
  - now rewrite Hex.
  - apply Forall_forall. intros seg. apply segments_clean.
Qed.

Lemma no_elements_nil {A} (l : list A) : (forall x, ~ In x l) -> l = [].
Proof.
  destruct l as [|a l]; [reflexivity|]. intros H. exfalso. apply (H a). now left.
Qed.

Section ArchiveMore.

Context {L : Library}.

Lemma hash_zip_loop_invariant (infos : list ZipInfo) (hashes archive_hashes : dict str) :
  hash_zip_loop infos hashes = Ok archive_hashes ->
  (NoDup (keys hashes) -> NoDup (keys archive_hashes))
  /\ (forall p d, In (p, d) archive_hashes ->
        In (p, d) hashes
        \/ exists info, In info infos /\ is_dir info = false
                        /\ normalize_relative_path (filename info) = Ok p
                        /\ d = hex (sha256 (content info)))
  /\ List.length archive_hashes
     = (List.length hashes + List.length (members_of infos))%nat.
Proof.
  revert hashes; induction infos as [|info infos IH]; intros hashes;
    cbn [hash_zip_loop members_of filter].
  - intros H. injection H as <-. cbn. repeat split; try tauto. lia.
  - fold (members_of infos).
    destruct (is_dir info) eqn:Ed; cbn [negb].
    + intros H. apply IH in H as (Hnd & Hval & Hlen). repeat split; try assumption.
      intros p d Hin. apply Hval in Hin as [Hin|(i & Hi & Hrest)]; [now left|].
      right. exists i. split; [now right|assumption].
    + destruct (normalize_relative_path (filename info)) as [q|] eqn:Hn;
        cbn [bind]; [|discriminate].
      destruct (dict_mem hashes q) eqn:Hm; [discriminate|].
      assert (Hfresh : ~ In q (keys hashes)).
      { intros Hin. apply dict_mem_in in Hin. congruence. }
      intros H. apply IH in H as (Hnd & Hval & Hlen). repeat split.
      * intros Hh. apply Hnd. now apply dict_set_nodup.
      * intros p d Hin. apply Hval in Hin as [Hin|(i & Hi & Hrest)].
        -- apply in_dict_set in Hin as [Heq|Hin]; [|now left].
           injection Heq as -> ->. right. exists info.
           repeat split; [now left|assumption..|apply zip_member_digest_hex].
        -- right. exists i. split; [now right|assumption].
      * rewrite Hlen, dict_set_new by assumption. rewrite length_app. cbn. lia.
Qed.

(** X8. The map [hash_zip_members] returns: its keys are pairwise
    distinct, each key is a normalized path (normalizing it again returns
    it, and it has no [..] segment), each value is the SHA-256 digest in
    hexadecimal of a non-directory entry whose name normalizes to the key,
    and there is one pair per non-directory entry. *)
Theorem hash_zip_members_result (archive : list ZipInfo) (archive_hashes : dict str) :
  hash_zip_members archive = Ok archive_hashes ->
  NoDup (keys archive_hashes)
  /\ (forall p, In p (keys archive_hashes) ->
        normalize_relative_path p = Ok p /\ ~ In (lit "..") (split SLASH p))
  /\ (forall p d, In (p, d) archive_hashes ->
        exists info, In info archive /\ is_dir info = false
                     /\ normalize_relative_path (filename info) = Ok p
                     /\ d = hex (sha256 (content info)))
  /\ List.length archive_hashes = List.length (members_of archive).
Proof.
  unfold hash_zip_members. intros H.
  apply hash_zip_loop_invariant in H as (Hnd & Hval & Hlen).
  assert (Hval' : forall p d, In (p, d) archive_hashes ->
        exists info, In info archive /\ is_dir info = false
                     /\ normalize_relative_path (filename info) = Ok p
                     /\ d = hex (sha256 (content info))).
  { intros p d Hin. apply Hval in Hin as [[]|Hin]. exact Hin. }
  repeat split.
  - apply Hnd. constructor.
  - apply in_map_iff in H as ([p' d] & Hp & Hin). cbn in Hp. subst p'.
    apply Hval' in Hin as (info & _ & _ & Hn & _). now apply normalize_fixed in Hn.
  - apply in_map_iff in H as ([p' d] & Hp & Hin). cbn in Hp. subst p'.
    apply Hval' in Hin as (info & _ & _ & Hn & _).
    rewrite normalize_relative_path_unfold in Hn.
    destruct (existsb _ (segments (filename info))) eqn:Hex; [discriminate|].
    injection Hn as <-.
    destruct (segments (filename info)) as [|s rest] eqn:E.
    { cbn. intuition discriminate. }
    rewrite <- E in *. change (lit "/") with [SLASH]. rewrite split_join.
    + intros Hd. apply existsb_dotdot in Hd. congruence.
    + rewrite E. discriminate.
    + apply Forall_forall. intros seg Hs. now apply (segments_clean (filename info)).
  - exact Hval'.
  - exact Hlen.
Qed.

Lemma dict_get_some_in_keys {V} (d : dict V) (k : str) :
  In k (keys d) -> exists v, dict_get d k = Some v.
Proof.
  intros Hin. destruct (dict_get d k) as [v|] eqn:E; [now exists v|].
  apply dict_get_none in E. contradiction.
Qed.

(** X9. What a successful run guarantees.  When [validate_payload]
    returns, every path listed in the manifest is present in the archive
    after normalization, and every entry of the normalized manifest has, in
    the archive, a digest whose lower-case form is the digest stored for
    it; with [fail_on_extra] the archive holds no other path. *)
Theorem validate_payload_success_sound (zip_path : list ZipInfo) (manifest : json)
    (key : option pubkey) (fail_on_extra : bool) (printed : list output) :
  validate_payload zip_path manifest key fail_on_extra = Ok printed ->
  exists version files signature archive_hashes nm,
    load_manifest manifest = Ok (version, files, signature)
    /\ hash_zip_members zip_path = Ok archive_hashes
    /\ normalize_manifest_loop files [] = Ok nm
    /\ (forall rel_path digest, In (rel_path, digest) files ->
          exists p actual, normalize_relative_path rel_path = Ok p
                           /\ dict_get archive_hashes p = Some actual)
    /\ (forall p expected, dict_get nm p = Some expected ->
          exists actual, dict_get archive_hashes p = Some actual
                         /\ str_lower actual = expected)
    /\ (fail_on_extra = true ->
        forall p, In p (keys archive_hashes) <-> In p (keys nm))
    /\ (fail_on_extra = true -> printed = [Valid version]).
Proof.
  intros H. apply validate_payload_ok_inv in H
    as (version & files & signature & ah & nm & Hl & Hv & Hh & Hn & Hr).
  exists version, files, signature, ah, nm.
  rewrite reconcile_cases in Hr.
  destruct (nonempty (missing_of nm ah)) eqn:E1; [discriminate|].
  destruct (nonempty (mismatched_of nm ah)) eqn:E2; [discriminate|].
  destruct (fail_on_extra && nonempty (extra_of ah nm)) eqn:E3; [discriminate|].
  apply nonempty_false in E1, E2.
  destruct (normalize_manifest_loop_spec _ _ _ Hn) as (Hnd & Hval & Hkeys & _).
  specialize (Hnd (NoDup_nil _)).
  assert (Hpresent : forall p, In p (keys nm) -> In p (keys ah)).
  { intros p Hp.
    destruct (in_dec (list_eq_dec N.eq_dec) p (keys ah)) as [Hin|Hout]; [assumption|].
    assert (Hm : In p (missing_of nm ah)) by (apply missing_of_in; tauto).
    rewrite E1 in Hm. destruct Hm. }
  split; [assumption|]. split; [assumption|]. split; [assumption|].
  split; [|split; [|split]].
  - intros rel_path digest Hin.
    destruct (Hkeys _ _ Hin) as (p & Hp & Hpk).
    destruct (dict_get_some_in_keys ah p (Hpresent p Hpk)) as [a Ha].
    now exists p, a.
  - intros p e Hget.
    assert (Hpk : In p (keys nm)).
    { apply dict_get_in in Hget. change p with (fst (p, e)). now apply in_map. }
    destruct (dict_get_some_in_keys ah p (Hpresent p Hpk)) as [a Ha].
    exists a. split; [assumption|].
    destruct (str_eqb (str_lower a) e) eqn:Eq; [now apply str_eqb_eq|].
    apply str_eqb_neq in Eq.
    assert (Hm : In p (mismatched_of nm ah)).
    { apply mismatched_of_in. exists e, a. repeat split; try assumption.
      now apply dict_get_in. }
    rewrite E2 in Hm. destruct Hm.
  - intros Hflag p. subst fail_on_extra. cbn [andb] in E3.
    apply nonempty_false in E3. split; [|apply Hpresent].
    intros Hp.
    destruct (in_dec (list_eq_dec N.eq_dec) p (keys nm)) as [Hin|Hout]; [assumption|].
    assert (Hx : In p (extra_of ah nm)) by (apply extra_of_in; tauto).
    rewrite E3 in Hx. destruct Hx.
  - intros ->. cbn [andb] in E3. rewrite E3 in Hr. now injection Hr as <-.
Qed.

(** X10. Strict mode only adds a failure.  A run that succeeds with
    [fail_on_extra] succeeds without it and prints the same; a run that
    fails without the flag fails with it, with the same error; and the only
    error the flag can add is the policy error. *)
Theorem fail_on_extra_only_adds_failures (zip_path : list ZipInfo) (manifest : json)
    (key : option pubkey) :
  (forall printed,
      validate_payload zip_path manifest key true = Ok printed ->
      validate_payload zip_path manifest key false = Ok printed)
  /\ (forall e,
        validate_payload zip_path manifest key false = Err e ->
        validate_payload zip_path manifest key true = Err e)
  /\ (forall e printed,
        validate_payload zip_path manifest key true = Err e ->
        validate_payload zip_path manifest key false = Ok printed ->
        exists extra version,
          e = PolicyViolation extra /\ extra <> []
          /\ printed = [Warning extra; Valid version]).
Proof.
  unfold validate_payload.
  destruct (load_manifest manifest) as [[[version files] signature]|e0]; cbn [bind].
  2:{ repeat split; try discriminate; congruence. }
  destruct (verify_signature version files signature key) as [[|]|e0]; cbn [bind negb].
  2,3: repeat split; try discriminate; congruence.
  destruct (hash_zip_members zip_path) as [ah|e0]; cbn [bind].
  2:{ repeat split; try discriminate; congruence. }
  destruct (normalize_manifest_loop files []) as [nm|e0]; cbn [bind].
  2:{ repeat split; try discriminate; congruence. }
  rewrite !reconcile_cases.
  destruct (nonempty (missing_of nm ah)).
  { repeat split; try discriminate; congruence. }
  destruct (nonempty (mismatched_of nm ah)).
  { repeat split; try discriminate; congruence. }
  cbn [andb].
  destruct (nonempty (extra_of ah nm)) eqn:E.
  - repeat split; try discriminate.
    intros e printed He Hp. injection He as <-. injection Hp as <-.
    exists (extra_of ah nm), version. repeat split. now apply nonempty_true.
  - repeat split; try discriminate; congruence.
Qed.

End ArchiveMore.

(** ** Round trip on maps *)

Section RoundTrip.

Context {L : Library}.

Lemma normalize_manifest_loop_fixed (items acc : dict str) :
  (forall k d, In (k, d) items ->
               normalize_relative_path k = Ok k /\ str_lower d = d) ->
  normalize_manifest_loop items acc
  = Ok (fold_left (fun d kv => dict_set d (fst kv) (snd kv)) items acc).
Proof.
  revert acc; induction items as [|[k d] items IH]; intros acc Hfix;
    cbn [normalize_manifest_loop fold_left fst snd]; [reflexivity|].
  destruct (Hfix k d (or_introl eq_refl)) as [-> ->]. cbn [bind].
  apply IH. intros k' d' Hin. apply Hfix. now right.
Qed.

(** Two maps with the same lookups reconcile without a finding. *)
Lemma reconcile_same_mapping (version : str) (ah nm : dict str) (fail_on_extra : bool) :
  NoDup (keys nm) ->
  (forall p, dict_get ah p = dict_get nm p) ->
  (forall p d, In (p, d) nm -> str_lower d = d) ->
  reconcile version ah nm fail_on_extra = Ok [Valid version].
Proof.
  intros Hnd Hsame Hlow.
  assert (Hkeys : forall p, In p (keys ah) <-> In p (keys nm)).
  { intros p. rewrite <- !dict_mem_in. unfold dict_mem. now rewrite Hsame. }
  assert (H1 : missing_of nm ah = []).
  { apply no_elements_nil. intros p Hp. apply missing_of_in in Hp as [Hin Hout].
    apply Hout. now apply Hkeys. }
  assert (H2 : mismatched_of nm ah = []).
  { apply no_elements_nil. intros p Hp.
    apply mismatched_of_in in Hp as (e & a & Hin & Ha & Hne).
    apply Hne. rewrite Hsame in Ha. apply (in_dict_get nm p e Hnd) in Hin.
    assert (a = e) by congruence. subst a. apply (Hlow p e). now apply dict_get_in. }
  assert (H3 : extra_of ah nm = []).
  { apply no_elements_nil. intros p Hp. apply extra_of_in in Hp as [Hin Hout].
    apply Hout. now apply Hkeys. }
  rewrite reconcile_cases, H1, H2, H3. cbn [nonempty]. now rewrite andb_false_r.
Qed.

(** X11. Round trip.  Take a files map with distinct, normalized paths and
    digests that lower-casing leaves alone, and a version that is not
    blank.  The manifest the builder signs for it validates, with or
    without [fail_on_extra] and with nothing to warn about, against every
    archive that [hash_zip_members] maps to the same path-to-digest
    mapping, provided the key pair matches and base64 decoding undoes the
    encoding of the signature. *)
Theorem sign_then_validate (version : str) (files : dict str)
    (private_key : privkey) (public_key : pubkey)
    (manifest : json) (manifest_bytes : bytes)
    (zip_path : list ZipInfo) (archive_hashes : dict str) (fail_on_extra : bool) :
  sign_files version files (Some private_key) = Ok (manifest, manifest_bytes) ->
  strip_is_empty version = false ->
  NoDup (keys files) ->
  (forall k d, In (k, d) files ->
               normalize_relative_path k = Ok k /\ str_lower d = d) ->
  b64decode (b64encode (rsa_sign private_key manifest_bytes))
  = Some (rsa_sign private_key manifest_bytes) ->
  rsa_verify public_key (rsa_sign private_key manifest_bytes) manifest_bytes = true ->
  hash_zip_members zip_path = Ok archive_hashes ->
  (forall p, dict_get archive_hashes p = dict_get files p) ->
  validate_payload zip_path manifest (Some public_key) fail_on_extra
  = Ok [Valid version].
Proof.
  intros Hs Hv Hnd Hfix Hb64 Hkey Hh Hsame.
  apply sign_files_members in Hs as [Hbytes ->].
  unfold validate_payload. rewrite load_manifest_signed, Hv, Hb64.
  rewrite load_files_of_files_json by assumption. cbn [bind].
  unfold verify_signature, signing_payload. rewrite Hbytes. cbn [bind].
  rewrite Hkey. cbn [negb]. rewrite Hh. cbn [bind].
  rewrite normalize_manifest_loop_fixed by assumption.
  rewrite fold_dict_set_fresh by (now cbn). cbn [app bind].
  apply reconcile_same_mapping; try assumption.
  intros p d Hin. now apply (Hfix p d).
Qed.

(** X12. The list of extra files, printed in the warning or carried by
    the policy error, is in strictly increasing code-point order, hence
    without repetition, when the keys of the archive map are distinct (as
    those of a map from [hash_zip_members] are). *)
Theorem extra_files_sorted (archive_hashes nm : dict str) :
  NoDup (keys archive_hashes) ->
  StronglySorted (fun a b => str_ltb a b = true) (extra_of archive_hashes nm)
  /\ NoDup (extra_of archive_hashes nm).
Proof.
  intros Hnd. unfold extra_of, sorted.
  set (l := filter _ (keys archive_hashes)).
  assert (Hl : NoDup l) by (apply NoDup_filter; assumption).
  split.
  - apply (sort_by_strict (fun s : str => s)). now rewrite map_id.
  - eapply Permutation_NoDup; [|exact Hl]. apply Permutation_sym, sort_by_perm.
Qed.

End RoundTrip.

(** ** The builder on a well-named payload tree *)

Lemma fsnode_induction (P : fsnode -> Prop) :
  (forall data, P (RegularFile data)) ->
  (forall children, Forall (fun c => P (snd c)) children -> P (Directory children)) ->
  (forall target, P (Symlink target)) ->
  P Special ->
  forall n, P n.
Proof.
  intros Hfile Hdir Hlink Hspecial. fix IH 1. intros [data|children|target|].
  - apply Hfile.
  - apply Hdir. induction children as [|[name c] l IHl]; constructor.
    + apply IH.
    + exact IHl.
  - apply Hlink.
  - exact Hspecial.
Qed.

Lemma well_named_children (children : list (str * fsnode)) :
  well_named (Directory children) ->
  NoDup (List.map fst children)
  /\ Forall (fun c => clean_name (fst c) /\ well_named (snd c)) children.
Proof.
  cbn [well_named]. intros [Hnd Hall]. split; [assumption|].
  clear Hnd. induction children as [|c l IH]; constructor.
  - tauto.
  - apply IH. tauto.
Qed.

(** Every path of [rglob] extends the prefix by clean names. *)
Lemma rglob_paths (n : fsnode) :
  forall rel rel' n',
    well_named n -> In (rel', n') (rglob rel n) ->
    exists name suffix, rel' = rel ++ name :: suffix
                        /\ Forall clean_name (name :: suffix).
Proof.
  induction n as [data|children IH|target|] using fsnode_induction;
    intros rel rel' n' Hwn Hin; try (now destruct Hin).
  apply well_named_children in Hwn as [_ Hall].
  cbn [rglob] in Hin. apply in_app_or in Hin as [Hin|Hin].
  - apply in_map_iff in Hin as ([name c] & Heq & Hc). injection Heq as <- <-.
    rewrite Forall_forall in Hall. destruct (Hall _ Hc) as [Hclean _].
    exists name, []. split; [reflexivity|]. constructor; [exact Hclean|constructor].
  - apply in_flat_map in Hin as ([name c] & Hc & Hin).
    rewrite Forall_forall in Hall, IH. destruct (Hall _ Hc) as [Hclean Hwc].
    destruct (IH _ Hc (rel ++ [name]) rel' n' Hwc Hin) as (name' & suffix & -> & Hsuf).
    exists name, (name' :: suffix). split; [now rewrite <- app_assoc|].
    now constructor.
Qed.

Lemma rglob_nodup (n : fsnode) :
  forall rel, well_named n -> NoDup (List.map fst (rglob rel n)).
Proof.
  induction n as [data|children IH|target|] using fsnode_induction;
    intros rel Hwn; try constructor.
  pose proof (well_named_children _ Hwn) as [Hnd Hall].
  cbn [rglob]. rewrite map_app, map_map. cbn [fst].
  assert (Hsub : forall name c rel', In (name, c) children ->
                 In rel' (List.map fst (rglob (rel ++ [name]) c)) ->
                 exists name' suffix, rel' = rel ++ name :: name' :: suffix).
  { intros name c rel' Hc Hin. apply in_map_iff in Hin as ([r n'] & <- & Hin).
    rewrite Forall_forall in Hall. destruct (Hall _ Hc) as [_ Hwc].
    destruct (rglob_paths c _ _ _ Hwc Hin) as (name' & suffix & -> & _).
    exists name', suffix. cbn [fst]. now rewrite <- app_assoc. }
  apply NoDup_app.
  - clear -Hnd. induction children as [|[name c] l IHl]; cbn in *; [constructor|].
    inversion Hnd as [|? ? Hnotin Hnd']; subst. constructor; [|now apply IHl].
    intros Hin. apply in_map_iff in Hin as ([name' c'] & Heq & Hc').
    apply app_inv_head in Heq. injection Heq as ->.
    apply Hnotin. change name with (fst (name, c')). now apply in_map.
  - clear Hwn. induction children as [|[name c] l IHl]; [constructor|].
    cbn [flat_map]. rewrite map_app.
    inversion Hnd as [|? ? Hnotin Hnd']; subst.
    inversion Hall as [|? ? [_ Hwc] Hall']; subst.
    inversion IH as [|? ? IHc IH']; subst.
    apply NoDup_app.
    + apply IHc. exact Hwc.
    + apply IHl; try assumption.
      intros name0 c0 rel' Hc0. apply (Hsub name0 c0 rel'). now right.
    + intros rel' Hin1 Hin2.
      destruct (Hsub name c rel' (or_introl eq_refl) Hin1) as (n1 & s1 & ->).
      apply in_map_iff in Hin2 as ([r n'] & Hr & Hin2). cbn [fst] in Hr. subst r.
      apply in_flat_map in Hin2 as ([name2 c2] & Hc2 & Hin2).
      destruct (Hsub name2 c2 (rel ++ name :: n1 :: s1) (or_intror Hc2)) as (n2 & s2 & Heq).
      { apply in_map_iff. exists (rel ++ name :: n1 :: s1, n'). now split. }
      apply app_inv_head in Heq. injection Heq as -> _ _.
      apply Hnotin. change name2 with (fst (name2, c2)). now apply in_map.
  - intros rel' Hin1 Hin2.
    apply in_map_iff in Hin1 as ([name c] & <- & Hc).
    apply in_map_iff in Hin2 as ([r n'] & Hr & Hin2). cbn [fst] in Hr. subst r.
    apply in_flat_map in Hin2 as ([name2 c2] & Hc2 & Hin2).
    destruct (Hsub name2 c2 (rel ++ [name]) Hc2) as (n2 & s2 & Heq).
    { apply in_map_iff. exists (rel ++ [name], n'). now split. }
    apply app_inv_head in Heq. discriminate.
Qed.

Lemma clean_segments (rel : list str) :
  Forall clean_name rel ->
  Forall (fun seg => seg <> [] /\ seg <> lit "." /\ ~ In SLASH seg /\ ~ In BACKSLASH seg) rel.
Proof. apply Forall_impl. unfold clean_name. tauto. Qed.

Lemma as_posix_normalized (rel : list str) :
  Forall clean_name rel ->
  segments (as_posix rel) = rel
  /\ normalize_relative_path (as_posix rel) = Ok (as_posix rel).
Proof.
  intros Hclean. unfold as_posix.
  assert (Hseg : segments (join (lit "/") rel) = rel)
    by (now apply segments_of_clean, clean_segments).
  split; [exact Hseg|].
  rewrite normalize_relative_path_unfold, Hseg.
  destruct (existsb _ rel) eqn:E; [|reflexivity].
  apply existsb_dotdot in E. rewrite Forall_forall in Hclean.
  destruct (Hclean _ E) as (_ & _ & Hdd & _). now contradiction Hdd.
Qed.

Lemma as_posix_inj (r1 r2 : list str) :
  Forall clean_name r1 -> Forall clean_name r2 ->
  as_posix r1 = as_posix r2 -> r1 = r2.
Proof.
  intros H1 H2 Heq.
  rewrite <- (proj1 (as_posix_normalized r1 H1)), <- (proj1 (as_posix_normalized r2 H2)).
  now rewrite Heq.
Qed.

Section BuilderTree.

Context {L : Library}.

Lemma collect_fold_filter (entries : list (list str * fsnode)) (files : dict str) :
  fold_left collect_step entries files
  = fold_left (fun d kv => dict_set d (fst kv) (snd kv))
      (List.map (fun e => (as_posix (fst e), hex (sha256 (file_bytes (snd e)))))
         (filter (fun e => is_file (snd e)) entries))
      files.
Proof.
  revert files; induction entries as [|[rel n] entries IH]; intros files;
    cbn [fold_left filter snd]; [reflexivity|].
  rewrite IH. unfold collect_step at 1.
  destruct (is_file n); cbn [List.map fold_left fst snd]; [|reflexivity].
  now rewrite sha256_file_hex.
Qed.

Lemma payload_paths_nodup (payload_dir : fsnode) :
  well_named payload_dir -> NoDup (List.map fst (payload_files payload_dir)).
Proof.
  intros Hwn. unfold payload_files. rewrite map_map. cbn [fst].
  pose proof (rglob_nodup payload_dir [] Hwn) as Hnd.
  assert (Hclean : forall e, In e (rglob [] payload_dir) -> Forall clean_name (fst e)).
  { intros [rel n] Hin. destruct (rglob_paths _ _ _ _ Hwn Hin) as (name & suffix & -> & H).
    exact H. }
  induction (rglob [] payload_dir) as [|[rel n] l IHl]; cbn [filter snd]; [constructor|].
  cbn [List.map fst] in Hnd. inversion Hnd as [|? ? Hnotin Hnd']; subst.
  assert (IH' : NoDup (List.map (fun e => as_posix (fst e))
                         (filter (fun e => is_file (snd e)) l))).
  { apply IHl; [assumption|]. intros e He. apply Hclean. now right. }
  destruct (is_file n); [|exact IH'].
  cbn [List.map fst]. constructor; [|exact IH'].
  intros Hin. apply in_map_iff in Hin as ([rel' n'] & Heq & Hin').
  apply filter_In in Hin' as [Hin' _]. cbn [fst] in Heq.
  apply as_posix_inj in Heq.
  - subst rel'. apply Hnotin. change rel with (fst (rel, n')). now apply in_map.
  - apply (Hclean (rel', n')). now right.
  - apply (Hclean (rel, n)). now left.
Qed.

(** X13. On a payload tree whose directories have clean, pairwise
    distinct names, [collect_hashes] returns one pair per regular file (or
    symlink to one), in the order of the walk: its slash-separated relative
    path and the hexadecimal SHA-256 digest of its bytes.  The paths are
    pairwise distinct and already normalized, so the validator's
    normalization leaves each of them as it is. *)
Theorem collect_hashes_well_named (payload_dir : fsnode) :
  well_named payload_dir ->
  collect_hashes payload_dir
  = List.map (fun f => (fst f, hex (sha256 (snd f)))) (payload_files payload_dir)
  /\ NoDup (keys (collect_hashes payload_dir))
  /\ (forall k, In k (keys (collect_hashes payload_dir)) ->
        normalize_relative_path k = Ok k).
Proof.
  intros Hwn.
  assert (Heq : collect_hashes payload_dir
                = List.map (fun f => (fst f, hex (sha256 (snd f))))
                    (payload_files payload_dir)).
  { unfold collect_hashes. rewrite collect_fold_filter.
    assert (Hm : List.map (fun e => (as_posix (fst e), hex (sha256 (file_bytes (snd e)))))
                   (filter (fun e => is_file (snd e)) (rglob [] payload_dir))
                 = List.map (fun f => (fst f, hex (sha256 (snd f))))
                     (payload_files payload_dir)).
    { unfold payload_files. now rewrite map_map. }
    rewrite Hm. apply fold_dict_set_fresh. cbn [keys List.map app].
    rewrite map_map. cbn [fst]. now apply payload_paths_nodup. }
  split; [exact Heq|]. rewrite Heq. unfold keys. rewrite map_map. cbn [fst].
  split; [now apply payload_paths_nodup|].
  intros k Hk. unfold payload_files in Hk. rewrite map_map in Hk. cbn [fst] in Hk.
  apply in_map_iff in Hk as ([rel n] & <- & Hin). apply filter_In in Hin as [Hin _].
  destruct (rglob_paths _ _ _ _ Hwn Hin) as (name & suffix & -> & Hclean).
  now apply as_posix_normalized.
Qed.

End BuilderTree.

(** ** Round trip on a payload tree *)

Lemma dict_get_perm {V} (d1 d2 : dict V) (p : str) :
  NoDup (keys d1) -> Permutation d1 d2 -> dict_get d1 p = dict_get d2 p.
Proof.
  intros Hnd Hperm.
  assert (Hnd2 : NoDup (keys d2)).
  { eapply Permutation_NoDup; [|exact Hnd]. now apply Permutation_map. }
  destruct (dict_get d1 p) as [v|] eqn:E.
  - symmetry. apply in_dict_get; [assumption|].
    apply (Permutation_in _ Hperm). now apply dict_get_in.
  - symmetry. apply dict_get_none. apply dict_get_none in E.
    intros Hin. apply E. unfold keys in *.
    eapply Permutation_in; [|exact Hin]. now apply Permutation_map, Permutation_sym.
Qed.

Section RoundTripTree.

Context {L : Library}.

(** What [normalize_relative_path] returns, when it returns. *)
Lemma normalize_ok_inv (path p : str) :
  normalize_relative_path path = Ok p ->
  ~ In (lit "..") (segments path) /\ p = join (lit "/") (segments path).
Proof.
  intros Hn. rewrite normalize_relative_path_unfold in Hn.
  destruct (existsb _ (segments path)) eqn:E; [discriminate|].
  injection Hn as <-. split; [|reflexivity].
  intros Hdd. apply existsb_dotdot in Hdd. congruence.
Qed.

(** The archive map of an archive that holds the files of a payload. *)
Lemma hash_zip_members_of_payload (payload_dir : fsnode) (zip_path : list ZipInfo) :
  well_named payload_dir ->
  Permutation
    (List.map (fun info => (normalize_relative_path (filename info), content info))
       (members_of zip_path))
    (List.map (fun f => (Ok (fst f), snd f)) (payload_files payload_dir)) ->
  exists archive_hashes,
    hash_zip_members zip_path = Ok archive_hashes
    /\ Permutation archive_hashes
         (List.map (fun f => (fst f, hex (sha256 (snd f)))) (payload_files payload_dir)).
Proof.
  intros Hwn Hperm.
  assert (Hname : forall info, In info (members_of zip_path) ->
                  normalize_relative_path (filename info) = Ok (normalized_name info)
                  /\ ~ has_traversal info).
  { intros info Hin.
    assert (Hf : In (normalize_relative_path (filename info), content info)
                    (List.map (fun f => (Ok (fst f), snd f)) (payload_files payload_dir))).
    { apply (Permutation_in _ Hperm).
      apply (in_map (fun i => (normalize_relative_path (filename i), content i))).
      exact Hin. }
    apply in_map_iff in Hf as ([p data] & Heq & _). cbn [fst snd] in Heq.
    injection Heq as Hn _. symmetry in Hn.
    destruct (normalize_ok_inv _ _ Hn) as [Hno ->]. split; [exact Hn|exact Hno]. }
  set (unwrap := fun rd : result str * bytes =>
                   (match fst rd with Ok p => p | Err _ => [] end,
                    hex (sha256 (snd rd)))).
  assert (Hleft : List.map unwrap
                    (List.map (fun info => (normalize_relative_path (filename info),
                                            content info)) (members_of zip_path))
                  = List.map (fun info => (normalized_name info,
                                           zip_member_digest (content info)))
                      (members_of zip_path)).
  { rewrite map_map. apply map_ext_in. intros info Hin. unfold unwrap. cbn [fst snd].
    destruct (Hname info Hin) as [-> _]. now rewrite zip_member_digest_hex. }
  assert (Hright : List.map unwrap
                     (List.map (fun f => (Ok (fst f), snd f)) (payload_files payload_dir))
                   = List.map (fun f => (fst f, hex (sha256 (snd f))))
                       (payload_files payload_dir)).
  { rewrite map_map. reflexivity. }
  pose proof (Permutation_map unwrap Hperm) as Hp. rewrite Hleft, Hright in Hp.
  exists (List.map (fun info => (normalized_name info, zip_member_digest (content info)))
            (members_of zip_path)).
  split; [|exact Hp].
  unfold hash_zip_members. rewrite hash_zip_loop_ok; [reflexivity| |].
  - intros info Hin. now apply Hname.
  - cbn [keys List.map app].
    pose proof (Permutation_map fst Hp) as Hk. rewrite !map_map in Hk. cbn [fst] in Hk.
    eapply Permutation_NoDup; [apply Permutation_sym; exact Hk|].
    now apply payload_paths_nodup.
Qed.

(** X14. Round trip on a payload.  For a payload tree with clean,
    pairwise distinct names and a version that is not blank, the manifest
    [create_manifest] signs validates, in strict mode too and without a
    warning, against every archive whose non-directory entries are the
    files of the payload, each under a name that normalizes to its relative
    path, in any order and with any directory entries beside them; the key
    pair must match, base64 decoding must undo the encoding of the
    signature, and lower-casing must leave lowercase hexadecimal alone. *)
Theorem build_then_validate (payload_dir : fsnode) (version : str)
    (private_key : privkey) (public_key : pubkey)
    (manifest : json) (manifest_bytes : bytes)
    (zip_path : list ZipInfo) (fail_on_extra : bool) :
  well_named payload_dir ->
  strip_is_empty version = false ->
  create_manifest payload_dir version (Some private_key) = Ok (manifest, manifest_bytes) ->
  b64decode (b64encode (rsa_sign private_key manifest_bytes))
  = Some (rsa_sign private_key manifest_bytes) ->
  rsa_verify public_key (rsa_sign private_key manifest_bytes) manifest_bytes = true ->
  (forall digest, str_lower (hex digest) = hex digest) ->
  Permutation
    (List.map (fun info => (normalize_relative_path (filename info), content info))
       (members_of zip_path))
    (List.map (fun f => (Ok (fst f), snd f)) (payload_files payload_dir)) ->
  validate_payload zip_path manifest (Some public_key) fail_on_extra
  = Ok [Valid version].
Proof.
  intros Hwn Hv Hs Hb64 Hkey Hlower Hperm.
  unfold create_manifest in Hs.
  assert (Hfiles : collect_hashes payload_dir
                   = List.map (fun f => (fst f, hex (sha256 (snd f))))
                       (payload_files payload_dir)).
  { unfold collect_hashes. rewrite collect_fold_filter.
    unfold payload_files. rewrite map_map. cbn [fst snd].
    apply fold_dict_set_fresh. cbn [keys List.map app]. rewrite map_map. cbn [fst].
    pose proof (payload_paths_nodup payload_dir Hwn) as Hnd.
    unfold payload_files in Hnd. now rewrite map_map in Hnd. }
  assert (Hnd : NoDup (keys (collect_hashes payload_dir))).
  { rewrite Hfiles. unfold keys. rewrite map_map. cbn [fst].
    now apply payload_paths_nodup. }
  assert (Hfix : forall k d, In (k, d) (collect_hashes payload_dir) ->
                 normalize_relative_path k = Ok k /\ str_lower d = d).
  { intros k d Hin. rewrite Hfiles in Hin.
    apply in_map_iff in Hin as ([k' data] & Heq & Hin). cbn [fst snd] in Heq.
    injection Heq as -> <-. split; [|apply Hlower].
    unfold payload_files in Hin. apply in_map_iff in Hin as ([rel n] & Heq & Hin).
    apply filter_In in Hin as [Hin _]. cbn [fst snd] in Heq. injection Heq as <- _.
    destruct (rglob_paths _ _ _ _ Hwn Hin) as (name & suffix & -> & Hclean).
    now apply as_posix_normalized. }
  destruct (hash_zip_members_of_payload payload_dir zip_path Hwn Hperm)
    as (ah & Hh & Hah).
  apply sign_files_members in Hs as [Hbytes ->].
  unfold validate_payload. rewrite load_manifest_signed, Hv, Hb64.
  rewrite load_files_of_files_json by assumption. cbn [bind].
  unfold verify_signature, signing_payload. rewrite Hbytes. cbn [bind].
  rewrite Hkey. cbn [negb]. rewrite Hh. cbn [bind].
  rewrite normalize_manifest_loop_fixed by assumption.
  rewrite fold_dict_set_fresh by (now cbn). cbn [app bind].
  apply reconcile_same_mapping.
  - assumption.
  - intros p. rewrite Hfiles. apply dict_get_perm; [|exact Hah].
    eapply Permutation_NoDup; [apply Permutation_map, Permutation_sym; exact Hah|].
    unfold keys. rewrite map_map. cbn [fst]. now apply payload_paths_nodup.
  - intros p d Hin. now apply (Hfix p d).
Qed.

End RoundTripTree.

(** ** The two builders *)

Lemma replace_app (old new : codepoint) (a b : str) :
  replace old new (a ++ b) = replace old new a ++ replace old new b.
Proof. unfold replace. apply map_app. Qed.

Lemma replace_join (old new sep : codepoint) (parts : list str) :
  replace old new (join [sep] parts)
  = join [if sep =? old then new else sep] (List.map (replace old new) parts).
Proof.
  induction parts as [|p parts IH]; [reflexivity|].
  destruct parts as [|q parts]; [reflexivity|].
  change (join [sep] (p :: q :: parts)) with (p ++ [sep] ++ join [sep] (q :: parts)).
  rewrite !replace_app, IH. reflexivity.
Qed.

Lemma relpath_key_clean (sep : codepoint) (parts : list str) :
  sep = SLASH \/ sep = BACKSLASH ->
  Forall clean_name parts ->
  relpath_key sep parts = as_posix parts.
Proof.
  intros Hsep Hclean. unfold relpath_key, as_posix. rewrite replace_join.
  replace (if sep =? BACKSLASH then SLASH else sep) with SLASH
    by (destruct Hsep; subst; reflexivity).
  change (lit "/") with [SLASH]. f_equal.
  rewrite <- (map_id parts) at 2. apply map_ext_in. intros p Hp.
  apply replace_id. rewrite Forall_forall in Hclean.
  now destruct (Hclean p Hp) as (_ & _ & _ & _ & H).
Qed.

(** The nodes [rglob] lists do not depend on the prefix. *)
Lemma rglob_prefix (n : fsnode) :
  forall rel rel' n',
    In (rel', n') (rglob rel n) ->
    exists suffix, rel' = rel ++ suffix
                   /\ forall rel2, In (rel2 ++ suffix, n') (rglob rel2 n).
Proof.
  induction n as [data|children IH|target|] using fsnode_induction;
    intros rel rel' n' Hin; try (now destruct Hin).
  cbn [rglob] in Hin. apply in_app_or in Hin as [Hin|Hin].
  - apply in_map_iff in Hin as ([name c] & Heq & Hc). injection Heq as <- <-.
    exists [name]. split; [reflexivity|]. intros rel2. cbn [rglob].
    apply in_or_app. left.
    apply (in_map (fun c0 => (rel2 ++ [fst c0], snd c0)) children (name, c) Hc).
  - apply in_flat_map in Hin as ([name c] & Hc & Hin).
    rewrite Forall_forall in IH.
    destruct (IH _ Hc (rel ++ [name]) rel' n' Hin) as (suffix & -> & Hall).
    exists (name :: suffix). split; [now rewrite <- app_assoc|].
    intros rel2. cbn [rglob]. apply in_or_app. right.
    apply in_flat_map. exists (name, c). split; [assumption|].
    specialize (Hall (rel2 ++ [name])). now rewrite <- app_assoc in Hall.
Qed.

Lemma is_dir_node_not_file (n : fsnode) : is_dir_node n = true -> is_file n = false.
Proof.
  unfold is_dir_node, is_file. destruct (resolve n) as [[]|]; congruence.
Qed.

Lemma is_file_open_rb (n : fsnode) :
  is_file n = true -> open_rb n = Some (file_bytes n).
Proof.
  unfold is_file, open_rb, file_bytes. destruct (resolve n) as [[]|]; congruence.
Qed.

Lemma open_rb_none (n : fsnode) : is_file n = false -> open_rb n = None.
Proof.
  unfold is_file, open_rb. destruct (resolve n) as [[]|]; congruence.
Qed.

Section TwoBuilders.

Context {L : Library}.

Lemma sha256_file_whole_hex (data : bytes) : sha256_file_whole data = hex (sha256 data).
Proof. reflexivity. Qed.

Lemma build_walk_app (sep : codepoint) (t1 t2 : list (list str * list (str * fsnode)))
    (files : dict str) :
  build_walk sep (t1 ++ t2) files
  = match build_walk sep t1 files with
    | None => None
    | Some files' => build_walk sep t2 files'
    end.
Proof.
  revert files; induction t1 as [|[root names] t1 IH]; intros files; cbn [app build_walk].
  - reflexivity.
  - destruct (build_names sep root names files); [apply IH|reflexivity].
Qed.

(** The inner loop over the files of one directory. *)
Lemma build_names_collect (sep : codepoint) (rel : list str)
    (children : list (str * fsnode)) (files : dict str) :
  sep = SLASH \/ sep = BACKSLASH ->
  Forall clean_name rel ->
  Forall (fun c => clean_name (fst c)) children ->
  Forall (fun c => is_dir_node (snd c) = true \/ is_file (snd c) = true) children ->
  build_names sep rel (filter (fun c => negb (is_dir_node (snd c))) children) files
  = Some (fold_left collect_step
            (List.map (fun c => (rel ++ [fst c], snd c)) children) files).
Proof.
  intros Hsep Hrel Hnames Hread. revert files.
  induction children as [|[name c] l IH]; intros files; [reflexivity|].
  inversion Hnames as [|? ? Hname Hnames']; subst.
  inversion Hread as [|? ? Hc Hread']; subst. cbn [fst snd] in *.
  cbn [filter List.map fold_left fst snd]. unfold collect_step at 2.
  destruct (is_dir_node c) eqn:Ed; cbn [negb].
  - rewrite (is_dir_node_not_file c Ed). now apply IH.
  - destruct Hc as [Hc|Hc]; [discriminate|]. rewrite Hc.
    cbn [build_names]. rewrite (is_file_open_rb c Hc).
    rewrite relpath_key_clean; [|assumption|].
    + rewrite sha256_file_whole_hex, sha256_file_hex. now apply IH.
    + apply Forall_app. split; [assumption|]. constructor; [assumption|constructor].
Qed.

Lemma build_walk_collect (sep : codepoint) (n : fsnode) :
  sep = SLASH \/ sep = BACKSLASH ->
  forall rel files,
    Forall clean_name rel ->
    well_named n ->
    (forall rel' n', In (rel', n') (rglob rel n) ->
                     is_dir_node n' = true \/ is_file n' = true) ->
    build_walk sep (os_walk rel n) files
    = Some (fold_left collect_step (rglob rel n) files).
Proof.
  intros Hsep.
  induction n as [data|children IH|target|] using fsnode_induction;
    intros rel files Hrel Hwn Hread; try reflexivity.
  pose proof (well_named_children _ Hwn) as [_ Hall].
  cbn [os_walk rglob build_walk]. rewrite fold_left_app.
  rewrite build_names_collect; try assumption.
  - generalize (fold_left collect_step
                  (List.map (fun c => (rel ++ [fst c], snd c)) children) files) as files1.
    assert (Hread2 : forall c, In c children -> forall rel' n',
              In (rel', n') (rglob (rel ++ [fst c]) (snd c)) ->
              is_dir_node n' = true \/ is_file n' = true).
    { intros [name c] Hc rel' n' Hin. apply (Hread rel' n'). cbn [rglob].
      apply in_or_app. right. apply in_flat_map. now exists (name, c). }
    clear Hread Hwn. induction children as [|[name c] l IHl]; intros files1; [reflexivity|].
    inversion IH as [|? ? IHc IH']; subst.
    inversion Hall as [|? ? [Hname Hwc] Hall']; subst. cbn [fst snd] in *.
    cbn [flat_map]. rewrite build_walk_app, fold_left_app.
    rewrite IHc; try assumption.
    + apply IHl; try assumption. intros c0 Hc0. apply Hread2. now right.
    + apply Forall_app. split; [assumption|]. constructor; [assumption|constructor].
    + apply (Hread2 (name, c)). now left.
  - eapply Forall_impl; [|exact Hall]. cbn beta. tauto.
  - apply Forall_forall. intros [name c] Hc. apply (Hread (rel ++ [name]) c).
    cbn [rglob]. apply in_or_app. left.
    apply (in_map (fun c0 => (rel ++ [fst c0], snd c0)) children (name, c) Hc).
Qed.

(** X15. The two builders agree.  On a tree with clean, pairwise distinct
    names in which every entry that is not a directory is a regular file
    (or a symlink to one), as the tree [build_manifest.py] extracts is, the
    [os.walk] loop of [build_manifest.py] builds the files map that
    [collect_hashes] of [create_manifest.py] builds, with either path
    separator, and both scripts then write the same signed manifest over
    the same bytes. *)
Theorem builders_agree (sep : codepoint) (temp_dir : fsnode) :
  sep = SLASH \/ sep = BACKSLASH ->
  well_named temp_dir ->
  (forall rel n, In (rel, n) (rglob [] temp_dir) ->
                 is_dir_node n = true \/ is_file n = true) ->
  build_hashes sep temp_dir = Some (collect_hashes temp_dir)
  /\ forall version private_key,
       build_manifest sep temp_dir version private_key
       = Some (create_manifest temp_dir version private_key).
Proof.
  intros Hsep Hwn Hread.
  assert (Hb : build_hashes sep temp_dir = Some (collect_hashes temp_dir)).
  { unfold build_hashes, collect_hashes.
    apply build_walk_collect; try assumption. constructor. }
  split; [exact Hb|]. intros version private_key.
  unfold build_manifest. now rewrite Hb.
Qed.

End TwoBuilders.

Section SecondBuilderFailure.

Context {L : Library}.

Lemma build_names_none (sep : codepoint) (root : list str)
    (names : list (str * fsnode)) (files : dict str) (c : str * fsnode) :
  In c names -> open_rb (snd c) = None ->
  build_names sep root names files = None.
Proof.
  revert files; induction names as [|[name node] names IH]; intros files Hin Hc;
    [destruct Hin|].
  cbn [build_names]. destruct Hin as [Heq|Hin].
  - subst c. cbn [snd] in Hc. now rewrite Hc.
  - destruct (open_rb node); [now apply IH|reflexivity].
Qed.

Lemma build_walk_none (sep : codepoint) (n : fsnode) :
  forall rel files,
    (exists rel' n', In (rel', n') (rglob rel n)
                     /\ is_dir_node n' = false /\ is_file n' = false) ->
    build_walk sep (os_walk rel n) files = None.
Proof.
  induction n as [data|children IH|target|] using fsnode_induction;
    intros rel files (rel' & n' & Hin & Hd & Hf); try (now destruct Hin).
  cbn [rglob] in Hin. cbn [os_walk build_walk].
  apply in_app_or in Hin as [Hin|Hin].
  - apply in_map_iff in Hin as ([name c] & Heq & Hc). injection Heq as _ <-.
    rewrite (build_names_none sep rel _ files (name, c)); [reflexivity| |].
    + apply filter_In. split; [assumption|]. cbn [snd]. now rewrite Hd.
    + now apply open_rb_none.
  - destruct (build_names sep rel _ files) as [files1|]; [|reflexivity].
    clear files. revert files1.
    induction children as [|[name c] l IHl]; intros files1; [destruct Hin|].
    inversion IH as [|? ? IHc IH']; subst. cbn [snd] in IHc.
    cbn [flat_map] in *. rewrite build_walk_app.
    apply in_app_or in Hin as [Hin|Hin].
    + rewrite IHc; [reflexivity|]. now exists rel', n'.
    + destruct (build_walk sep (os_walk (rel ++ [name]) c) files1); [|reflexivity].
      now apply IHl.
Qed.

(** X16. Where the two builders part.  A dangling symlink anywhere in the
    tree stops [build_manifest.py]: it is among the [filenames] of
    [os.walk], opening it raises, and no manifest is written.
    [create_manifest.py] passes over it: every pair of its files map comes
    from an entry that [is_file] accepts. *)
Theorem build_hashes_unreadable (sep : codepoint) (temp_dir : fsnode)
    (rel : list str) (n : fsnode) :
  In (rel, n) (rglob [] temp_dir) ->
  resolve n = None ->
  build_hashes sep temp_dir = None
  /\ (forall version private_key,
        build_manifest sep temp_dir version private_key = None)
  /\ (forall p d, In (p, d) (collect_hashes temp_dir) ->
        exists rel' n', In (rel', n') (rglob [] temp_dir) /\ is_file n' = true
                        /\ p = as_posix rel').
Proof.
  intros Hin Hres.
  assert (Hd : is_dir_node n = false) by (unfold is_dir_node; now rewrite Hres).
  assert (Hf : is_file n = false) by (unfold is_file; now rewrite Hres).
  assert (Hb : build_hashes sep temp_dir = None).
  { unfold build_hashes. apply build_walk_none. now exists rel, n. }
  split; [exact Hb|]. split.
  - intros version private_key. unfold build_manifest. now rewrite Hb.
  - intros p d Hp. unfold collect_hashes in Hp.
    apply collect_fold_values in Hp as [[]|(rel' & n' & H1 & H2 & H3 & _)].
    now exists rel', n'.
Qed.

End SecondBuilderFailure.

(** ** Locale selection *)

(** X17. [enforce_german_locale] tries the five German locale names in
    its fixed order and stops at the first that can be activated: it
    returns that name and leaves that locale active, every name before it
    having failed; it returns nothing, and leaves the active locale as it
    was, exactly when none of the five can be activated. *)
Theorem enforce_german_locale_first_available (setlocale : str -> bool) (active : str) :
  let '(result, active') := enforce_german_locale setlocale active in
  (result = None <->
   forall c, In c german_candidates -> setlocale c = false)
  /\ (result = None -> active' = active)
  /\ (forall c, result = Some c ->
        active' = c /\ setlocale c = true
        /\ exists before after,
             german_candidates = before ++ c :: after
             /\ forall b, In b before -> setlocale b = false).
Proof.
  unfold enforce_german_locale.
  assert (H : forall candidates,
             let '(result, active') := try_locales setlocale candidates active in
             (result = None <-> forall c, In c candidates -> setlocale c = false)
             /\ (result = None -> active' = active)
             /\ (forall c, result = Some c ->
                   active' = c /\ setlocale c = true
                   /\ exists before after,
                        candidates = before ++ c :: after
                        /\ forall b, In b before -> setlocale b = false)).
  { induction candidates as [|c0 rest IH]; cbn [try_locales].
    - split; [|split].
      + split; [intros _ c []|reflexivity].
      + reflexivity.
      + discriminate.
    - destruct (setlocale c0) eqn:E.
      + split; [|split].
        * split; [discriminate|]. intros Hall. rewrite Hall in E; [discriminate|now left].
        * discriminate.
        * intros c Hc. injection Hc as <-. repeat split; [assumption|].
          exists [], rest. split; [reflexivity|]. intros b [].
      + destruct (try_locales setlocale rest active) as [result active'].
        destruct IH as (Hnone & Hact & Hsome). split; [|split].
        * rewrite Hnone. split.
          -- intros Hall c [<-|Hc]; [assumption|now apply Hall].
          -- intros Hall c Hc. apply Hall. now right.
        * exact Hact.
        * intros c Hc. destruct (Hsome c Hc) as (Ha & Hs & before & after & -> & Hb).
          repeat split; try assumption.
          exists (c0 :: before), after. split; [reflexivity|].
          intros b [<-|Hin]; [assumption|now apply Hb]. }
  apply H.
Qed.

(** ** The canonical text determines the manifest *)

Lemma escape_char_shape (c : codepoint) :
  (escape_char c = [c] /\ 32 <= c /\ c <> 34 /\ c <> 92)
  \/ (exists e, escape_char c = [92; e]
                /\ In (e, c) [(34, 34); (92, 92); (110, 10); (114, 13);
                              (116, 9); (98, 8); (102, 12)])
  \/ (escape_char c = [92; 117; 48; 48; hex_digit (c / 16); hex_digit (c mod 16)]
      /\ c < 32).
Proof.
  unfold escape_char.
  destruct (N.eqb_spec c 34) as [->|H34]; [right; left; exists 34; cbn; tauto|].
  destruct (N.eqb_spec c 92) as [->|H92]; [right; left; exists 92; cbn; tauto|].
  destruct (N.eqb_spec c 10) as [->|H10]; [right; left; exists 110; cbn; tauto|].
  destruct (N.eqb_spec c 13) as [->|H13]; [right; left; exists 114; cbn; tauto|].
  destruct (N.eqb_spec c 9) as [->|H9]; [right; left; exists 116; cbn; tauto|].
  destruct (N.eqb_spec c 8) as [->|H8]; [right; left; exists 98; cbn; tauto|].
  destruct (N.eqb_spec c 12) as [->|H12]; [right; left; exists 102; cbn; tauto|].
  destruct (N.ltb_spec c 32); [right; right; tauto|left; tauto].
Qed.

Lemma hex_digit_inj (n m : N) : n < 16 -> m < 16 -> hex_digit n = hex_digit m -> n = m.
Proof.
  unfold hex_digit. intros Hn Hm.
  destruct (N.ltb_spec n 10), (N.ltb_spec m 10); lia.
Qed.

Lemma short_escape_inj (e c c' : N) :
  In (e, c) [(34, 34); (92, 92); (110, 10); (114, 13); (116, 9); (98, 8); (102, 12)] ->
  In (e, c') [(34, 34); (92, 92); (110, 10); (114, 13); (116, 9); (98, 8); (102, 12)] ->
  c = c' /\ e <> 117.
Proof.
  cbn. intros H H'. split; intuition congruence.
Qed.

(** The escapes form a prefix code. *)
Lemma escape_char_prefix (c c' : codepoint) (x x' : str) :
  escape_char c ++ x = escape_char c' ++ x' -> c = c' /\ x = x'.
Proof.
  destruct (escape_char_shape c) as [(-> & H32 & H34 & H92)|[(e & -> & He)|[-> Hlt]]];
  destruct (escape_char_shape c') as [(-> & H32' & H34' & H92')|[(e' & -> & He')|[-> Hlt']]];
    cbn [app]; intros Heq.
  - injection Heq as -> ->. tauto.
  - injection Heq as -> _. contradiction.
  - injection Heq as -> _. contradiction.
  - injection Heq as <- _. contradiction.
  - injection Heq as <- ->. split; [|reflexivity].
    now destruct (short_escape_inj e c c' He He').
  - injection Heq as -> _. destruct (short_escape_inj 117 c c He He) as [_ H]. contradiction.
  - injection Heq as <- _. contradiction.
  - injection Heq as <- _. destruct (short_escape_inj 117 c' c' He' He') as [_ H]. contradiction.
  - injection Heq as H1 H2 ->. split; [|reflexivity].
    apply hex_digit_inj in H1; [|apply N.Div0.div_lt_upper_bound; lia..].
    apply hex_digit_inj in H2; [|apply N.mod_lt; lia..].
    rewrite (N.div_mod c 16), (N.div_mod c' 16) by lia. now rewrite H1, H2.
Qed.

Lemma escape_char_no_quote (c : codepoint) (x : str) (y : str) :
  escape_char c ++ x <> 34 :: y.
Proof.
  destruct (escape_char_shape c) as [(-> & H32 & H34 & H92)|[(e & -> & He)|[-> Hlt]]];
    cbn [app]; intros Heq; injection Heq as Heq; try discriminate.
  contradiction.
Qed.

(** A quoted string is delimited by its closing quote. *)
Lemma encode_basestring_prefix (s s' : str) (r r' : str) :
  encode_basestring s ++ r = encode_basestring s' ++ r' -> s = s' /\ r = r'.
Proof.
  unfold encode_basestring. cbn [app]. rewrite <- !app_assoc. cbn [app].
  intros Heq. injection Heq as Heq. revert s' Heq.
  induction s as [|c s IH]; intros [|c' s'] Heq; cbn [flat_map app] in Heq.
  - injection Heq as ->. tauto.
  - rewrite <- app_assoc in Heq. symmetry in Heq.
    now apply escape_char_no_quote in Heq.
  - rewrite <- app_assoc in Heq. now apply escape_char_no_quote in Heq.
  - rewrite <- !app_assoc in Heq. apply escape_char_prefix in Heq as [-> Heq].
    destruct (IH _ Heq) as [-> ->]. tauto.
Qed.

Lemma member_text_prefix (kv kv' : str * str) (r r' : str) :
  member_text kv ++ r = member_text kv' ++ r' -> kv = kv' /\ r = r'.
Proof.
  destruct kv as [k v], kv' as [k' v']. unfold member_text. cbn [fst snd].
  rewrite <- !app_assoc. intros Heq.
  apply encode_basestring_prefix in Heq as [-> Heq].
  apply app_inv_head in Heq.
  apply encode_basestring_prefix in Heq as [-> ->]. tauto.
Qed.

Lemma member_text_head (kv : str * str) (r : str) :
  exists t, member_text kv ++ r = 34 :: t.
Proof. unfold member_text, encode_basestring. cbn [app]. now eexists. Qed.

(** The members of an object, up to its closing brace. *)
Lemma members_text_prefix (l l' : list (str * str)) (r r' : str) :
  join (lit ",") (List.map member_text l) ++ lit "}" ++ r
  = join (lit ",") (List.map member_text l') ++ lit "}" ++ r' ->
  l = l' /\ r = r'.
Proof.
  assert (Hcons : forall m ms x,
            join (lit ",") (List.map member_text (m :: ms)) ++ x
            = member_text m ++ match ms with
                               | [] => x
                               | _ :: _ => lit "," ++ join (lit ",") (List.map member_text ms) ++ x
                               end).
  { intros m [|m' ms] x; [reflexivity|].
    cbn [List.map]. change (join (lit ",") (?a :: ?b :: ?c)) with
      (a ++ lit "," ++ join (lit ",") (b :: c)).
    now rewrite <- !app_assoc. }
  revert l'. induction l as [|m ms IH]; intros [|m' ms'].
  - cbn. intros Heq. injection Heq as ->. tauto.
  - intros Heq. rewrite Hcons in Heq.
    match type of Heq with
    | _ = member_text _ ++ ?x =>
        destruct (member_text_head m' x) as [t Ht]; rewrite Ht in Heq
    end.
    cbn in Heq. discriminate.
  - intros Heq. rewrite Hcons in Heq.
    match type of Heq with
    | member_text _ ++ ?x = _ =>
        destruct (member_text_head m x) as [t Ht]; rewrite Ht in Heq
    end.
    cbn in Heq. discriminate.
  - rewrite !Hcons. intros Heq. apply member_text_prefix in Heq as [-> Heq].
    destruct ms as [|m1 ms], ms' as [|m1' ms'].
    + cbn in Heq. injection Heq as ->. tauto.
    + cbn in Heq. discriminate.
    + cbn in Heq. discriminate.
    + apply app_inv_head in Heq.
      destruct (IH (m1' :: ms') Heq) as [-> ->]. tauto.
Qed.

Lemma byte_of_N_inj (n m : N) :
  n < 256 -> m < 256 -> byte_of_N n = byte_of_N m -> n = m.
Proof.
  intros Hn Hm. unfold byte_of_N.
  destruct (Byte.of_N n) as [a|] eqn:Ea.
  2:{ apply Byte.of_N_None_iff in Ea. lia. }
  destruct (Byte.of_N m) as [b|] eqn:Eb.
  2:{ apply Byte.of_N_None_iff in Eb. lia. }
  intros ->. apply Byte.to_of_N in Ea, Eb. congruence.
Qed.

(** The quotients and remainders of the UTF-8 encoder, as linear facts. *)
Ltac utf8_facts c :=
  pose proof (N.div_mod c 64 ltac:(lia));
  pose proof (N.mod_lt c 64 ltac:(lia));
  pose proof (N.div_mod (c / 64) 64 ltac:(lia));
  pose proof (N.mod_lt (c / 64) 64 ltac:(lia));
  pose proof (N.div_mod (c / 4096) 64 ltac:(lia));
  pose proof (N.mod_lt (c / 4096) 64 ltac:(lia));
  pose proof (N.Div0.div_div c 64 64);
  pose proof (N.Div0.div_div c 4096 64);
  change (64 * 64) with 4096 in *; change (4096 * 64) with 262144 in *.

Ltac name_quotients :=
  repeat match goal with
         | H : context [?a / ?b] |- _ =>
             let q := fresh "q" in set (q := a / b) in *; clearbody q
         | H : context [?a mod ?b] |- _ =>
             let m := fresh "m" in set (m := a mod b) in *; clearbody m
         end.

Lemma some_eq {A} (a b : A) : Some a = Some b -> a = b.
Proof. congruence. Qed.

Lemma cons_eq {A} (a b : A) (l l' : list A) : a :: l = b :: l' -> a = b /\ l = l'.
Proof. intros H. split; congruence. Qed.

(** UTF-8 is a prefix code on the code points it encodes. *)
Lemma utf8_char_prefix (c c' : codepoint) (bs bs' r r' : bytes) :
  utf8_char c = Some bs -> utf8_char c' = Some bs' ->
  bs ++ r = bs' ++ r' -> c = c' /\ r = r'.
Proof.
  unfold utf8_char. intros Hb Hb' Heq.
  utf8_facts c. utf8_facts c'. name_quotients.
  destruct (N.ltb_spec c 128); [|destruct (N.ltb_spec c 2048);
    [|destruct (N.ltb_spec c 65536);
      [destruct ((55296 <=? c) && (c <=? 57343)); [discriminate|]
      |destruct (N.ltb_spec c 1114112); [|discriminate]]]];
  (destruct (N.ltb_spec c' 128); [|destruct (N.ltb_spec c' 2048);
    [|destruct (N.ltb_spec c' 65536);
      [destruct ((55296 <=? c') && (c' <=? 57343)); [discriminate|]
      |destruct (N.ltb_spec c' 1114112); [|discriminate]]]]);
  apply some_eq in Hb, Hb'; subst bs bs'; cbv beta iota delta [app] in Heq;
  repeat match goal with
         | Hx : _ :: _ = _ :: _ |- _ =>
             let Hh := fresh "Hh" in
             apply cons_eq in Hx as [Hh Hx]; apply byte_of_N_inj in Hh; [|lia|lia]
         end;
  first [exfalso; lia | split; [lia|assumption]].
Qed.

Lemma utf8_char_nonempty (c : codepoint) (bs : bytes) :
  utf8_char c = Some bs -> bs <> [].
Proof.
  unfold utf8_char. intros H Hnil. subst bs.
  repeat match type of H with
         | (if ?b then _ else _) = _ => destruct b
         end; discriminate.
Qed.

Lemma encode_utf8_inj (s s' : str) (bs : bytes) :
  encode_utf8 s = Ok bs -> encode_utf8 s' = Ok bs -> s = s'.
Proof.
  revert s' bs; induction s as [|c s IH]; intros [|c' s'] bs; cbn [encode_utf8].
  - reflexivity.
  - intros H. injection H as <-.
    destruct (utf8_char c') as [b'|] eqn:E'; [|discriminate].
    destruct (encode_utf8 s') as [rest'|]; cbn [bind]; [|discriminate].
    intros H. apply utf8_char_nonempty in E'. destruct b'; [contradiction|discriminate].
  - destruct (utf8_char c) as [b|] eqn:E; [|discriminate].
    destruct (encode_utf8 s) as [rest|]; cbn [bind]; [|discriminate].
    intros H H'. injection H' as <-.
    apply utf8_char_nonempty in E. destruct b; [contradiction|discriminate].
  - destruct (utf8_char c) as [b|] eqn:E; [|discriminate].
    destruct (encode_utf8 s) as [rest|] eqn:Es; cbn [bind]; [|discriminate].
    destruct (utf8_char c') as [b'|] eqn:E'; [|discriminate].
    destruct (encode_utf8 s') as [rest'|] eqn:Es'; cbn [bind]; [|discriminate].
    intros H H'. apply (f_equal (fun r => match r with Ok x => x | Err _ => [] end)) in H, H'.
    cbv beta iota in H, H'. subst bs.
    destruct (utf8_char_prefix c c' b b' rest rest' E E' (eq_sym H')) as [-> ->].
    f_equal. now apply (IH s' rest').
Qed.

(** The text of an unsigned manifest determines the version and the
    sorted entries. *)
Lemma dumps_unsigned_manifest_inj (version version' : str) (files files' : dict str) :
  dumps (unsigned_manifest version files) = dumps (unsigned_manifest version' files') ->
  version = version' /\ sort_by fst files = sort_by fst files'.
Proof.
  rewrite !dumps_unsigned_manifest, !dumps_files_json. intros Heq.
  do 3 apply app_inv_head in Heq.
  rewrite <- !app_assoc in Heq. apply app_inv_head in Heq.
  apply members_text_prefix in Heq as [Hsorted Heq].
  assert (Hf : sort_by fst files = sort_by fst files').
  { revert Hsorted. generalize (sort_by fst files), (sort_by fst files'). clear.
    intros l l' H. exact H. }
  split; [|exact Hf].
  do 3 apply app_inv_head in Heq.
  now apply encode_basestring_prefix in Heq as [-> _].
Qed.

(** X18. The canonical bytes determine the manifest content: two
    unsigned manifests with the same canonical serialization have the same
    version and the same entries, up to the order in which they were
    inserted; with distinct keys they are the same mapping.  So a signature
    over the canonical bytes covers one version and one files map
    only. *)
Theorem canonical_json_injective (version version' : str) (files files' : dict str)
    (payload : bytes) :
  canonical_json (unsigned_manifest version files) = Ok payload ->
  canonical_json (unsigned_manifest version' files') = Ok payload ->
  version = version'
  /\ Permutation files files'
  /\ (NoDup (keys files) -> forall p, dict_get files p = dict_get files' p).
Proof.
  unfold canonical_json. intros H H'.
  pose proof (encode_utf8_inj _ _ _ H H') as Htext.
  apply dumps_unsigned_manifest_inj in Htext as [Hv Hs].
  assert (Hperm : Permutation files files').
  { rewrite <- (sort_by_perm fst files), Hs. apply sort_by_perm. }
  repeat split; try assumption.
  intros Hnd p. now apply dict_get_perm.
Qed.

Lemma canonical_json_injective_witness :
  lit "1.0.0" = lit "1.0.0"
  /\ Permutation [(lit "b.txt", lit "00ff"); (lit "a/b.txt", lit "beef")]
                 [(lit "a/b.txt", lit "beef"); (lit "b.txt", lit "00ff")]
  /\ (NoDup (keys [(lit "b.txt", lit "00ff"); (lit "a/b.txt", lit "beef")]) ->
      forall p, dict_get [(lit "b.txt", lit "00ff"); (lit "a/b.txt", lit "beef")] p
                = dict_get [(lit "a/b.txt", lit "beef"); (lit "b.txt", lit "00ff")] p).
Proof.
  eapply (canonical_json_injective (lit "1.0.0") (lit "1.0.0")).
  - vm_compute. reflexivity.
  - vm_compute. reflexivity.
Defined.

(** ** Closed instances of the further properties *)

Ltac solve_in_cases :=
  repeat match goal with
         | H : _ \/ _ |- _ => destruct H as [H|H]
         | H : False |- _ => destruct H
         | H : (_, _) = (_, _) |- _ => injection H as <- <-
         end.

Ltac solve_well_named :=
  cbn [well_named List.map fst snd];
  repeat split; try (repeat constructor; cbn; intuition discriminate);
  try discriminate; try (cbn; intuition discriminate).

Lemma load_manifest_ignores_other_members_witness :
  load_manifest (L := example_library)
    (JObject (dict_set [(lit "version", JString (lit "1.0"))] (lit "comment") JNull))
  = load_manifest (L := example_library) (JObject [(lit "version", JString (lit "1.0"))]).
Proof.
  apply (load_manifest_ignores_other_members (L := example_library)); discriminate.
Defined.

Lemma load_manifest_of_sign_files_witness :
  load_manifest (L := example_library) example_manifest
  = Ok (lit "1.0.0", collect_hashes (L := example_library) example_payload,
        toy_sign example_key example_signed_bytes).
Proof.
  apply (proj2 (load_manifest_of_sign_files (L := example_library)
                  (lit "1.0.0") (collect_hashes (L := example_library) example_payload)
                  example_key example_manifest example_signed_bytes
                  ltac:(vm_compute; reflexivity))).
  - reflexivity.
  - vm_compute. repeat constructor; cbn; intuition discriminate.
  - vm_compute. reflexivity.
Defined.

Lemma validate_payload_of_sign_files_witness :
  validate_payload (L := example_library) twice_listed_zip example_manifest
    (Some example_key) false
  = (archive_hashes <- hash_zip_members (L := example_library) twice_listed_zip ;;
     nm <- normalize_manifest_loop (L := example_library)
             (collect_hashes (L := example_library) example_payload) [] ;;
     reconcile (L := example_library) (lit "1.0.0") archive_hashes nm false).
Proof.
  apply (proj2 (validate_payload_of_sign_files (L := example_library)
                  (lit "1.0.0") (collect_hashes (L := example_library) example_payload)
                  example_key example_key example_manifest example_signed_bytes
                  twice_listed_zip false ltac:(vm_compute; reflexivity))).
  - reflexivity.
  - vm_compute. repeat constructor; cbn; intuition discriminate.
  - vm_compute. reflexivity.
  - vm_compute. reflexivity.
Defined.

Lemma hash_zip_members_result_witness :
  NoDup (keys [(lit "app.exe", hex (toy_digest [x4d; x5a; x90]));
               (lit "data/cfg.ini", hex (toy_digest [x5b; x5d]))]).
Proof.
  apply (hash_zip_members_result (L := example_library) example_zip).
  vm_compute. reflexivity.
Defined.

Lemma validate_payload_success_sound_witness :
  exists version files signature archive_hashes nm,
    load_manifest (L := example_library) example_manifest
    = Ok (version, files, signature)
    /\ hash_zip_members (L := example_library) example_zip = Ok archive_hashes
    /\ normalize_manifest_loop (L := example_library) files [] = Ok nm
    /\ (forall rel_path digest, In (rel_path, digest) files ->
          exists p actual, normalize_relative_path rel_path = Ok p
                           /\ dict_get archive_hashes p = Some actual)
    /\ (forall p expected, dict_get nm p = Some expected ->
          exists actual, dict_get archive_hashes p = Some actual
                         /\ ascii_lower actual = expected)
    /\ (true = true ->
        forall p, In p (keys archive_hashes) <-> In p (keys nm))
    /\ (true = true -> [Valid (lit "1.0.0")] = [Valid version]).
Proof.
  apply (validate_payload_success_sound (L := example_library) example_zip
           example_manifest (Some example_key) true [Valid (lit "1.0.0")]).
  vm_compute. reflexivity.
Defined.

Lemma sign_then_validate_witness :
  validate_payload (L := example_library) example_zip example_manifest
    (Some example_key) true
  = Ok [Valid (lit "1.0.0")].
Proof.
  apply (sign_then_validate (L := example_library)
           (lit "1.0.0") (collect_hashes (L := example_library) example_payload)
           example_key example_key example_manifest example_signed_bytes example_zip
           [(lit "app.exe", hex (toy_digest [x4d; x5a; x90]));
            (lit "data/cfg.ini", hex (toy_digest [x5b; x5d]))]).
  - vm_compute. reflexivity.
  - reflexivity.
  - vm_compute. repeat constructor; cbn; intuition discriminate.
  - intros k d Hin. vm_compute in Hin. solve_in_cases; split; vm_compute; reflexivity.
  - vm_compute. reflexivity.
  - vm_compute. reflexivity.
  - vm_compute. reflexivity.
  - intros p. reflexivity.
Defined.

Lemma extra_files_sorted_witness :
  StronglySorted (fun a b => str_ltb a b = true)
    (extra_of [(lit "b", lit "00"); (lit "a", lit "01"); (lit "c", lit "02")]
              [(lit "c", lit "02")])
  /\ NoDup (extra_of [(lit "b", lit "00"); (lit "a", lit "01"); (lit "c", lit "02")]
                     [(lit "c", lit "02")]).
Proof.
  apply (extra_files_sorted [(lit "b", lit "00"); (lit "a", lit "01"); (lit "c", lit "02")]
           [(lit "c", lit "02")]).
  repeat constructor; cbn; intuition discriminate.
Defined.

Lemma collect_hashes_well_named_witness :
  collect_hashes (L := example_library) example_payload
  = List.map (fun f => (fst f, hex (toy_digest (snd f)))) (payload_files example_payload).
Proof.
  apply (collect_hashes_well_named (L := example_library) example_payload).
  unfold example_payload. solve_well_named.
Defined.

Lemma ascii_lower_hex (digest : bytes) : ascii_lower (hex digest) = hex digest.
Proof.
  pose proof (hex_lower digest) as H. induction H as [|c s Hc _ IH]; [reflexivity|].
  cbn [ascii_lower List.map]. fold (ascii_lower s). rewrite IH. f_equal.
  cbn in Hc. decompose [or] Hc; subst; try contradiction; reflexivity.
Qed.

Lemma build_then_validate_witness :
  validate_payload (L := example_library) example_zip example_manifest
    (Some example_key) true
  = Ok [Valid (lit "1.0.0")].
Proof.
  apply (build_then_validate (L := example_library) example_payload (lit "1.0.0")
           example_key example_key example_manifest example_signed_bytes).
  - unfold example_payload. solve_well_named.
  - reflexivity.
  - vm_compute. reflexivity.
  - vm_compute. reflexivity.
  - vm_compute. reflexivity.
  - exact ascii_lower_hex.
  - vm_compute. apply Permutation_refl.
Defined.

Lemma builders_agree_witness :
  build_hashes (L := example_library) BACKSLASH example_payload
  = Some (collect_hashes (L := example_library) example_payload).
Proof.
  apply (builders_agree (L := example_library) BACKSLASH example_payload).
  - now right.
  - unfold example_payload. solve_well_named.
  - intros rel n Hin. vm_compute in Hin. solve_in_cases; vm_compute; tauto.
Defined.

Lemma build_hashes_unreadable_witness :
  build_hashes (L := example_library) SLASH
    (Directory [(lit "app.exe", RegularFile [x4d; x5a]);
                (lit "latest", Symlink None)])
  = None.
Proof.
  apply (build_hashes_unreadable (L := example_library) SLASH
           (Directory [(lit "app.exe", RegularFile [x4d; x5a]);
                       (lit "latest", Symlink None)])
           [lit "latest"] (Symlink None)).
  - cbn. right. now left.
  - reflexivity.
Defined.
